(** * psink: the RDB decoder of package psync

    A shallow embedding of the byte cursor ([input]), the zipmap and ziplist
    parsers and the record engine ([rdb]) of package [psync], with the
    properties of the decoder stated and proved over it.

    Conventions of the embedding.
    - A Go [byte] is a [Byte.byte]; [u8] gives its value in [0, 255].
    - A Go [int] / [int64] is a [Z] kept in the signed 64-bit range; the
      arithmetic that can leave the range is wrapped with [wrap64].  The
      unsigned types are [Z] in their unsigned range.
    - A [[]byte] is a [list byte]; the nil slice is the empty list (no caller
      tells them apart).
    - A Go function returning [(v, err)] is a computation in the monad [M]:
      [Ok v] when [err == nil], [Err e] otherwise (no caller looks at the value
      that comes with a non-nil error), [Panic] for a run-time panic.  The
      state is threaded through, and is kept when a call fails.
    - The fields [buf], [conn], [i] and [n] of [rdb] are [rdb_buf],
      [rdb_conn], [rdb_i] and [rdb_n]; [rdb_buf] is what is left of the
      stream behind the buffered reader, which ends with [io.EOF].
    - [fmt.Printf] logging is not modelled, nor is the package-level scratch
      buffer [buff]: every use fills the part of it that it then reads.
      Memory is unbounded: [make] always succeeds. *)

From Stdlib Require Import ZArith List Lia Bool String DecimalString.
From Stdlib.Strings Require Import Byte.
Import ListNotations.
Open Scope Z_scope.

Set Implicit Arguments.

(** ** Machine integers *)

Definition u8 (b : byte) : Z := Z.of_N (Byte.to_N b).

Definition len {A : Type} (l : list A) : Z := Z.of_nat (List.length l).

(** Conversion to a signed [w]-bit integer: [int8(x)], [int16(x)], ... *)
Definition signed (w : Z) (z : Z) : Z :=
  (z + 2 ^ (w - 1)) mod 2 ^ w - 2 ^ (w - 1).

Definition int8 : Z -> Z := signed 8.
Definition int16 : Z -> Z := signed 16.
Definition int32 : Z -> Z := signed 32.
Definition int64 : Z -> Z := signed 64.

(** Result of signed 64-bit arithmetic ([int] is 64 bits wide). *)
Definition wrap64 : Z -> Z := signed 64.

(** ** Errors *)

Inductive error : Type :=
| EOF                                   (* io.EOF *)
| ErrUnexpectedEOF                      (* io.ErrUnexpectedEOF *)
| ErrInvalidWhence                      (* "invalid whence" *)
| ErrNegativePosition                   (* "negative position" *)
| ErrPositionOutOfRange                 (* "position out of range" *)
| ErrInvalidZipmapItemLength            (* "invalid zipmap item length" *)
| ErrUnknownZiplistHeader (header : Z)  (* "rdb: unknown ziplist header byte: %d" *)
| ErrUnknownLenEncoding (typeLen : Z)   (* "unknown length encoding %d in loadLen()" *)
| ErrUnknownStringEncode (length : Z)   (* "unknown string encode type: %d" *)
| ErrUnknownIntsetEncoding (size : Z)   (* "unknown intset encoding: %d" *)
| ErrUnsupportedStreams                 (* "streams are not supported" *)
| ErrUnsupportedModules                 (* "modules are not supported" *)
| ErrUnhandledType (t : Z)              (* "unhandled redis type: %d" *)
| ErrSyntax                             (* strconv.ErrSyntax / ErrRange *)
| ErrReply                              (* a reply redigo cannot convert *)
| ErrWrap (msg : string) (cause : error) (* fmt.Errorf("msg: %w", err) *)
| ErrMsg (msg : string).                (* the same with a nil err *)

Inductive result (A : Type) : Type :=
| Ok (a : A)
| Err (e : error)
| Panic.

Arguments Ok {A} a.
Arguments Err {A} e.
Arguments Panic {A}.

(** ** State and error monad *)

Definition M (S A : Type) : Type := S -> result A * S.

Definition ret {S A : Type} (a : A) : M S A := fun s => (Ok a, s).

Definition fail {S A : Type} (e : error) : M S A := fun s => (Err e, s).

Definition panic {S A : Type} : M S A := fun s => (Panic, s).

Definition bind {S A B : Type} (m : M S A) (k : A -> M S B) : M S B :=
  fun s =>
    match m s with
    | (Ok a, s') => k a s'
    | (Err e, s') => (Err e, s')
    | (Panic, s') => (Panic, s')
    end.

Declare Scope go_scope.
Delimit Scope go_scope with go.
Notation "x <- m ;; k" := (bind m (fun x => k))
  (at level 61, m at next level, right associativity) : go_scope.
Notation "' pat <- m ;; k" := (bind m (fun x => match x with pat => k end))
  (at level 61, pat pattern, m at next level, right associativity) : go_scope.
Notation "m ;;; k" := (bind m (fun _ => k))
  (at level 61, right associativity) : go_scope.
Open Scope go_scope.

(** A call whose error result is dropped by the caller ([buf.Seek(4, 1)]
    as a statement, [r.selectDB(dbindex)]). *)
Definition discard {S A : Type} (m : M S A) : M S unit :=
  fun s =>
    match m s with
    | (Panic, s') => (Panic, s')
    | (_, s') => (Ok tt, s')
    end.

(** [fmt.Errorf("msg: %w", err)] around a failing call. *)
Definition wrapped {S A : Type} (msg : string) (m : M S A) : M S A :=
  fun s =>
    match m s with
    | (Err e, s') => (Err (ErrWrap msg e), s')
    | other => other
    end.

(** ** encoding/binary and strconv *)

(** Unsigned value of a little-endian byte string. *)
Fixpoint le_value (bs : list byte) : Z :=
  match bs with
  | [] => 0
  | b :: bs' => u8 b + 256 * le_value bs'
  end.

Module LittleEndian.
Definition Uint16 (b : list byte) : Z := le_value (firstn 2 b).
Definition Uint32 (b : list byte) : Z := le_value (firstn 4 b).
Definition Uint64 (b : list byte) : Z := le_value (firstn 8 b).
End LittleEndian.

Module BigEndian.
Definition Uint32 (b : list byte) : Z := le_value (rev (firstn 4 b)).
Definition Uint64 (b : list byte) : Z := le_value (rev (firstn 8 b)).
End BigEndian.

(** [strconv.FormatInt(z, 10)] and [strconv.Itoa(z)], as bytes. *)
Definition FormatInt (z : Z) : list byte :=
  list_byte_of_string (NilZero.string_of_int (Z.to_int z)).

Definition Itoa (z : Z) : list byte := FormatInt z.

Definition bytes_eqb (a b : list byte) : bool :=
  if list_eq_dec Byte.byte_eq_dec a b then true else false.

(** [strconv.Atoi]: an optional sign, then decimal digits only, and a value
    that fits [int].  [ErrSyntax] stands for the [*NumError] it returns, of
    either kind. *)
Fixpoint atoi_digits (s : list byte) (n : Z) : option Z :=
  match s with
  | [] => Some n
  | ch :: s' =>
      let d := (u8 ch - 48) mod 256 in
      if d >? 9 then None else atoi_digits s' (n * 10 + d)
  end.

Definition Atoi (s : list byte) : result Z :=
  match s with
  | [] => Err ErrSyntax
  | c :: s' =>
      let digits := if (u8 c =? 45) || (u8 c =? 43) then s' else s in
      match digits with
      | [] => Err ErrSyntax
      | _ :: _ =>
          match atoi_digits digits 0 with
          | None => Err ErrSyntax
          | Some n =>
              let v := if u8 c =? 45 then - n else n in
              if (- 2 ^ 63 <=? v) && (v <? 2 ^ 63) then Ok v else Err ErrSyntax
          end
      end
  end.

(** ** Byte cursor *)

Record input : Type := mkInput {
  data : list byte;
  index : Z
}.

Definition newInput (d : list byte) : input := {| data := d; index := 0 |}.

Definition set_index (buf : input) (i : Z) : input :=
  {| data := data buf; index := i |}.

(** The slice expression [d[lo:hi]]; [None] is the run-time panic. *)
Definition go_slice (d : list byte) (lo hi : Z) : option (list byte) :=
  if (0 <=? lo) && (lo <=? hi) && (hi <=? len d)
  then Some (firstn (Z.to_nat (hi - lo)) (skipn (Z.to_nat lo) d))
  else None.

(** The index expression [d[i]]. *)
Definition go_index (d : list byte) (i : Z) : option byte :=
  if 0 <=? i then nth_error d (Z.to_nat i) else None.

Definition Slice (n : Z) : M input (list byte) :=
  fun buf =>
    let hi := wrap64 (index buf + n) in
    if hi >? len (data buf) then (Err EOF, buf)
    else match go_slice (data buf) (index buf) hi with
         | Some b => (Ok b, set_index buf hi)
         | None => (Panic, buf)
         end.

Definition ReadByte : M input byte :=
  fun buf =>
    if index buf >=? len (data buf) then (Err EOF, buf)
    else match go_index (data buf) (index buf) with
         | Some b => (Ok b, set_index buf (wrap64 (index buf + 1)))
         | None => (Panic, buf)
         end.

(** [Read(b)] returns the number of bytes copied and the contents of [b]
    after the copy. *)
Definition Read (b : list byte) : M input (Z * list byte) :=
  fun buf =>
    if len b =? 0 then (Ok (0, b), buf)
    else if index buf >=? len (data buf) then (Err EOF, buf)
    else match go_slice (data buf) (index buf) (len (data buf)) with
         | Some src =>
             let n := Z.min (len b) (len src) in
             (Ok (n, firstn (Z.to_nat n) src ++ skipn (Z.to_nat n) b),
              set_index buf (wrap64 (index buf + n)))
         | None => (Panic, buf)
         end.

Definition Seek (offset : Z) (whence : Z) : M input Z :=
  fun buf =>
    let resolved :=
      if whence =? 0 then Some offset
      else if whence =? 1 then Some (wrap64 (index buf + offset))
      else if whence =? 2 then Some (wrap64 (len (data buf) + offset))
      else None in
    match resolved with
    | None => (Err ErrInvalidWhence, buf)
    | Some abs =>
        if abs <? 0 then (Err ErrNegativePosition, buf)
        else if abs >=? 2 ^ 31 then (Err ErrPositionOutOfRange, buf)
        else (Ok abs, set_index buf abs)
    end.

(** ** Constants of the RDB format *)

Definition TypeString : Z := 0.
Definition TypeList : Z := 1.
Definition TypeSet : Z := 2.
Definition TypeZset : Z := 3.
Definition TypeHash : Z := 4.
Definition TypeZset2 : Z := 5.
Definition TypeModule : Z := 6.
Definition TypeModule2 : Z := 7.
Definition TypeHashZipMap : Z := 9.
Definition TypeListZipList : Z := 10.
Definition TypeSetIntSet : Z := 11.
Definition TypeZsetZipList : Z := 12.
Definition TypeHashZipList : Z := 13.
Definition TypeListQuickList : Z := 14.
Definition TypeStreamListPacks : Z := 15.

Definition FlagOpcodeIdle : Z := 248.
Definition FlagOpcodeFreq : Z := 249.
Definition FlagOpcodeAux : Z := 250.
Definition FlagOpcodeResizeDB : Z := 251.
Definition FlagOpcodeExpireTimeMs : Z := 252.
Definition FlagOpcodeExpireTime : Z := 253.
Definition FlagOpcodeSelectDB : Z := 254.
Definition FlagOpcodeEOF : Z := 255.

Definition Type6Bit : Z := 0.
Definition Type14Bit : Z := 1.
Definition Type32Bit : Z := 0x80.
Definition Type64Bit : Z := 0x81.
Definition TypeEncVal : Z := 3.

Definition ZipStr06B : Z := 0.
Definition ZipStr14B : Z := 1.
Definition ZipStr32B : Z := 2.

Definition ZipInt04B : Z := 15.
Definition ZipInt08B : Z := 0xfe.
Definition ZipInt16B : Z := Z.lor 0xc0 (Z.shiftl 0 4).
Definition ZipInt24B : Z := Z.lor 0xc0 (Z.shiftl 3 4).
Definition ZipInt32B : Z := Z.lor 0xc0 (Z.shiftl 1 4).
Definition ZipInt64B : Z := Z.lor 0xc0 (Z.shiftl 2 4).

Definition ZipBigPrevLen : Z := 0xfe.

Definition EncodeInt8 : Z := 0.
Definition EncodeInt16 : Z := 1.
Definition EncodeInt32 : Z := 2.
Definition EncodeLZF : Z := 3.

Definition VersionMin : Z := 1.
Definition VersionMax : Z := 9.

(** ** Zipmap *)

Definition loadZipmapItemLength (readFree : bool) : M input (Z * Z) :=
  b <- ReadByte ;;
  if u8 b =? 253 then
    s <- Slice 5 ;;
    ret (BigEndian.Uint32 s, u8 (nth 4 s x00))
  else if u8 b =? 254 then fail ErrInvalidZipmapItemLength
  else if u8 b =? 255 then ret (-1, 0)
  else if readFree then
    free <- ReadByte ;;
    ret (u8 b, u8 free)
  else ret (u8 b, 0).

Definition loadZipmapItem (readFree : bool) : M input (list byte) :=
  '(length, free) <- loadZipmapItemLength readFree ;;
  if length =? -1 then ret []
  else
    value <- Slice length ;;
    Seek free 1 ;;;
    ret value.

(** One turn of the loop of [countZipmapItems]: [inl n'] goes round again,
    [inr tt] is the [break]. *)
Definition countZipmapItems_body (n : Z) : M input (Z + unit) :=
  '(strLen, free) <- loadZipmapItemLength (negb (Z.rem n 2 =? 0)) ;;
  if strLen =? -1 then ret (inr tt)
  else
    Seek (wrap64 (strLen + free)) 1 ;;;
    ret (inl (wrap64 (n + 1))).

(** The loop, bounded by [fuel] turns; [None] when the bound is reached. *)
Fixpoint countZipmapItems_loop (fuel : nat) (n : Z) (buf : input)
  : option (result Z * input) :=
  match fuel with
  | O => None
  | S fuel' =>
      match countZipmapItems_body n buf with
      | (Ok (inl n'), buf') => countZipmapItems_loop fuel' n' buf'
      | (Ok (inr _), buf') => Some ((Seek 0 0 ;;; ret n) buf')
      | (Err e, buf') => Some (Err e, buf')
      | (Panic, buf') => Some (Panic, buf')
      end
  end.

(** Every turn that goes round again moves the cursor forward and a turn at
    the end of the slab fails, so one turn per byte ahead and one more are
    enough (lemma [countZipmapItems_total] below). *)
Definition countZipmapItems : M input Z :=
  fun buf =>
    match countZipmapItems_loop (S (Z.to_nat (len (data buf) - index buf))) 0 buf with
    | Some out => out
    | None => (Panic, buf)
    end.

(** ** Ziplist *)

Definition loadZiplistLength : M input Z :=
  discard (Seek 8 0) ;;;
  lenBytes <- Slice 2 ;;
  ret (LittleEndian.Uint16 lenBytes).

(** The [switch] of [loadZiplistEntry] on the header byte. *)
Definition loadZiplistEntry_switch (header : byte) : M input (list byte) :=
  if Z.shiftr (u8 header) 6 =? ZipStr06B then
    Slice (Z.land (u8 header) 0x3f)
  else if Z.shiftr (u8 header) 6 =? ZipStr14B then
    b <- ReadByte ;;
    Slice (Z.lor (Z.shiftl (Z.land (u8 header) 0x3f) 8) (u8 b))
  else if Z.shiftr (u8 header) 6 =? ZipStr32B then
    lenBytes <- Slice 4 ;;
    Slice (BigEndian.Uint32 lenBytes)
  else if u8 header =? ZipInt08B then
    b <- ReadByte ;;
    ret (FormatInt (int8 (u8 b)))
  else if u8 header =? ZipInt16B then
    intBytes <- Slice 2 ;;
    ret (FormatInt (int16 (LittleEndian.Uint16 intBytes)))
  else if u8 header =? ZipInt32B then
    intBytes <- Slice 4 ;;
    ret (FormatInt (int32 (LittleEndian.Uint32 intBytes)))
  else if u8 header =? ZipInt64B then
    intBytes <- Slice 8 ;;
    ret (FormatInt (int64 (LittleEndian.Uint64 intBytes)))
  else if u8 header =? ZipInt24B then
    '(_, tail) <- Read [x00; x00; x00] ;;
    let intBytes := x00 :: tail in
    ret (FormatInt (Z.shiftr (int32 (LittleEndian.Uint32 intBytes)) 8))
  else if Z.shiftr (u8 header) 4 =? ZipInt04B then
    ret (FormatInt (Z.land (u8 header) 0x0f - 1))
  else fail (ErrUnknownZiplistHeader (u8 header)).

Definition loadZiplistEntry : M input (list byte) :=
  prevLen <- ReadByte ;;
  (if u8 prevLen =? ZipBigPrevLen then discard (Seek 4 1) else ret tt) ;;;
  header <- ReadByte ;;
  loadZiplistEntry_switch header.

(** ** The record engine *)

(** [float64] and the library functions on it that the decoder calls:
    [math.Inf(1)], [math.Inf(-1)], [math.NaN()], [strconv.ParseFloat(s, 64)]
    and [math.Float64frombits].  The development holds for any of them. *)
Class GoFloat : Type := {
  float64 : Type;
  PosInf : float64;
  NegInf : float64;
  Nan : float64;
  ParseFloat : list byte -> result float64;
  Float64frombits : Z -> float64
}.

(** [lzfDecompress(val, ilength, ulength)]: its source is not among the
    decoder files; the development holds for any such function.  [None] is
    a run-time panic on a malformed block. *)
Class Lzf : Type := {
  lzfDecompress : list byte -> Z -> Z -> option (list byte)
}.

Section Engine.

Context {F : GoFloat} {L : Lzf}.

(** *** The destination connection *)

(** An argument of a command, by its Go type. *)
Inductive arg : Type :=
| ArgBytes (b : list byte)     (* []byte *)
| ArgStr (s : list byte)       (* string *)
| ArgFloat (f : float64)       (* float64 *)
| ArgUint64 (z : Z)            (* uint64 *)
| ArgInt64 (z : Z).            (* int64 *)

Record command : Type := mkCommand {
  cmd_name : string;
  cmd_args : list arg
}.

(** What [conn.Do] hands back: a status line, an integer, or a non-nil
    error. *)
Inductive reply : Type :=
| ReplyStatus (s : string)
| ReplyInt (z : Z)
| ReplyErr (e : error).

(** The connection: the commands sent so far, and the destination, which
    answers a command knowing the ones before it. *)
Record Conn : Type := mkConn {
  sent : list command;
  respond : list command -> command -> reply
}.

Definition redigo_String (rp : reply) : result string :=
  match rp with
  | ReplyStatus s => Ok s
  | ReplyInt _ => Err ErrReply
  | ReplyErr e => Err e
  end.

Definition redigo_Int (rp : reply) : result Z :=
  match rp with
  | ReplyInt z => Ok z
  | ReplyStatus _ => Err ErrReply
  | ReplyErr e => Err e
  end.

(** *** The stream reader *)

Record rdb : Type := mkRdb {
  rdb_buf : list byte;   (* what is left of the stream behind [r.buf] *)
  rdb_conn : Conn;
  rdb_i : Z;
  rdb_n : Z
}.

Definition set_buf (r : rdb) (b : list byte) : rdb :=
  {| rdb_buf := b; rdb_conn := rdb_conn r; rdb_i := rdb_i r; rdb_n := rdb_n r |}.

(** [r.i += d] *)
Definition add_i (d : Z) : M rdb unit :=
  fun r =>
    (Ok tt, {| rdb_buf := rdb_buf r; rdb_conn := rdb_conn r;
               rdb_i := wrap64 (rdb_i r + d); rdb_n := rdb_n r |}).

(** [r.conn.Do(name, args...)] *)
Definition Do (name : string) (args : list arg) : M rdb reply :=
  fun r =>
    let c := {| cmd_name := name; cmd_args := args |} in
    let cn := rdb_conn r in
    (Ok (respond cn (sent cn) c),
     {| rdb_buf := rdb_buf r;
        rdb_conn := {| sent := sent cn ++ [c]; respond := respond cn |};
        rdb_i := rdb_i r; rdb_n := rdb_n r |}).

(** [r.buf.ReadByte()] *)
Definition buf_ReadByte : M rdb byte :=
  fun r =>
    match rdb_buf r with
    | [] => (Err EOF, r)
    | b :: rest => (Ok b, set_buf r rest)
    end.

(** [io.ReadFull(r.buf, p)] for a [p] of [k] bytes: the bytes read, their
    number and the error.  A short stream is drained. *)
Definition io_ReadFull (k : Z) : M rdb (list byte * Z * option error) :=
  fun r =>
    let avail := len (rdb_buf r) in
    if k <=? avail then
      (Ok (firstn (Z.to_nat k) (rdb_buf r), k, None),
       set_buf r (skipn (Z.to_nat k) (rdb_buf r)))
    else if avail =? 0 then (Ok ([], 0, Some EOF), r)
    else (Ok (rdb_buf r, avail, Some ErrUnexpectedEOF), set_buf r []).

Definition loadByte : M rdb byte :=
  buf <- buf_ReadByte ;;
  add_i 1 ;;;
  ret buf.

Definition loadLen : M rdb (Z * bool) :=
  buf <- loadByte ;;
  let typeLen := Z.shiftr (Z.land (u8 buf) 0xc0) 6 in
  if (typeLen =? TypeEncVal) || (typeLen =? Type6Bit) then
    ret (Z.land (u8 buf) 0x3f, typeLen =? TypeEncVal)
  else if typeLen =? Type14Bit then
    nb <- loadByte ;;
    ret (Z.lor (Z.shiftl (Z.land (u8 buf) 0x3f) 8) (u8 nb), false)
  else if u8 buf =? Type32Bit then
    '(p, n, err) <- io_ReadFull 4 ;;
    match err with
    | Some e => fail e
    | None => add_i n ;;; ret (BigEndian.Uint32 p, false)
    end
  else if u8 buf =? Type64Bit then
    '(p, n, err) <- io_ReadFull 8 ;;
    match err with
    | Some e => fail e
    | None => add_i n ;;; ret (BigEndian.Uint64 p, false)
    end
  else fail (ErrUnknownLenEncoding typeLen).

Definition loadUint16 : M rdb Z :=
  '(p, _, err) <- io_ReadFull 2 ;;
  match err with
  | Some e => fail e
  | None => add_i 2 ;;; ret (LittleEndian.Uint16 p)
  end.

Definition loadUint32 : M rdb Z :=
  '(p, _, err) <- io_ReadFull 4 ;;
  match err with
  | Some e => fail e
  | None => add_i 4 ;;; ret (LittleEndian.Uint32 p)
  end.

Definition loadUint64 : M rdb Z :=
  '(p, _, err) <- io_ReadFull 8 ;;
  match err with
  | Some e => fail e
  | None => add_i 8 ;;; ret (LittleEndian.Uint64 p)
  end.

Definition loadFloat : M rdb float64 :=
  b <- loadByte ;;
  if u8 b =? 0xff then ret NegInf
  else if u8 b =? 0xfe then ret PosInf
  else if u8 b =? 0xfd then ret Nan
  else
    '(floatBytes, n, err) <- io_ReadFull (u8 b) ;;
    match err with
    | Some e => fail e
    | None =>
        add_i n ;;;
        match ParseFloat floatBytes with
        | Ok f => ret f
        | Err e => fail e
        | Panic => panic
        end
    end.

Definition loadBinaryFloat : M rdb float64 :=
  '(p, n, err) <- io_ReadFull 8 ;;
  match err with
  | Some e => fail e
  | None =>
      add_i n ;;;
      let bits := LittleEndian.Uint64 p in
      ret (Float64frombits bits)
  end.

Definition loadLZF : M rdb (list byte) :=
  '(ilength, _) <- loadLen ;;
  '(ulength, _) <- loadLen ;;
  '(val, n, err) <- io_ReadFull ilength ;;
  match err with
  | Some e => fail e
  | None =>
      add_i n ;;;
      match lzfDecompress val (int64 ilength) (int64 ulength) with
      | Some res => ret res
      | None => panic
      end
  end.

Definition loadString : M rdb (list byte) :=
  '(length, needEncode) <- loadLen ;;
  if needEncode then
    if length =? EncodeInt8 then
      b <- loadByte ;;
      ret (Itoa (u8 b))
    else if length =? EncodeInt16 then
      b <- loadUint16 ;;
      ret (Itoa b)
    else if length =? EncodeInt32 then
      b <- loadUint32 ;;
      ret (Itoa b)
    else if length =? EncodeLZF then
      loadLZF
    else fail (ErrUnknownStringEncode length)
  else
    '(res, n, err) <- io_ReadFull length ;;
    add_i n ;;;
    match err with
    | Some e => fail e
    | None => ret res
    end.

(** *** Commands to the destination *)

(** [n, err := redigo.Int(reply)] followed by
    [if err != nil || expected != n { return fmt.Errorf("msg: %w", err) }]. *)
Definition expect_int (msg : string) (expected : Z) (rp : reply) : M rdb unit :=
  match redigo_Int rp with
  | Ok n => if expected =? n then ret tt else fail (ErrMsg msg)
  | Err e => fail (ErrWrap msg e)
  | Panic => panic
  end.

(** The same with [redigo.String] and [res != "OK"]. *)
Definition expect_ok (msg : string) (rp : reply) : M rdb unit :=
  match redigo_String rp with
  | Ok res => if String.eqb res "OK" then ret tt else fail (ErrMsg msg)
  | Err e => fail (ErrWrap msg e)
  | Panic => panic
  end.

Definition selectDB (index : Z) : M rdb unit :=
  rp <- Do "SELECT" [ArgUint64 index] ;;
  expect_ok "failed to select db" rp.

Definition loadScript (script : list byte) : M rdb unit :=
  rp <- Do "SCRIPT LOAD" [ArgBytes script] ;;
  match redigo_Int rp with
  | Ok _ => ret tt
  | Err e => fail (ErrWrap "failed to load script" e)
  | Panic => panic
  end.

(** [for i := 0; i < count; i++ { vs, err := body(); ...; ent = append(ent, vs...) }] *)
Fixpoint for_loop {S A : Type} (count : nat) (body : M S (list A)) (ent : list A)
  : M S (list A) :=
  match count with
  | O => ret ent
  | Datatypes.S c => vs <- body ;; for_loop c body (ent ++ vs)
  end.

(** A parser over a cursor [buf] local to the caller. *)
Definition with_input {A : Type} (buf : input) (m : M input A) : M rdb A :=
  fun r => (fst (m buf), r).

(** *** Values by object type *)

Definition loadList (key : list byte) : M rdb unit :=
  '(length, _) <- loadLen ;;
  ent <- for_loop (Z.to_nat length) (val <- loadString ;; ret [ArgBytes val]) [] ;;
  rp <- Do "RPUSH" (ArgBytes key :: ent) ;;
  expect_int "failed to RPUSH list" (int64 length) rp.

Definition loadZipList : M rdb (list (list byte)) :=
  b <- loadString ;;
  with_input (newInput b)
    (length <- loadZiplistLength ;;
     for_loop (Z.to_nat length) (entry <- loadZiplistEntry ;; ret [entry]) []).

Definition loadListWithQuickList (key : list byte) : M rdb unit :=
  '(length, _) <- loadLen ;;
  for_loop (Z.to_nat length)
    (listItems <- loadZipList ;;
     rp <- Do "RPUSH" (ArgBytes key :: map ArgBytes listItems) ;;
     expect_int "failed to RPUSH quickList" (len listItems) rp ;;;
     ret (@nil unit)) [] ;;;
  ret tt.

Definition loadListWithZipList (key : list byte) : M rdb unit :=
  entries <- loadZipList ;;
  rp <- Do "RPUSH" (ArgBytes key :: map ArgBytes entries) ;;
  expect_int "failed to RPUSH zipList" (len entries) rp.

Definition loadHashMap (key : list byte) : M rdb unit :=
  '(length, _) <- loadLen ;;
  ent <- for_loop (Z.to_nat length)
           (field <- loadString ;;
            value <- loadString ;;
            ret [ArgBytes field; ArgBytes value]) [] ;;
  rp <- Do "HSET" (ArgBytes key :: ent) ;;
  expect_int "failed to HSET" (int64 length) rp.

(** The part of [loadHashMapWithZipmap] that works on the slab: the pair
    count and the arguments collected for the HSET. *)
Definition zipmap_pairs : M input (Z * list arg) :=
  blen <- ReadByte ;;
  length <- (if u8 blen >? 254 then
               length <- countZipmapItems ;;
               ret (Z.quot length 2)
             else ret (u8 blen)) ;;
  ent <- for_loop (Z.to_nat length)
           (field <- loadZipmapItem false ;;
            value <- loadZipmapItem true ;;
            ret [ArgBytes field; ArgBytes value]) [] ;;
  ret (length, ent).

Definition loadHashMapWithZipmap (key : list byte) : M rdb unit :=
  zipmap <- loadString ;;
  '(length, ent) <- with_input (newInput zipmap) zipmap_pairs ;;
  rp <- Do "HSET" (ArgBytes key :: ent) ;;
  expect_int "failed to HSET" length rp.

Definition loadHashMapZiplist (key : list byte) : M rdb unit :=
  b <- loadString ;;
  '(length, ent) <- with_input (newInput b)
    (length <- loadZiplistLength ;;
     let length := Z.quot length 2 in
     ent <- for_loop (Z.to_nat length)
              (field <- loadZiplistEntry ;;
               value <- loadZiplistEntry ;;
               ret [ArgBytes field; ArgBytes value]) [] ;;
     ret (length, ent)) ;;
  rp <- Do "HSET" (ArgBytes key :: ent) ;;
  expect_int "failed to HSET" length rp.

Definition loadSet (key : list byte) : M rdb unit :=
  '(length, _) <- loadLen ;;
  ent <- for_loop (Z.to_nat length) (member <- loadString ;; ret [ArgBytes member]) [] ;;
  rp <- Do "SADD" (ArgBytes key :: ent) ;;
  expect_int "failed to SADD" (int64 length) rp.

Definition loadIntSet (key : list byte) : M rdb unit :=
  b <- loadString ;;
  '(cardinality, ent) <- with_input (newInput b)
    (sizeBytes <- Slice 4 ;;
     let intSize := LittleEndian.Uint32 sizeBytes in
     if negb (intSize =? 2) && negb (intSize =? 4) && negb (intSize =? 8) then
       fail (ErrUnknownIntsetEncoding intSize)
     else
       lenBytes <- Slice 4 ;;
       let cardinality := LittleEndian.Uint32 lenBytes in
       ent <- for_loop (Z.to_nat cardinality)
                (intBytes <- Slice intSize ;;
                 let intString :=
                   if intSize =? 2 then FormatInt (int16 (LittleEndian.Uint16 intBytes))
                   else if intSize =? 4 then FormatInt (int32 (LittleEndian.Uint32 intBytes))
                   else if intSize =? 8 then FormatInt (int64 (LittleEndian.Uint64 intBytes))
                   else [] in
                 ret [ArgStr intString]) [] ;;
       ret (cardinality, ent)) ;;
  rp <- Do "SADD" (ArgBytes key :: ent) ;;
  expect_int "failed to SADD" cardinality rp.

(** The score of a member of a sorted set of type [t]: the [if t ==
    TypeZset2 { ... } else { ... }] in the loop of [loadZSet]. *)
Definition loadZSet_score (t : byte) : M rdb float64 :=
  if u8 t =? TypeZset2 then loadBinaryFloat else loadFloat.

Definition loadZSet (key : list byte) (t : byte) : M rdb unit :=
  '(length, _) <- loadLen ;;
  ent <- for_loop (Z.to_nat length)
           (member <- loadString ;;
            score <- loadZSet_score t ;;
            ret [ArgFloat score; ArgBytes member]) [] ;;
  rp <- Do "ZADD" (ArgBytes key :: ent) ;;
  expect_int "failed to ZADD" (int64 length) rp.

Definition loadZipListSortSet (key : list byte) : M rdb unit :=
  b <- loadString ;;
  '(cardinality, ent) <- with_input (newInput b)
    (cardinality <- loadZiplistLength ;;
     let cardinality := Z.quot cardinality 2 in
     ent <- for_loop (Z.to_nat cardinality)
              (member <- loadZiplistEntry ;;
               scoreBytes <- loadZiplistEntry ;;
               match ParseFloat scoreBytes with
               | Ok score => ret [ArgFloat score; ArgBytes member]
               | Err e => fail e
               | Panic => panic
               end) [] ;;
     ret (cardinality, ent)) ;;
  rp <- Do "ZADD" (ArgBytes key :: ent) ;;
  expect_int "failed to ZADD" cardinality rp.

Definition loadValue (key : list byte) (t : byte) (expire : Z) : M rdb unit :=
  (if u8 t =? TypeString then
     val <- loadString ;;
     rp <- Do "SET" [ArgBytes key; ArgBytes val] ;;
     expect_ok "failed to SET val" rp
   else if u8 t =? TypeList then loadList key
   else if u8 t =? TypeSet then loadSet key
   else if (u8 t =? TypeZset) || (u8 t =? TypeZset2) then loadZSet key t
   else if u8 t =? TypeHash then loadHashMap key
   else if u8 t =? TypeListQuickList then loadListWithQuickList key
   else if u8 t =? TypeHashZipMap then loadHashMapWithZipmap key
   else if u8 t =? TypeListZipList then loadListWithZipList key
   else if u8 t =? TypeSetIntSet then loadIntSet key
   else if u8 t =? TypeZsetZipList then loadZipListSortSet key
   else if u8 t =? TypeHashZipList then loadHashMapZiplist key
   else if u8 t =? TypeStreamListPacks then fail ErrUnsupportedStreams
   else if (u8 t =? TypeModule) || (u8 t =? TypeModule2) then fail ErrUnsupportedModules
   else fail (ErrUnhandledType (u8 t))) ;;;
  if expire >? 0 then
    rp <- Do "PEXPIREAT" [ArgBytes key; ArgInt64 expire] ;;
    match rp with
    | ReplyErr e => fail (ErrWrap "failed to expire key" e)
    | _ => ret tt
    end
  else ret tt.

(** *** The main loop *)

(** How one turn of the loop of [loadData] ends when it does not return an
    error: [continue] (with the values of the loop variables [expire] and
    [hasSelectDb] for the next turn) or [break]. *)
Inductive flow : Type :=
| Continue (expire : Z) (hasSelectDb : bool)
| Break.

Definition loadData_body (expire : Z) (hasSelectDb : bool) : M rdb flow :=
  t <- loadByte ;;
  if u8 t =? FlagOpcodeIdle then
    loadLen ;;;
    ret (Continue expire hasSelectDb)
  else if u8 t =? FlagOpcodeFreq then
    loadByte ;;;
    ret (Continue expire hasSelectDb)
  else if u8 t =? FlagOpcodeAux then
    key <- wrapped "parse Aux key failed" loadString ;;
    val <- wrapped "parse Aux value failed" loadString ;;
    (if bytes_eqb key (list_byte_of_string "lua")
     then discard (loadScript val) else ret tt) ;;;
    ret (Continue expire hasSelectDb)
  else if u8 t =? FlagOpcodeResizeDB then
    wrapped "parse ResizeDB size failed" loadLen ;;;
    wrapped "parse ResizeDB size failed" loadLen ;;;
    ret (Continue expire hasSelectDb)
  else if u8 t =? FlagOpcodeExpireTimeMs then
    res <- wrapped "parse ExpireTime_ms failed" loadUint64 ;;
    ret (Continue (int64 res) hasSelectDb)
  else if u8 t =? FlagOpcodeExpireTime then
    res <- wrapped "parse ExpireTime failed" loadUint64 ;;
    ret (Continue (wrap64 (int64 res * 1000)) hasSelectDb)
  else if u8 t =? FlagOpcodeSelectDB then
    if hasSelectDb then ret (Continue expire hasSelectDb)
    else
      '(dbindex, _) <- wrapped "parse db index failed" loadLen ;;
      discard (selectDB dbindex) ;;;
      ret (Continue expire false)
  else if u8 t =? FlagOpcodeEOF then
    '(_, n, err) <- io_ReadFull 8 ;;
    match err with
    | Some e => fail (ErrWrap "failed to read checksum" e)
    | None => add_i n ;;; ret Break
    end
  else
    key <- loadString ;;
    loadValue key t expire ;;;
    ret (Continue (-1) hasSelectDb).

(** The loop [for r.i < r.n { ... }], bounded by [fuel] turns; [None] when
    the bound is reached.  [Ok tt] is the [return err] with a nil [err] that
    follows the loop. *)
Fixpoint loadData_loop (fuel : nat) (expire : Z) (hasSelectDb : bool) (r : rdb)
  : option (result unit * rdb) :=
  match fuel with
  | O => None
  | S fuel' =>
      if rdb_i r <? rdb_n r then
        match loadData_body expire hasSelectDb r with
        | (Ok (Continue expire' hasSelectDb'), r') =>
            loadData_loop fuel' expire' hasSelectDb' r'
        | (Ok Break, r') => Some (Ok tt, r')
        | (Err e, r') => Some (Err e, r')
        | (Panic, r') => Some (Panic, r')
        end
      else Some (Ok tt, r)
  end.

(** Every turn that goes round again has taken at least one byte from the
    stream, and a turn on the empty stream returns an error: one turn per
    byte and one more are enough (lemma [loadData_total] below). *)
Definition loadData (r : rdb) : result unit * rdb :=
  match loadData_loop (S (List.length (rdb_buf r))) 0 false r with
  | Some out => out
  | None => (Panic, r)
  end.

(** *** The header and the entry point *)

Definition checkHeader : M rdb bool :=
  '(header, n, err) <- io_ReadFull 9 ;;
  match err with
  | Some e => fail (ErrWrap "failed to read RDB header" e)
  | None =>
      add_i n ;;;
      match Atoi (skipn 5 header) with
      | Err e => fail (ErrWrap "invalid header" e)
      | Panic => panic
      | Ok rdbVersion =>
          if negb (bytes_eqb (firstn 5 header) (list_byte_of_string "REDIS"))
             || ((rdbVersion <? VersionMin) || (rdbVersion >? VersionMax))
          then fail (ErrMsg "invalid header")
          else ret true
      end
  end.

(** [loadRDB(ctx, buf, destAddr, size)]; [dial] is what [redigo.DialURL]
    returned for [destAddr].  The reader is [None] when the dial failed. *)
Definition loadRDB (buf : list byte) (dial : result Conn) (size : Z)
  : result unit * option rdb :=
  match dial with
  | Err e => (Err (ErrWrap "failed to connect to dest" e), None)
  | Panic => (Panic, None)
  | Ok c =>
      let r := {| rdb_buf := buf; rdb_conn := c; rdb_i := 0; rdb_n := size |} in
      let '(out, r') :=
        (res <- checkHeader ;;
         if negb res then ret tt else loadData) r in
      (out, Some r')
  end.

(** *** Vocabulary of the properties of the engine *)

(** The reader after [k] more bytes of the stream have been taken and
    counted in [r.i]. *)
Definition advance (k : nat) (r : rdb) : rdb :=
  {| rdb_buf := skipn k (rdb_buf r);
     rdb_conn := rdb_conn r;
     rdb_i := wrap64 (rdb_i r + Z.of_nat k);
     rdb_n := rdb_n r |}.

(** The reader after the command [c] has been sent to the destination. *)
Definition sending (c : command) (r : rdb) : rdb :=
  {| rdb_buf := rdb_buf r;
     rdb_conn := {| sent := sent (rdb_conn r) ++ [c];
                    respond := respond (rdb_conn r) |};
     rdb_i := rdb_i r;
     rdb_n := rdb_n r |}.

(** The PEXPIREAT commands of a log. *)
Definition is_pexpireat (c : command) : bool :=
  String.eqb (cmd_name c) "PEXPIREAT".

Definition pexpireats (log : list command) : list command :=
  filter is_pexpireat log.

(** [quiet_step r r']: from [r] to [r'], commands were sent, none of them a
    PEXPIREAT. *)
Definition quiet_step (r r' : rdb) : Prop :=
  exists cmds,
    sent (rdb_conn r') = sent (rdb_conn r) ++ cmds /\ pexpireats cmds = [].

(** [shrink_step r r']: from [r] to [r'], the stream has not grown. *)
Definition shrink_step (r r' : rdb) : Prop :=
  (List.length (rdb_buf r') <= List.length (rdb_buf r))%nat.

(** A computation all of whose runs are steps of [R]. *)
Definition preserves {A : Type} (R : rdb -> rdb -> Prop) (m : M rdb A) : Prop :=
  forall r, R r (snd (m r)).

(** The two opcodes that load the pending-expiry register. *)
Definition is_expiry_opcode (t : byte) : bool :=
  (u8 t =? FlagOpcodeExpireTimeMs) || (u8 t =? FlagOpcodeExpireTime).

(** [turns_without_expiry expire hasSelectDb r expire' hasSelectDb' r']:
    consecutive turns of the loop of [loadData], on data records or on
    opcodes other than EXPIRETIME_MS and EXPIRETIME, lead from the loop
    variables [expire], [hasSelectDb] and the reader [r] to [expire'],
    [hasSelectDb'] and [r']. *)
Inductive turns_without_expiry : Z -> bool -> rdb -> Z -> bool -> rdb -> Prop :=
| turns_none (expire : Z) (hasSelectDb : bool) (r : rdb) :
    turns_without_expiry expire hasSelectDb r expire hasSelectDb r
| turns_more (expire : Z) (hasSelectDb : bool) (r : rdb)
    (t : byte) (rest : list byte)
    (expire1 : Z) (hasSelectDb1 : bool) (r1 : rdb)
    (expire2 : Z) (hasSelectDb2 : bool) (r2 : rdb) :
    rdb_buf r = t :: rest ->
    is_expiry_opcode t = false ->
    loadData_body expire hasSelectDb r = (Ok (Continue expire1 hasSelectDb1), r1) ->
    turns_without_expiry expire1 hasSelectDb1 r1 expire2 hasSelectDb2 r2 ->
    turns_without_expiry expire hasSelectDb r expire2 hasSelectDb2 r2.

(** What the destination answers to the command [c] sent from [r]. *)
Definition answer (r : rdb) (c : command) : reply :=
  respond (rdb_conn r) (sent (rdb_conn r)) c.

(** [stream_step r r']: from [r] to [r'], bytes were taken from the front of
    the stream and commands were added at the end of the log; the
    destination and the announced length are the same. *)
Definition stream_step (r r' : rdb) : Prop :=
  (exists taken, rdb_buf r = taken ++ rdb_buf r') /\
  (exists cmds, sent (rdb_conn r') = sent (rdb_conn r) ++ cmds) /\
  respond (rdb_conn r') = respond (rdb_conn r) /\
  rdb_n r' = rdb_n r.

(** [counted r r']: from [r] to [r'], the bytes taken from the front of the
    stream were all counted in [r.i]. *)
Definition counted (r r' : rdb) : Prop :=
  exists k : nat,
    (k <= List.length (rdb_buf r))%nat /\
    rdb_buf r' = skipn k (rdb_buf r) /\
    rdb_i r' = wrap64 (rdb_i r + Z.of_nat k) /\
    rdb_n r' = rdb_n r.

(** A computation that, when it succeeds, has counted what it took; [r.i]
    is an [int]. *)
Definition counts {A : Type} (m : M rdb A) : Prop :=
  forall r a r',
    - 2 ^ 63 <= rdb_i r < 2 ^ 63 -> m r = (Ok a, r') -> counted r r'.

(** The reader after [k] bytes were taken and counted and the commands
    [cmds] were sent. *)
Definition reader_after (r : rdb) (k : nat) (cmds : list command) : rdb :=
  {| rdb_buf := skipn k (rdb_buf r);
     rdb_conn := {| sent := sent (rdb_conn r) ++ cmds;
                    respond := respond (rdb_conn r) |};
     rdb_i := wrap64 (rdb_i r + Z.of_nat k);
     rdb_n := rdb_n r |}.

(** A destination that, from the log [log] on, answers each command of
    [cmds] with the integer that comes with it. *)
Fixpoint answers_counts (answers : list command -> command -> reply)
  (log : list command) (cmds : list (command * Z)) : Prop :=
  match cmds with
  | [] => True
  | (c, n) :: cmds' =>
      answers log c = ReplyInt n /\ answers_counts answers (log ++ [c]) cmds'
  end.

End Engine.

(** ** Parameters for the examples *)

(** A [float64] given by its bits; this [ParseFloat] rejects every string. *)
Definition bits_float : GoFloat :=
  {| float64 := Z;
     PosInf := 0x7ff0000000000000;
     NegInf := 0xfff0000000000000;
     Nan := 0x7ff8000000000001;
     ParseFloat := fun _ => Err ErrSyntax;
     Float64frombits := fun bits => bits |}.

(** A decompressor that hands back the compressed bytes. *)
Definition stored_lzf : Lzf :=
  {| lzfDecompress := fun val _ _ => Some val |}.

(** A destination that answers [OK] to every command, with nothing sent to
    it yet. *)
Definition ok_conn : @Conn bits_float :=
  {| sent := []; respond := fun _ _ => ReplyStatus "OK" |}.

(** A [float64] given by the text it was read from; this [ParseFloat]
    accepts every string. *)
Definition text_float : GoFloat :=
  {| float64 := list byte;
     PosInf := list_byte_of_string "+Inf";
     NegInf := list_byte_of_string "-Inf";
     Nan := list_byte_of_string "NaN";
     ParseFloat := fun s => Ok s;
     Float64frombits := fun bits => FormatInt bits |}.

(** A destination that answers every command with the count of the
    arguments that follow the key, with nothing sent to it yet. *)
Definition counting_conn {F : GoFloat} : Conn :=
  {| sent := []; respond := fun _ c => ReplyInt (len (cmd_args c) - 1) |}.

(** ** Vocabulary of the properties *)

(** The cursor is inside its slab. *)
Definition in_bounds (buf : input) : Prop :=
  0 <= index buf <= len (data buf).

(** The position [Seek] resolves [offset] to, for a valid [whence]. *)
Definition resolved_position (buf : input) (offset whence : Z) : Z :=
  if whence =? 0 then offset
  else if whence =? 1 then wrap64 (index buf + offset)
  else wrap64 (len (data buf) + offset).

(** The cursor over a slab, split in the part behind it and the part ahead. *)
Definition cursor (behind ahead : list byte) : input :=
  {| data := behind ++ ahead; index := len behind |}.

(** The prev-len field of a ziplist entry: one byte, or [0xFE] and four more. *)
Definition prevlen_field (f : list byte) : Prop :=
  (exists p, f = [p] /\ u8 p <> ZipBigPrevLen) \/
  (exists a b c d, f = [xfe; a; b; c; d]).

(** The header bytes of the table of ziplist entries in the specification. *)
Definition specified_ziplist_header (h : Z) : bool :=
  (Z.shiftr h 6 =? 0) || (Z.shiftr h 6 =? 1) || (Z.shiftr h 6 =? 2)
  || (h =? 0xc0) || (h =? 0xd0) || (h =? 0xe0) || (h =? 0xf0) || (h =? 0xfe)
  || ((Z.shiftr h 4 =? 15) && (1 <=? Z.land h 15) && (Z.land h 15 <=? 13)).

(** The header bytes [loadZiplistEntry] rejects: [0xC1]-[0xCF],
    [0xD1]-[0xDF] and [0xE1]-[0xEF]. *)
Definition rejected_ziplist_header (h : Z) : bool :=
  (0xc0 <? h) && (h <? 0xf0) && negb (h mod 16 =? 0).

(** A parser that never reports an unknown ziplist header. *)
Definition no_header_error {A : Type} (m : M input A) : Prop :=
  forall buf h, fst (m buf) <> Err (ErrUnknownZiplistHeader h).

(** ** Encodings, for the round trips *)

(** The byte of value [z mod 256]. *)
Definition byte_of_Z (z : Z) : byte :=
  match Byte.of_N (Z.to_N (z mod 256)) with
  | Some b => b
  | None => x00
  end.

(** The [k] low bytes of [z], little-endian (two's complement for a
    negative [z]). *)
Fixpoint le_bytes (k : nat) (z : Z) : list byte :=
  match k with
  | O => []
  | S k' => byte_of_Z z :: le_bytes k' (z / 256)
  end.

(** The shortest length prefix of the RDB format for [n]. *)
Definition encode_length (n : Z) : list byte :=
  if n <? 64 then [byte_of_Z n]
  else if n <? 16384 then [byte_of_Z (0x40 + n / 256); byte_of_Z n]
  else if n <? 2 ^ 32 then x80 :: rev (le_bytes 4 n)
  else x81 :: rev (le_bytes 8 n).

(** A string stored raw: its length, then its bytes. *)
Definition encode_string (v : list byte) : list byte :=
  encode_length (len v) ++ v.

(** What a ziplist entry holds: a string, an integer of [w] bits, or a
    4-bit immediate. *)
Inductive ziplist_item : Type :=
| ZStr (v : list byte)
| ZInt (w : Z) (z : Z)
| ZImm (z : Z).

Definition ziplist_item_ok (it : ziplist_item) : Prop :=
  match it with
  | ZStr v => len v < 2 ^ 32
  | ZInt w z =>
      (w = 8 \/ w = 16 \/ w = 24 \/ w = 32 \/ w = 64)
      /\ - 2 ^ (w - 1) <= z < 2 ^ (w - 1)
  | ZImm z => 0 <= z <= 12
  end.

Definition ziplist_string_header (n : Z) : list byte :=
  if n <? 64 then [byte_of_Z n]
  else if n <? 16384 then [byte_of_Z (0x40 + n / 256); byte_of_Z n]
  else x80 :: rev (le_bytes 4 n).

Definition ziplist_int_header (w : Z) : byte :=
  if w =? 8 then xfe
  else if w =? 16 then xc0
  else if w =? 24 then xf0
  else if w =? 32 then xd0
  else xe0.

(** The header and payload of an entry, after its prev-len field. *)
Definition ziplist_item_bytes (it : ziplist_item) : list byte :=
  match it with
  | ZStr v => ziplist_string_header (len v) ++ v
  | ZInt w z => ziplist_int_header w :: le_bytes (Z.to_nat (w / 8)) z
  | ZImm z => [byte_of_Z (0xf1 + z)]
  end.

(** The byte string the entry decodes to. *)
Definition ziplist_item_value (it : ziplist_item) : list byte :=
  match it with
  | ZStr v => v
  | ZInt _ z => FormatInt z
  | ZImm z => FormatInt z
  end.

(** An entry: its prev-len field and what it holds. *)
Definition ziplist_entry_bytes (e : list byte * ziplist_item) : list byte :=
  fst e ++ ziplist_item_bytes (snd e).

Definition ziplist_entry_ok (e : list byte * ziplist_item) : Prop :=
  prevlen_field (fst e) /\ ziplist_item_ok (snd e).

(** A ziplist: eight bytes (total size and tail offset), the count of the
    entries on two bytes, the entries, and whatever follows. *)
Definition ziplist_slab (sizes : list byte)
  (entries : list (list byte * ziplist_item)) (tail : list byte) : list byte :=
  sizes ++ le_bytes 2 (len entries)
  ++ flat_map ziplist_entry_bytes entries ++ tail.

(** A field and its value: two entries in a row. *)
Definition ziplist_pair_bytes
  (p : (list byte * ziplist_item) * (list byte * ziplist_item)) : list byte :=
  ziplist_entry_bytes (fst p) ++ ziplist_entry_bytes (snd p).

Definition ziplist_pair_ok
  (p : (list byte * ziplist_item) * (list byte * ziplist_item)) : Prop :=
  ziplist_entry_ok (fst p) /\ ziplist_entry_ok (snd p).

(** The entries of a ziplist that holds pairs. *)
Definition ziplist_pair_entries
  (pairs : list ((list byte * ziplist_item) * (list byte * ziplist_item)))
  : list (list byte * ziplist_item) :=
  flat_map (fun p => [fst p; snd p]) pairs.

(** The header of an item of a zipmap as [loadZipmapItemLength] reads it:
    the length [n] on one byte, or [253] and four bytes; the count [free] of
    the padding bytes, after a one-byte length only when [readFree]. *)
Definition zipmap_item_header (readFree : bool) (n free : Z) : list byte :=
  if n <? 253 then byte_of_Z n :: (if readFree then [byte_of_Z free] else [])
  else xfd :: rev (le_bytes 4 n) ++ [byte_of_Z free].

(** An item: the header, the bytes, the padding. *)
Definition zipmap_item_bytes (readFree : bool) (v pad : list byte) : list byte :=
  zipmap_item_header readFree (len v) (len pad) ++ v ++ pad.

(** An item [loadZipmapItem] reads back: padding after a one-byte length
    needs [readFree]. *)
Definition zipmap_item_ok (readFree : bool) (v pad : list byte) : Prop :=
  len v < 2 ^ 32 /\ len pad < 256 /\
  (readFree = false -> len v < 253 -> pad = []).

(** A pair of a zipmap: the field, the value and the padding of the value. *)
Definition zipmap_pair_bytes (p : list byte * list byte * list byte) : list byte :=
  let '(k, v, pad) := p in
  zipmap_item_bytes false k [] ++ zipmap_item_bytes true v pad.

Definition zipmap_pair_ok (p : list byte * list byte * list byte) : Prop :=
  let '(k, v, pad) := p in
  len k < 2 ^ 32 /\ len v < 2 ^ 32 /\ len pad < 256.

(** A node of a quicklist: a ziplist, given by its size fields, its
    entries and what follows them. *)
Definition quicklist_node : Type :=
  (list byte * list (list byte * ziplist_item) * list byte)%type.

Definition quicklist_node_entries (n : quicklist_node) : list (list byte * ziplist_item) :=
  snd (fst n).

Definition quicklist_node_slab (n : quicklist_node) : list byte :=
  ziplist_slab (fst (fst n)) (quicklist_node_entries n) (snd n).

Definition quicklist_node_bytes (n : quicklist_node) : list byte :=
  encode_string (quicklist_node_slab n).

Definition quicklist_node_ok (n : quicklist_node) : Prop :=
  List.length (fst (fst n)) = 8%nat /\
  len (quicklist_node_entries n) < 2 ^ 16 /\
  Forall ziplist_entry_ok (quicklist_node_entries n) /\
  len (quicklist_node_slab n) < 2 ^ 31.

(** The RPUSH that carries the entries of a node. *)
Definition quicklist_node_cmd {F : GoFloat} (key : list byte) (n : quicklist_node)
  : command :=
  {| cmd_name := "RPUSH";
     cmd_args :=
       ArgBytes key
       :: map (fun e => ArgBytes (ziplist_item_value (snd e)))
            (quicklist_node_entries n) |}.

(** An intset: the size of a member and the count of the members, on four
    bytes each, then the members. *)
Definition intset_slab (size : Z) (members : list Z) (tail : list byte) : list byte :=
  le_bytes 4 size ++ le_bytes 4 (len members)
  ++ flat_map (le_bytes (Z.to_nat size)) members ++ tail.

(** * Properties *)

(** ** Machine integers *)

Lemma u8_range (b : byte) : 0 <= u8 b < 256.
Proof.
  unfold u8. pose proof (Byte.to_N_bounded b). lia.
Qed.

Lemma len_nonneg {A : Type} (l : list A) : 0 <= len l.
Proof. unfold len. lia. Qed.

Lemma signed_id (w z : Z) :
  0 < w -> - 2 ^ (w - 1) <= z < 2 ^ (w - 1) -> signed w z = z.
Proof.
  intros Hw Hz. unfold signed.
  assert (E : 2 ^ w = 2 * 2 ^ (w - 1)).
  { replace w with (Z.succ (w - 1)) at 1 by lia. apply Z.pow_succ_r. lia. }
  rewrite Z.mod_small; lia.
Qed.

Lemma wrap64_id (z : Z) : - 2 ^ 63 <= z < 2 ^ 63 -> wrap64 z = z.
Proof. intros H. apply signed_id; simpl; lia. Qed.

Lemma wrap64_add_l (a b : Z) : wrap64 (wrap64 a + b) = wrap64 (a + b).
Proof.
  unfold wrap64, signed. f_equal.
  replace ((a + 2 ^ (64 - 1)) mod 2 ^ 64 - 2 ^ (64 - 1) + b + 2 ^ (64 - 1))
    with ((a + 2 ^ (64 - 1)) mod 2 ^ 64 + b) by lia.
  rewrite Zplus_mod_idemp_l. f_equal. lia.
Qed.

(** ** The byte cursor *)

Lemma Slice_inv (n : Z) (buf buf' : input) (bs : list byte) :
  Slice n buf = (Ok bs, buf') ->
  let hi := wrap64 (index buf + n) in
  0 <= index buf /\ index buf <= hi /\ hi <= len (data buf) /\
  buf' = set_index buf hi /\
  bs = firstn (Z.to_nat (hi - index buf)) (skipn (Z.to_nat (index buf)) (data buf)).
Proof.
  unfold Slice, go_slice. cbv zeta.
  destruct (wrap64 (index buf + n) >? len (data buf)) eqn:E1; [discriminate|].
  destruct (0 <=? index buf) eqn:E2; cbn [andb]; [|discriminate].
  destruct (index buf <=? wrap64 (index buf + n)) eqn:E3; cbn [andb]; [|discriminate].
  destruct (wrap64 (index buf + n) <=? len (data buf)) eqn:E4; [|discriminate].
  intros H. inversion H; subst. repeat split; lia.
Qed.

Lemma ReadByte_inv (buf buf' : input) (b : byte) :
  ReadByte buf = (Ok b, buf') ->
  0 <= index buf < len (data buf) /\
  nth_error (data buf) (Z.to_nat (index buf)) = Some b /\
  buf' = set_index buf (wrap64 (index buf + 1)).
Proof.
  unfold ReadByte, go_index.
  destruct (index buf >=? len (data buf)) eqn:E1; [discriminate|].
  destruct (0 <=? index buf) eqn:E2; [|discriminate].
  destruct (nth_error (data buf) (Z.to_nat (index buf))) eqn:E3; [|discriminate].
  intros H. inversion H; subst. repeat split; lia.
Qed.

Lemma Read_inv (b : list byte) (buf buf' : input) (n : Z) (out : list byte) :
  Read b buf = (Ok (n, out), buf') ->
  (len b = 0 /\ n = 0 /\ out = b /\ buf' = buf) \/
  (len b <> 0 /\ 0 <= index buf < len (data buf) /\
   n = Z.min (len b) (len (data buf) - index buf) /\
   out = firstn (Z.to_nat n) (skipn (Z.to_nat (index buf)) (data buf))
           ++ skipn (Z.to_nat n) b /\
   buf' = set_index buf (wrap64 (index buf + n))).
Proof.
  unfold Read, go_slice.
  destruct (len b =? 0) eqn:E0.
  { intros H. inversion H; subst. left. repeat split. lia. }
  destruct (index buf >=? len (data buf)) eqn:E1; [discriminate|].
  destruct (0 <=? index buf) eqn:E2; cbn [andb]; [|discriminate].
  destruct (index buf <=? len (data buf)) eqn:E3; cbn [andb]; [|discriminate].
  rewrite Z.leb_refl. intros H. right.
  assert (Hl : len (firstn (Z.to_nat (len (data buf) - index buf))
                      (skipn (Z.to_nat (index buf)) (data buf)))
               = len (data buf) - index buf).
  { unfold len. rewrite length_firstn, length_skipn. unfold len in *. lia. }
  assert (Hf : firstn (Z.to_nat (len (data buf) - index buf))
                 (skipn (Z.to_nat (index buf)) (data buf))
               = skipn (Z.to_nat (index buf)) (data buf)).
  { apply firstn_all2. rewrite length_skipn. unfold len. lia. }
  rewrite Hl, Hf in H. inversion H; subst. repeat split; lia.
Qed.

Lemma Seek_inv (offset whence : Z) (buf buf' : input) (abs : Z) :
  Seek offset whence buf = (Ok abs, buf') ->
  0 <= abs < 2 ^ 31 /\ buf' = set_index buf abs.
Proof.
  unfold Seek.
  destruct (if whence =? 0 then Some offset
            else if whence =? 1 then Some (wrap64 (index buf + offset))
            else if whence =? 2 then Some (wrap64 (len (data buf) + offset))
            else None) as [a|]; [|discriminate].
  destruct (a <? 0) eqn:E1; [discriminate|].
  destruct (a >=? 2 ^ 31) eqn:E2; [discriminate|].
  intros H. inversion H; subst. split; [lia|reflexivity].
Qed.

Lemma len_app {A : Type} (l1 l2 : list A) : len (l1 ++ l2) = len l1 + len l2.
Proof. unfold len. rewrite length_app. lia. Qed.

Lemma len_cons {A : Type} (a : A) (l : list A) : len (a :: l) = 1 + len l.
Proof. unfold len. cbn [List.length]. lia. Qed.

Lemma to_nat_len {A : Type} (l : list A) : Z.to_nat (len l) = List.length l.
Proof. unfold len. apply Nat2Z.id. Qed.

Lemma cursor_step (behind mid ahead : list byte) :
  {| data := behind ++ mid ++ ahead; index := len behind + len mid |}
  = cursor (behind ++ mid) ahead.
Proof. unfold cursor. rewrite len_app, app_assoc. reflexivity. Qed.

Lemma ReadByte_cursor (behind ahead : list byte) (b : byte) :
  len (behind ++ b :: ahead) < 2 ^ 63 ->
  ReadByte (cursor behind (b :: ahead)) = (Ok b, cursor (behind ++ [b]) ahead).
Proof.
  intros Hl. rewrite len_app, len_cons in Hl.
  pose proof (len_nonneg behind). pose proof (len_nonneg ahead).
  rewrite <- (cursor_step behind [b] ahead).
  unfold ReadByte, go_index, cursor, set_index. cbn [data index].
  rewrite len_app, len_cons.
  replace (len behind >=? len behind + (1 + len ahead)) with false by lia.
  replace (0 <=? len behind) with true by lia.
  rewrite to_nat_len, nth_error_app2, Nat.sub_diag by lia. cbn [nth_error].
  rewrite wrap64_id by lia. reflexivity.
Qed.

Lemma ReadByte_cursor_end (behind : list byte) :
  ReadByte (cursor behind []) = (Err EOF, cursor behind []).
Proof.
  unfold ReadByte, cursor. cbn [data index]. rewrite app_nil_r.
  replace (len behind >=? len behind) with true by lia. reflexivity.
Qed.

Lemma Slice_cursor (n : Z) (behind ahead : list byte) :
  0 <= n <= len ahead -> len (behind ++ ahead) < 2 ^ 63 ->
  Slice n (cursor behind ahead)
  = (Ok (firstn (Z.to_nat n) ahead),
     cursor (behind ++ firstn (Z.to_nat n) ahead) (skipn (Z.to_nat n) ahead)).
Proof.
  intros Hn Hl. rewrite len_app in Hl. pose proof (len_nonneg behind).
  unfold Slice, go_slice, cursor, set_index. cbn [data index].
  rewrite wrap64_id, len_app by lia.
  replace (len behind + n >? len behind + len ahead) with false by lia.
  replace ((0 <=? len behind) && (len behind <=? len behind + n)
           && (len behind + n <=? len behind + len ahead)) with true by lia.
  rewrite to_nat_len, skipn_app, Nat.sub_diag, skipn_all. cbn [skipn app].
  replace (len behind + n - len behind) with n by lia.
  f_equal. f_equal.
  - rewrite <- app_assoc, firstn_skipn. reflexivity.
  - rewrite len_app. f_equal. unfold len. rewrite length_firstn.
    unfold len in Hn. lia.
Qed.

Lemma Seek_cursor (k : Z) (behind ahead : list byte) :
  0 <= k <= len ahead -> len (behind ++ ahead) < 2 ^ 31 ->
  Seek k 1 (cursor behind ahead)
  = (Ok (len behind + k),
     cursor (behind ++ firstn (Z.to_nat k) ahead) (skipn (Z.to_nat k) ahead)).
Proof.
  intros Hk Hl. rewrite len_app in Hl. pose proof (len_nonneg behind).
  assert (2 ^ 31 < 2 ^ 63) by (vm_compute; reflexivity).
  unfold Seek, cursor, set_index. cbn [data index].
  change (1 =? 0) with false. change (1 =? 1) with true. cbv iota.
  rewrite wrap64_id by lia.
  replace (len behind + k <? 0) with false by lia.
  replace (len behind + k >=? 2 ^ 31) with false by lia.
  f_equal. f_equal.
  - rewrite <- app_assoc, firstn_skipn. reflexivity.
  - rewrite len_app. f_equal. unfold len. rewrite length_firstn.
    unfold len in Hk. lia.
Qed.

Lemma Read_cursor (b ahead behind : list byte) :
  len b <> 0 -> ahead <> [] -> len (behind ++ ahead) < 2 ^ 63 ->
  let n := Z.min (len b) (len ahead) in
  Read b (cursor behind ahead)
  = (Ok (n, firstn (Z.to_nat n) ahead ++ skipn (Z.to_nat n) b),
     cursor (behind ++ firstn (Z.to_nat n) ahead) (skipn (Z.to_nat n) ahead)).
Proof.
  intros Hb Ha Hl n. rewrite len_app in Hl. pose proof (len_nonneg behind).
  assert (0 < len ahead).
  { destruct ahead; [congruence|]. rewrite len_cons. pose proof (len_nonneg ahead). lia. }
  pose proof (len_nonneg b).
  unfold Read, go_slice, cursor, set_index. cbn [data index].
  replace (len b =? 0) with false by lia.
  rewrite len_app.
  replace (len behind >=? len behind + len ahead) with false by lia.
  replace ((0 <=? len behind) && (len behind <=? len behind + len ahead)
           && (len behind + len ahead <=? len behind + len ahead)) with true by lia.
  rewrite to_nat_len, skipn_app, Nat.sub_diag, skipn_all. cbn [skipn app].
  replace (len behind + len ahead - len behind) with (len ahead) by lia.
  rewrite to_nat_len, firstn_all. fold n.
  rewrite wrap64_id by lia.
  f_equal. f_equal.
  - rewrite <- app_assoc, firstn_skipn. reflexivity.
  - rewrite len_app. f_equal. unfold len. rewrite length_firstn.
    unfold len in n. lia.
Qed.

(** C9, as stated, fails for [Seek]: on a slab of one byte, [Seek(10, 0)]
    succeeds and leaves the index at 10, beyond the length. *)
Lemma Seek_past_end_counterexample :
  let buf := newInput [x00] in
  in_bounds buf /\
  Seek 10 0 buf = (Ok 10, set_index buf 10) /\
  ~ in_bounds (set_index buf 10).
Proof.
  unfold in_bounds. cbn. repeat split; lia.
Qed.

(** C9 (amended): from a cursor inside its slab, [Slice], [ReadByte] and
    [Read] leave the cursor inside the slab whenever they succeed, and a
    [Slice] that would exceed the length fails with EOF and leaves the index
    unchanged; [Seek], for a valid [whence], fails (leaving the index
    unchanged) exactly when the resolved position is negative or at least
    2^31, and otherwise sets the index to the resolved position, whatever the
    length of the slab. *)
Theorem cursor_bounds (buf : input) :
  in_bounds buf -> len (data buf) < 2 ^ 63 ->
  (forall n,
     (wrap64 (index buf + n) > len (data buf) -> Slice n buf = (Err EOF, buf)) /\
     (forall bs buf', Slice n buf = (Ok bs, buf') ->
        in_bounds buf' /\ data buf' = data buf)) /\
  (forall b buf', ReadByte buf = (Ok b, buf') ->
     in_bounds buf' /\ data buf' = data buf) /\
  (forall b n out buf', Read b buf = (Ok (n, out), buf') ->
     in_bounds buf' /\ data buf' = data buf) /\
  (forall offset whence, 0 <= whence <= 2 ->
     let abs := resolved_position buf offset whence in
     (abs < 0 \/ 2 ^ 31 <= abs -> exists e, Seek offset whence buf = (Err e, buf)) /\
     (0 <= abs < 2 ^ 31 -> Seek offset whence buf = (Ok abs, set_index buf abs))).
Proof.
  intros Hb Hl. unfold in_bounds in *. repeat split.
  - intros H. unfold Slice.
    destruct (wrap64 (index buf + n) >? len (data buf)) eqn:E; [reflexivity|lia].
  - apply Slice_inv in H. cbv zeta in H.
    destruct H as (H0 & H1 & H2 & -> & _). cbn. lia.
  - apply Slice_inv in H. cbv zeta in H.
    destruct H as (H0 & H1 & H2 & -> & _). cbn. lia.
  - apply Slice_inv in H. destruct H as (_ & _ & _ & -> & _). reflexivity.
  - apply ReadByte_inv in H. destruct H as (H0 & _ & ->). cbn.
    rewrite wrap64_id; lia.
  - apply ReadByte_inv in H. destruct H as (H0 & _ & ->). cbn.
    rewrite wrap64_id; lia.
  - apply ReadByte_inv in H. destruct H as (_ & _ & ->). reflexivity.
  - apply Read_inv in H.
    destruct H as [(_ & _ & _ & ->)|(_ & H0 & Hn & _ & ->)]; [lia|].
    pose proof (len_nonneg b). cbn. rewrite wrap64_id; lia.
  - apply Read_inv in H.
    destruct H as [(_ & _ & _ & ->)|(_ & H0 & Hn & _ & ->)]; [lia|].
    pose proof (len_nonneg b). cbn. rewrite wrap64_id; lia.
  - apply Read_inv in H.
    destruct H as [(_ & _ & _ & ->)|(_ & _ & _ & _ & ->)]; reflexivity.
  - intros Habs. unfold resolved_position in Habs. unfold Seek.
    assert (Hw : whence = 0 \/ whence = 1 \/ whence = 2) by lia.
    destruct Hw as [-> | [-> | ->]]; cbn [Z.eqb Pos.eqb] in *; cbv iota in *.
    + destruct (offset <? 0) eqn:E1; [eexists; reflexivity|].
      destruct (offset >=? 2 ^ 31) eqn:E2; [eexists; reflexivity|lia].
    + destruct (wrap64 (index buf + offset) <? 0) eqn:E1; [eexists; reflexivity|].
      destruct (wrap64 (index buf + offset) >=? 2 ^ 31) eqn:E2;
        [eexists; reflexivity|lia].
    + destruct (wrap64 (len (data buf) + offset) <? 0) eqn:E1; [eexists; reflexivity|].
      destruct (wrap64 (len (data buf) + offset) >=? 2 ^ 31) eqn:E2;
        [eexists; reflexivity|lia].
  - intros Habs. unfold resolved_position in *. unfold Seek.
    assert (Hw : whence = 0 \/ whence = 1 \/ whence = 2) by lia.
    destruct Hw as [-> | [-> | ->]]; cbn [Z.eqb Pos.eqb] in *; cbv iota in *.
    + replace (offset <? 0) with false by lia.
      replace (offset >=? 2 ^ 31) with false by lia. reflexivity.
    + replace (wrap64 (index buf + offset) <? 0) with false by lia.
      replace (wrap64 (index buf + offset) >=? 2 ^ 31) with false by lia.
      reflexivity.
    + replace (wrap64 (len (data buf) + offset) <? 0) with false by lia.
      replace (wrap64 (len (data buf) + offset) >=? 2 ^ 31) with false by lia.
      reflexivity.
Qed.

Lemma cursor_bounds_witness :
  let buf := {| data := [x01; x02; x03]; index := 1 |} in
  (in_bounds buf /\ len (data buf) < 2 ^ 63) /\
  (forall b buf', ReadByte buf = (Ok b, buf') ->
     in_bounds buf' /\ data buf' = data buf).
Proof.
  assert (Hb : in_bounds {| data := [x01; x02; x03]; index := 1 |}).
  { unfold in_bounds. cbn. lia. }
  assert (Hl : len (data {| data := [x01; x02; x03]; index := 1 |}) < 2 ^ 63).
  { cbn. lia. }
  split; [split; assumption|].
  exact (proj1 (proj2 (cursor_bounds Hb Hl))).
Defined.

(** ** Ziplist entries *)

Lemma ReadByte_error (buf buf' : input) (e : error) :
  ReadByte buf = (Err e, buf') -> e = EOF.
Proof.
  unfold ReadByte.
  destruct (index buf >=? len (data buf)); [congruence|].
  destruct (go_index (data buf) (index buf)); discriminate.
Qed.

Lemma Slice_error (n : Z) (buf buf' : input) (e : error) :
  Slice n buf = (Err e, buf') -> e = EOF.
Proof.
  unfold Slice.
  destruct (wrap64 (index buf + n) >? len (data buf)); [congruence|].
  destruct (go_slice (data buf) (index buf) (wrap64 (index buf + n))); discriminate.
Qed.

Lemma Read_error (b : list byte) (buf buf' : input) (e : error) :
  Read b buf = (Err e, buf') -> e = EOF.
Proof.
  unfold Read.
  destruct (len b =? 0); [discriminate|].
  destruct (index buf >=? len (data buf)); [congruence|].
  destruct (go_slice (data buf) (index buf) (len (data buf))); discriminate.
Qed.

Lemma no_header_error_ReadByte : no_header_error ReadByte.
Proof.
  intros buf h H. destruct (ReadByte buf) as [[b|e|] buf'] eqn:E; try discriminate.
  apply ReadByte_error in E. cbn in H. congruence.
Qed.

Lemma no_header_error_Slice (n : Z) : no_header_error (Slice n).
Proof.
  intros buf h H. destruct (Slice n buf) as [[b|e|] buf'] eqn:E; try discriminate.
  apply Slice_error in E. cbn in H. congruence.
Qed.

Lemma no_header_error_Read (b : list byte) : no_header_error (Read b).
Proof.
  intros buf h H. destruct (Read b buf) as [[r|e|] buf'] eqn:E; try discriminate.
  apply Read_error in E. cbn in H. congruence.
Qed.

Lemma no_header_error_ret {A : Type} (a : A) : no_header_error (ret a).
Proof. intros buf h H. discriminate. Qed.

Lemma no_header_error_bind {A B : Type} (m : M input A) (k : A -> M input B) :
  no_header_error m -> (forall a, no_header_error (k a)) ->
  no_header_error (bind m k).
Proof.
  intros Hm Hk buf h. unfold bind. specialize (Hm buf h).
  destruct (m buf) as [[a|e|] buf']; cbn in *.
  - apply Hk.
  - intros H. apply Hm. congruence.
  - discriminate.
Qed.

(** The parts of the switch that read the slab. *)
Ltac reads_only :=
  first [ apply no_header_error_ReadByte
        | apply no_header_error_Slice
        | apply no_header_error_Read
        | apply no_header_error_ret ].

(** Past the headers it rejects, the switch only fails at the end of the
    slab. *)
Lemma switch_accepts (header : byte) :
  rejected_ziplist_header (u8 header) = false ->
  no_header_error (loadZiplistEntry_switch header).
Proof.
  intros Hr. unfold loadZiplistEntry_switch.
  repeat match goal with
         | |- no_header_error (if ?c then _ else _) => destruct c eqn:?
         end;
    try (repeat (apply no_header_error_bind; [|intros]);
         try match goal with |- no_header_error (let '(_, _) := ?p in _) => destruct p end;
         reads_only; fail).
  exfalso. destruct header; vm_compute in *; congruence.
Qed.

Lemma switch_rejects (header : byte) :
  rejected_ziplist_header (u8 header) = true ->
  loadZiplistEntry_switch header = fail (ErrUnknownZiplistHeader (u8 header)).
Proof.
  destruct header; intros H; try (vm_compute in H; discriminate H); reflexivity.
Qed.

Lemma switch_immediate (header : byte) :
  0xf0 < u8 header -> u8 header <> 0xfe ->
  loadZiplistEntry_switch header = ret (FormatInt (Z.land (u8 header) 0x0f - 1)).
Proof.
  destruct header; intros H1 H2;
    try (exfalso; vm_compute in H1; discriminate H1);
    try (exfalso; apply H2; reflexivity);
    reflexivity.
Qed.

(** The prev-len field and the header byte taken, the entry is decoded by
    the switch, with the cursor on the payload. *)
Lemma loadZiplistEntry_header (behind f rest : list byte) (header : byte) :
  prevlen_field f -> len (behind ++ f ++ header :: rest) < 2 ^ 31 ->
  loadZiplistEntry (cursor behind (f ++ header :: rest))
  = loadZiplistEntry_switch header (cursor (behind ++ f ++ [header]) rest).
Proof.
  intros Hf Hl.
  assert (H63 : 2 ^ 31 < 2 ^ 63) by (vm_compute; reflexivity).
  unfold loadZiplistEntry, bind.
  destruct Hf as [(p & -> & Hp) | (a & b & c & d & ->)].
  - cbn [app] in *. rewrite ReadByte_cursor by lia.
    replace (u8 p =? ZipBigPrevLen) with false by lia. cbn [ret].
    rewrite ReadByte_cursor.
    + rewrite <- app_assoc. reflexivity.
    + rewrite <- app_assoc. cbn [app]. lia.
  - cbn [app] in *. rewrite ReadByte_cursor by lia.
    change (u8 xfe =? ZipBigPrevLen) with true. cbv iota. unfold discard.
    rewrite Seek_cursor.
    + change (Z.to_nat 4) with 4%nat. cbn [firstn skipn].
      rewrite ReadByte_cursor.
      * repeat rewrite <- app_assoc. reflexivity.
      * repeat rewrite <- app_assoc. cbn [app]. lia.
    + repeat rewrite len_cons. pose proof (len_nonneg rest). lia.
    + rewrite <- app_assoc. cbn [app]. lia.
Qed.

(** C5, as stated, fails for the header byte [0xFF]: it is none of the
    specified patterns, and the entry decodes to "14". *)
Lemma ziplist_header_ff_counterexample :
  specified_ziplist_header (u8 xff) = false /\
  loadZiplistEntry (newInput [x00; xff])
  = (Ok (FormatInt 14), {| data := [x00; xff]; index := 2 |}).
Proof. split; reflexivity. Qed.

(** C5 (amended): for an entry whose prev-len field and header byte are in
    the slab, [loadZiplistEntry] returns the unknown-header error, carrying
    the header byte, exactly when the header byte is none of the specified
    patterns and is not [0xFF], that is for [0xC1]-[0xCF], [0xD1]-[0xDF] and
    [0xE1]-[0xEF]; a header byte [1111xxxx] other than [0xF0] and [0xFE], so
    also [0xFF], decodes as the 4-bit immediate [(header & 0x0F) - 1]. *)
Theorem ziplist_rejected_headers (behind f rest : list byte) (header : byte) :
  prevlen_field f -> len (behind ++ f ++ header :: rest) < 2 ^ 31 ->
  let buf := cursor behind (f ++ header :: rest) in
  rejected_ziplist_header (u8 header)
  = negb (specified_ziplist_header (u8 header)) && negb (u8 header =? 0xff) /\
  ((exists h, fst (loadZiplistEntry buf) = Err (ErrUnknownZiplistHeader h))
   <-> rejected_ziplist_header (u8 header) = true) /\
  (rejected_ziplist_header (u8 header) = true ->
   fst (loadZiplistEntry buf) = Err (ErrUnknownZiplistHeader (u8 header))) /\
  (0xf0 < u8 header -> u8 header <> 0xfe ->
   fst (loadZiplistEntry buf) = Ok (FormatInt (Z.land (u8 header) 0x0f - 1))).
Proof.
  intros Hf Hl buf. unfold buf.
  rewrite (@loadZiplistEntry_header behind f rest header Hf Hl).
  split; [destruct header; reflexivity|].
  split; [split|split].
  - intros [h Hh].
    destruct (rejected_ziplist_header (u8 header)) eqn:E; [reflexivity|].
    exfalso. exact (@switch_accepts header E _ _ Hh).
  - intros Hr. rewrite (switch_rejects _ Hr). eexists. reflexivity.
  - intros Hr. rewrite (switch_rejects _ Hr). reflexivity.
  - intros H1 H2. rewrite (switch_immediate _ H1 H2). reflexivity.
Qed.

Lemma ziplist_rejected_headers_witness :
  (prevlen_field [x00] /\ len ([] ++ [x00] ++ xc1 :: []) < 2 ^ 31) /\
  fst (loadZiplistEntry (cursor [] ([x00] ++ xc1 :: [])))
  = Err (ErrUnknownZiplistHeader 193).
Proof.
  assert (Hf : prevlen_field [x00]).
  { left. exists x00. split; [reflexivity|]. vm_compute. discriminate. }
  assert (Hl : len ([] ++ [x00] ++ xc1 :: []) < 2 ^ 31).
  { vm_compute. reflexivity. }
  split; [split; assumption|].
  exact (proj1 (proj2 (proj2 (@ziplist_rejected_headers [] [x00] [] xc1 Hf Hl))) eq_refl).
Defined.

(** C10: a ziplist entry with header [0xF0] (24-bit integer) whose slab
    stops after one or two of the three payload bytes decodes to the value
    of the bytes present, the missing high bytes being zero; it fails, with
    EOF, only when no payload byte is left. *)
Theorem int24_partial_payload (behind f payload : list byte) :
  prevlen_field f -> len (behind ++ f ++ xf0 :: payload) < 2 ^ 31 ->
  let buf := cursor behind (f ++ xf0 :: payload) in
  (forall b0, payload = [b0] ->
     fst (loadZiplistEntry buf) = Ok (FormatInt (u8 b0))) /\
  (forall b0 b1, payload = [b0; b1] ->
     fst (loadZiplistEntry buf) = Ok (FormatInt (u8 b0 + 256 * u8 b1))) /\
  (payload <> [] -> exists v, fst (loadZiplistEntry buf) = Ok v) /\
  (payload = [] -> fst (loadZiplistEntry buf) = Err EOF).
Proof.
  intros Hf Hl buf. unfold buf.
  rewrite (@loadZiplistEntry_header behind f payload xf0 Hf Hl).
  assert (H63 : 2 ^ 31 < 2 ^ 63) by (vm_compute; reflexivity).
  assert (Hl' : len ((behind ++ f ++ [xf0]) ++ payload) < 2 ^ 63).
  { repeat rewrite <- app_assoc. cbn [app]. lia. }
  change (loadZiplistEntry_switch xf0)
    with ('(_, tail) <- Read [x00; x00; x00] ;;
          ret (S := input)
            (FormatInt (Z.shiftr (int32 (LittleEndian.Uint32 (x00 :: tail))) 8))).
  unfold bind.
  assert (Hb : len [x00; x00; x00] <> 0) by (vm_compute; discriminate).
  repeat split.
  - intros b0 ->. rewrite Read_cursor by (assumption || discriminate).
    cbn [fst ret]. do 2 f_equal.
    change (Z.min (len [x00; x00; x00]) (len [b0])) with 1.
    change (Z.to_nat 1) with 1%nat. cbn [firstn skipn app].
    unfold LittleEndian.Uint32. cbn [firstn le_value].
    change (u8 x00) with 0. pose proof (u8_range b0).
    unfold int32. rewrite signed_id by lia.
    rewrite Z.shiftr_div_pow2 by lia. change (2 ^ 8) with 256.
    replace (0 + 256 * (u8 b0 + 256 * (0 + 256 * (0 + 256 * 0))))
      with (u8 b0 * 256) by lia.
    apply Z.div_mul. lia.
  - intros b0 b1 ->. rewrite Read_cursor by (assumption || discriminate).
    cbn [fst ret]. do 2 f_equal.
    change (Z.min (len [x00; x00; x00]) (len [b0; b1])) with 2.
    change (Z.to_nat 2) with 2%nat. cbn [firstn skipn app].
    unfold LittleEndian.Uint32. cbn [firstn le_value].
    change (u8 x00) with 0. pose proof (u8_range b0). pose proof (u8_range b1).
    unfold int32. rewrite signed_id by lia.
    rewrite Z.shiftr_div_pow2 by lia. change (2 ^ 8) with 256.
    replace (0 + 256 * (u8 b0 + 256 * (u8 b1 + 256 * (0 + 256 * 0))))
      with ((u8 b0 + 256 * u8 b1) * 256) by lia.
    apply Z.div_mul. lia.
  - intros Hp. rewrite Read_cursor by assumption. eexists. reflexivity.
  - intros ->. unfold Read, cursor. cbn [data index].
    change (len [x00; x00; x00] =? 0) with false. cbv iota.
    rewrite app_nil_r.
    replace (len (behind ++ f ++ [xf0]) >=? len (behind ++ f ++ [xf0]))
      with true by lia.
    reflexivity.
Qed.

Lemma int24_partial_payload_witness :
  (prevlen_field [x00] /\ len ([] ++ [x00] ++ xf0 :: [x05; x01]) < 2 ^ 31) /\
  fst (loadZiplistEntry (cursor [] ([x00] ++ xf0 :: [x05; x01])))
  = Ok (FormatInt 261).
Proof.
  assert (Hf : prevlen_field [x00]).
  { left. exists x00. split; [reflexivity|]. vm_compute. discriminate. }
  assert (Hl : len ([] ++ [x00] ++ xf0 :: [x05; x01]) < 2 ^ 31).
  { vm_compute. reflexivity. }
  split; [split; assumption|].
  exact (proj1 (proj2 (@int24_partial_payload [] [x00] [x05; x01] Hf Hl)) x05 x01 eq_refl).
Defined.

(** ** The walk over a zipmap ends *)

Lemma le_value_range (bs : list byte) : 0 <= le_value bs < 256 ^ len bs.
Proof.
  induction bs as [|b bs IH].
  - cbn. lia.
  - rewrite len_cons. cbn [le_value]. pose proof (u8_range b).
    pose proof (len_nonneg bs).
    replace (1 + len bs) with (Z.succ (len bs)) by lia.
    rewrite Z.pow_succ_r by lia. lia.
Qed.

Lemma Uint32_range (s : list byte) : 0 <= BigEndian.Uint32 s < 2 ^ 32.
Proof.
  unfold BigEndian.Uint32. pose proof (le_value_range (rev (firstn 4 s))) as H.
  assert (Hl : len (rev (firstn 4 s)) <= 4).
  { unfold len. rewrite length_rev, length_firstn. lia. }
  pose proof (len_nonneg (rev (firstn 4 s))).
  assert (256 ^ len (rev (firstn 4 s)) <= 256 ^ 4)
    by (apply Z.pow_le_mono_r; lia).
  change (256 ^ 4) with (2 ^ 32) in *. lia.
Qed.

Lemma loadZipmapItemLength_progress (readFree : bool) (buf buf' : input)
  (strLen free : Z) :
  loadZipmapItemLength readFree buf = (Ok (strLen, free), buf') ->
  len (data buf) < 2 ^ 62 ->
  0 <= index buf < len (data buf) /\
  data buf' = data buf /\
  index buf < index buf' <= len (data buf) /\
  (strLen = -1 \/ 0 <= strLen < 2 ^ 32) /\
  0 <= free < 256.
Proof.
  intros H Hl. unfold loadZipmapItemLength, bind in H.
  destruct (ReadByte buf) as [[b|e|] b1] eqn:E1; try discriminate H.
  apply ReadByte_inv in E1. destruct E1 as (Hi & _ & ->).
  rewrite wrap64_id in H by lia.
  destruct (u8 b =? 253).
  { destruct (Slice 5 (set_index buf (index buf + 1))) as [[s|e|] b2] eqn:E2;
      try discriminate H.
    apply Slice_inv in E2. cbv zeta in E2. cbn [index data set_index] in E2.
    destruct E2 as (_ & H1 & H2 & -> & _).
    unfold ret in H. inversion H; subst. cbn [data index set_index].
    pose proof (Uint32_range s). pose proof (u8_range (nth 4 s x00)).
    repeat split; try lia. }
  destruct (u8 b =? 254); [discriminate H|].
  destruct (u8 b =? 255).
  { unfold ret in H. inversion H; subst. cbn [data index set_index].
    repeat split; try lia. }
  pose proof (u8_range b).
  destruct readFree.
  - destruct (ReadByte (set_index buf (index buf + 1))) as [[f|e|] b2] eqn:E2;
      try discriminate H.
    apply ReadByte_inv in E2. cbn [index data set_index] in E2.
    destruct E2 as (Hi2 & _ & ->).
    rewrite wrap64_id in H by lia.
    unfold ret in H. inversion H; subst. cbn [data index set_index].
    pose proof (u8_range f). repeat split; try lia.
  - unfold ret in H. inversion H; subst. cbn [data index set_index].
    repeat split; try lia.
Qed.

Lemma countZipmapItems_body_progress (n n' : Z) (buf buf' : input) :
  countZipmapItems_body n buf = (Ok (inl n'), buf') ->
  len (data buf) < 2 ^ 62 ->
  0 <= index buf < len (data buf) /\
  data buf' = data buf /\
  index buf < index buf'.
Proof.
  intros H Hl. unfold countZipmapItems_body, bind in H.
  destruct (loadZipmapItemLength (negb (Z.rem n 2 =? 0)) buf)
    as [[[strLen free]|e|] b1] eqn:E1; try discriminate H.
  apply loadZipmapItemLength_progress in E1; [|exact Hl].
  destruct E1 as (Hi & Hd & Hi1 & Hs & Hf).
  destruct (strLen =? -1) eqn:Es; [discriminate H|].
  assert (Hs' : 0 <= strLen < 2 ^ 32) by lia.
  assert (H32 : 2 ^ 32 < 2 ^ 62) by (vm_compute; reflexivity).
  assert (H62 : 2 * 2 ^ 62 = 2 ^ 63) by (vm_compute; reflexivity).
  destruct (Seek (wrap64 (strLen + free)) 1 b1) as [[abs|e|] b2] eqn:E2;
    try discriminate H.
  unfold ret in H. inversion H; subst.
  unfold Seek in E2. cbn [Z.eqb Pos.eqb] in E2. cbv iota in E2.
  rewrite (@wrap64_id (strLen + free)) in E2 by lia.
  rewrite wrap64_id in E2 by lia.
  destruct (index b1 + (strLen + free) <? 0); [discriminate E2|].
  destruct (index b1 + (strLen + free) >=? 2 ^ 31); [discriminate E2|].
  inversion E2; subst. cbn [data index set_index].
  repeat split; try lia. exact Hd.
Qed.

Lemma countZipmapItems_loop_fuel (fuel : nat) :
  forall (n : Z) (buf : input),
    len (data buf) < 2 ^ 62 ->
    (Z.to_nat (len (data buf) - index buf) < fuel)%nat ->
    countZipmapItems_loop fuel n buf <> None.
Proof.
  induction fuel as [|fuel IH]; intros n buf Hl Hf; [lia|].
  cbn [countZipmapItems_loop].
  destruct (countZipmapItems_body n buf) as [[[n'|[]]|e|] buf'] eqn:E;
    try discriminate.
  apply countZipmapItems_body_progress in E; [|exact Hl].
  destruct E as (Hi & Hd & Hi'). apply IH; rewrite Hd; [exact Hl|lia].
Qed.

(** [countZipmapItems] returns what the walk returns: on a slab shorter
    than 2^62 bytes the bound on the turns is never reached. *)
Lemma countZipmapItems_total (buf : input) :
  len (data buf) < 2 ^ 62 ->
  countZipmapItems_loop (S (Z.to_nat (len (data buf) - index buf))) 0 buf
  = Some (countZipmapItems buf).
Proof.
  intros Hl. unfold countZipmapItems.
  destruct (countZipmapItems_loop (S (Z.to_nat (len (data buf) - index buf))) 0 buf)
    eqn:E; [reflexivity|].
  exfalso. revert E. apply countZipmapItems_loop_fuel; [exact Hl|lia].
Qed.

(** ** The stream reader *)

Lemma lor_shiftl_8 (x y : Z) :
  0 <= y < 256 -> Z.lor (Z.shiftl x 8) y = x * 256 + y.
Proof.
  intros Hy.
  assert (H0 : Z.land (Z.shiftl x 8) y = 0).
  { apply Z.bits_inj'. intros n Hn. rewrite Z.land_spec, Z.bits_0.
    destruct (Z.ltb_spec n 8).
    - rewrite Z.shiftl_spec_low by lia. reflexivity.
    - replace y with (y mod 2 ^ 8) by (apply Z.mod_small; simpl; lia).
      rewrite Z.mod_pow2_bits_high by lia. apply andb_false_r. }
  pose proof (Z.add_lor_land (Z.shiftl x 8) y) as H. rewrite H0 in H.
  rewrite (Z.shiftl_mul_pow2 x 8) in * by lia. change (2 ^ 8) with 256 in *. lia.
Qed.

Lemma typeLen_cases (b : byte) :
  let t := Z.shiftr (Z.land (u8 b) 0xc0) 6 in
  (u8 b < 0x40 /\ t = 0) \/ (0x40 <= u8 b < 0x80 /\ t = 1) \/
  (0x80 <= u8 b < 0xc0 /\ t = 2) \/ (0xc0 <= u8 b /\ t = 3).
Proof. destruct b; cbn; lia. Qed.

Lemma low6_mod (b : byte) : Z.land (u8 b) 0x3f = u8 b mod 64.
Proof. destruct b; reflexivity. Qed.

Section Properties.

Context {F : GoFloat} {L : Lzf}.

Lemma advance_advance (j k : nat) (r : rdb) :
  advance k (advance j r) = advance (j + k) r.
Proof.
  unfold advance. cbn [rdb_buf rdb_conn rdb_i rdb_n].
  rewrite skipn_skipn, wrap64_add_l. f_equal.
  - f_equal. lia.
  - f_equal. lia.
Qed.

Lemma loadByte_cons (r : rdb) (b : byte) (rest : list byte) :
  rdb_buf r = b :: rest -> loadByte r = (Ok b, advance 1 r).
Proof.
  intros H. unfold loadByte, bind, buf_ReadByte, add_i, ret, advance, set_buf.
  rewrite H. reflexivity.
Qed.

Lemma loadByte_nil (r : rdb) :
  rdb_buf r = [] -> loadByte r = (Err EOF, r).
Proof.
  intros H. unfold loadByte, bind, buf_ReadByte. rewrite H. reflexivity.
Qed.

Lemma io_ReadFull_ok (k : nat) (r : rdb) :
  (k <= List.length (rdb_buf r))%nat ->
  io_ReadFull (Z.of_nat k) r
  = (Ok (firstn k (rdb_buf r), Z.of_nat k, None), set_buf r (skipn k (rdb_buf r))).
Proof.
  intros H. unfold io_ReadFull, len.
  destruct (Z.leb_spec (Z.of_nat k) (Z.of_nat (List.length (rdb_buf r)))); [|lia].
  rewrite Nat2Z.id. reflexivity.
Qed.

Ltac loadLen_first_byte Hbuf :=
  unfold loadLen, bind; rewrite (loadByte_cons _ Hbuf); rewrite low6_mod;
  cbv zeta; unfold TypeEncVal, Type6Bit, Type14Bit, Type32Bit, Type64Bit.

Lemma loadLen_6bit (r : rdb) (b : byte) (rest : list byte) :
  rdb_buf r = b :: rest -> u8 b < 0x40 ->
  loadLen r = (Ok (u8 b mod 64, false), advance 1 r).
Proof.
  intros Hbuf Hb. loadLen_first_byte Hbuf.
  destruct (typeLen_cases b) as [[_ ->]|[[? _]|[[? _]|[? _]]]]; try lia.
  reflexivity.
Qed.

Lemma loadLen_14bit (r : rdb) (b nb : byte) (rest : list byte) :
  rdb_buf r = b :: nb :: rest -> 0x40 <= u8 b < 0x80 ->
  loadLen r = (Ok (u8 b mod 64 * 256 + u8 nb, false), advance 2 r).
Proof.
  intros Hbuf Hb. loadLen_first_byte Hbuf.
  destruct (typeLen_cases b) as [[? _]|[[_ ->]|[[? _]|[? _]]]]; try lia.
  cbn [Z.eqb Pos.eqb orb].
  assert (Hb1 : rdb_buf (advance 1 r) = nb :: rest).
  { unfold advance. cbn [rdb_buf]. rewrite Hbuf. reflexivity. }
  rewrite (loadByte_cons _ Hb1), advance_advance. unfold ret.
  rewrite lor_shiftl_8 by apply u8_range. reflexivity.
Qed.

Lemma loadLen_32bit (r : rdb) (b b3 b2 b1 b0 : byte) (rest : list byte) :
  rdb_buf r = b :: b3 :: b2 :: b1 :: b0 :: rest -> u8 b = 0x80 ->
  loadLen r
  = (Ok (u8 b3 * 2 ^ 24 + u8 b2 * 2 ^ 16 + u8 b1 * 2 ^ 8 + u8 b0, false),
     advance 5 r).
Proof.
  intros Hbuf Hb. loadLen_first_byte Hbuf.
  destruct (typeLen_cases b) as [[? _]|[[? _]|[[_ ->]|[? _]]]]; try lia.
  cbn [Z.eqb Pos.eqb orb]. rewrite Hb. cbn [Z.eqb Pos.eqb].
  change 4 with (Z.of_nat 4).
  rewrite io_ReadFull_ok
    by (unfold advance; cbn [rdb_buf]; rewrite Hbuf; cbn; lia).
  unfold add_i, ret, advance, set_buf.
  cbn [rdb_buf rdb_conn rdb_i rdb_n]. rewrite Hbuf. cbn [firstn skipn].
  rewrite wrap64_add_l. unfold BigEndian.Uint32.
  cbn [firstn rev app le_value].
  f_equal; [f_equal; f_equal; lia | f_equal; f_equal; lia].
Qed.

Lemma loadLen_64bit (r : rdb) (b b7 b6 b5 b4 b3 b2 b1 b0 : byte)
  (rest : list byte) :
  rdb_buf r = b :: b7 :: b6 :: b5 :: b4 :: b3 :: b2 :: b1 :: b0 :: rest ->
  u8 b = 0x81 ->
  loadLen r
  = (Ok (u8 b7 * 2 ^ 56 + u8 b6 * 2 ^ 48 + u8 b5 * 2 ^ 40 + u8 b4 * 2 ^ 32
         + u8 b3 * 2 ^ 24 + u8 b2 * 2 ^ 16 + u8 b1 * 2 ^ 8 + u8 b0, false),
     advance 9 r).
Proof.
  intros Hbuf Hb. loadLen_first_byte Hbuf.
  destruct (typeLen_cases b) as [[? _]|[[? _]|[[_ ->]|[? _]]]]; try lia.
  cbn [Z.eqb Pos.eqb orb]. rewrite Hb. cbn [Z.eqb Pos.eqb].
  change 8 with (Z.of_nat 8).
  rewrite io_ReadFull_ok
    by (unfold advance; cbn [rdb_buf]; rewrite Hbuf; cbn; lia).
  unfold add_i, ret, advance, set_buf.
  cbn [rdb_buf rdb_conn rdb_i rdb_n]. rewrite Hbuf. cbn [firstn skipn].
  rewrite wrap64_add_l. unfold BigEndian.Uint64.
  cbn [firstn rev app le_value].
  f_equal; [f_equal; f_equal; lia | f_equal; f_equal; lia].
Qed.

Lemma loadLen_encoding (r : rdb) (b : byte) (rest : list byte) :
  rdb_buf r = b :: rest -> 0xc0 <= u8 b ->
  loadLen r = (Ok (u8 b mod 64, true), advance 1 r).
Proof.
  intros Hbuf Hb. loadLen_first_byte Hbuf.
  destruct (typeLen_cases b) as [[? _]|[[? _]|[[? _]|[_ ->]]]]; try lia.
  reflexivity.
Qed.

Lemma loadLen_unknown (r : rdb) (b : byte) (rest : list byte) :
  rdb_buf r = b :: rest ->
  (exists t, fst (loadLen r) = Err (ErrUnknownLenEncoding t))
  <-> 0x80 <= u8 b < 0xc0 /\ u8 b <> 0x80 /\ u8 b <> 0x81.
Proof.
  intros Hbuf. loadLen_first_byte Hbuf.
  pose proof (typeLen_cases b) as Ht. cbv zeta in Ht. split.
  - intros [t Ht'].
    destruct Ht as [[? Et]|[[? Et]|[[? Et]|[? Et]]]]; rewrite Et in Ht';
      cbn [Z.eqb Pos.eqb orb] in Ht'; try discriminate Ht'.
    + exfalso.
      destruct (loadByte (advance 1 r)) as [[nb|e|] r'] eqn:E; try discriminate Ht'.
      unfold loadByte, bind, buf_ReadByte in E.
      destruct (rdb_buf (advance 1 r)); [|discriminate E].
      inversion E; subst. discriminate Ht'.
    + split; [lia|]. split; intros Hb; rewrite Hb in Ht';
        cbn [Z.eqb Pos.eqb] in Ht'; unfold io_ReadFull in Ht'.
      * destruct (4 <=? len (rdb_buf (advance 1 r))); [discriminate Ht'|].
        destruct (len (rdb_buf (advance 1 r)) =? 0); discriminate Ht'.
      * destruct (8 <=? len (rdb_buf (advance 1 r))); [discriminate Ht'|].
        destruct (len (rdb_buf (advance 1 r)) =? 0); discriminate Ht'.
  - intros (Hb1 & Hb2 & Hb3).
    destruct Ht as [[? _]|[[? _]|[[_ ->]|[? _]]]]; try lia.
    cbn [Z.eqb Pos.eqb orb].
    replace (u8 b =? 128) with false by lia.
    replace (u8 b =? 129) with false by lia.
    eexists. reflexivity.
Qed.

(** C6: [loadLen] on a stream that starts with the byte [b].  [00xxxxxx]
    gives the low 6 bits as a length; [01xxxxxx] and one more byte give a
    14-bit big-endian length; [0x80] and four more bytes give a 32-bit
    big-endian length; [0x81] and eight more bytes give a 64-bit big-endian
    length; [11xxxxxx] gives the low 6 bits with the encoding flag set; the
    unknown-length-encoding error is returned exactly for [10xxxxxx] other
    than [0x80] and [0x81]. *)
Theorem loadLen_decodes (r : rdb) (b : byte) (rest : list byte) :
  rdb_buf r = b :: rest ->
  (u8 b < 0x40 ->
   loadLen r = (Ok (u8 b mod 64, false), advance 1 r)) /\
  (0x40 <= u8 b < 0x80 -> forall nb rest', rest = nb :: rest' ->
   loadLen r = (Ok (u8 b mod 64 * 256 + u8 nb, false), advance 2 r)) /\
  (u8 b = 0x80 -> forall b3 b2 b1 b0 rest', rest = b3 :: b2 :: b1 :: b0 :: rest' ->
   loadLen r
   = (Ok (u8 b3 * 2 ^ 24 + u8 b2 * 2 ^ 16 + u8 b1 * 2 ^ 8 + u8 b0, false),
      advance 5 r)) /\
  (u8 b = 0x81 -> forall b7 b6 b5 b4 b3 b2 b1 b0 rest',
   rest = b7 :: b6 :: b5 :: b4 :: b3 :: b2 :: b1 :: b0 :: rest' ->
   loadLen r
   = (Ok (u8 b7 * 2 ^ 56 + u8 b6 * 2 ^ 48 + u8 b5 * 2 ^ 40 + u8 b4 * 2 ^ 32
          + u8 b3 * 2 ^ 24 + u8 b2 * 2 ^ 16 + u8 b1 * 2 ^ 8 + u8 b0, false),
      advance 9 r)) /\
  (0xc0 <= u8 b ->
   loadLen r = (Ok (u8 b mod 64, true), advance 1 r)) /\
  ((exists t, fst (loadLen r) = Err (ErrUnknownLenEncoding t))
   <-> 0x80 <= u8 b < 0xc0 /\ u8 b <> 0x80 /\ u8 b <> 0x81).
Proof.
  intros Hbuf. refine (conj _ (conj _ (conj _ (conj _ (conj _ _))))).
  - intros Hb. exact (loadLen_6bit r Hbuf Hb).
  - intros Hb nb rest' ->. exact (loadLen_14bit r Hbuf Hb).
  - intros Hb b3 b2 b1 b0 rest' ->. exact (loadLen_32bit r Hbuf Hb).
  - intros Hb b7 b6 b5 b4 b3 b2 b1 b0 rest' ->. exact (loadLen_64bit r Hbuf Hb).
  - intros Hb. exact (loadLen_encoding r Hbuf Hb).
  - exact (loadLen_unknown r Hbuf).
Qed.

(** C7: the score of a member of a sorted set.  For type 3 (zset) it is read
    by [loadFloat]: one byte [b], then negative infinity for [0xFF], positive
    infinity for [0xFE], NaN for [0xFD], and otherwise the next [b] bytes
    parsed as an ASCII float; for type 5 (zset2) it is read by
    [loadBinaryFloat]: exactly 8 bytes, whose little-endian value gives the
    bits of the float. *)
Theorem score_decoders (r : rdb) :
  loadZSet_score x03 = loadFloat /\
  loadZSet_score x05 = loadBinaryFloat /\
  (forall b rest, rdb_buf r = b :: rest ->
     (u8 b = 0xff -> loadFloat r = (Ok NegInf, advance 1 r)) /\
     (u8 b = 0xfe -> loadFloat r = (Ok PosInf, advance 1 r)) /\
     (u8 b = 0xfd -> loadFloat r = (Ok Nan, advance 1 r)) /\
     (u8 b < 0xfd -> (Z.to_nat (u8 b) <= List.length rest)%nat ->
      loadFloat r = (ParseFloat (firstn (Z.to_nat (u8 b)) rest),
                     advance (1 + Z.to_nat (u8 b)) r))) /\
  (forall b0 b1 b2 b3 b4 b5 b6 b7 rest,
     rdb_buf r = b0 :: b1 :: b2 :: b3 :: b4 :: b5 :: b6 :: b7 :: rest ->
     loadBinaryFloat r
     = (Ok (Float64frombits
              (u8 b0 + u8 b1 * 2 ^ 8 + u8 b2 * 2 ^ 16 + u8 b3 * 2 ^ 24
               + u8 b4 * 2 ^ 32 + u8 b5 * 2 ^ 40 + u8 b6 * 2 ^ 48
               + u8 b7 * 2 ^ 56)),
        advance 8 r)).
Proof.
  refine (conj eq_refl (conj eq_refl (conj _ _))).
  - intros b rest Hbuf. unfold loadFloat, bind.
    rewrite (loadByte_cons r Hbuf).
    refine (conj _ (conj _ (conj _ _))).
    + intros ->. reflexivity.
    + intros ->. reflexivity.
    + intros ->. reflexivity.
    + intros Hb Hlen. pose proof (u8_range b).
      replace (u8 b =? 255) with false by lia.
      replace (u8 b =? 254) with false by lia.
      replace (u8 b =? 253) with false by lia.
      rewrite <- (Z2Nat.id (u8 b)) at 1 by lia.
      rewrite io_ReadFull_ok
        by (unfold advance; cbn [rdb_buf]; rewrite Hbuf; cbn [skipn]; exact Hlen).
      unfold add_i, set_buf, advance. cbn [rdb_buf rdb_conn rdb_i rdb_n].
      rewrite Hbuf. cbn [skipn]. rewrite wrap64_add_l.
      replace (rdb_i r + Z.of_nat 1 + Z.of_nat (Z.to_nat (u8 b)))
        with (rdb_i r + Z.of_nat (1 + Z.to_nat (u8 b))) by lia.
      destruct (ParseFloat (firstn (Z.to_nat (u8 b)) rest)); reflexivity.
  - intros b0 b1 b2 b3 b4 b5 b6 b7 rest Hbuf. unfold loadBinaryFloat, bind.
    change 8 with (Z.of_nat 8).
    rewrite io_ReadFull_ok by (rewrite Hbuf; cbn; lia).
    unfold add_i, ret, set_buf, advance. cbn [rdb_buf rdb_conn rdb_i rdb_n].
    rewrite Hbuf. cbn [firstn skipn]. unfold LittleEndian.Uint64.
    cbn [firstn le_value]. do 3 f_equal. lia.
Qed.

(** *** Strings *)

(** A string with a 6-bit length prefix is the bytes that follow. *)
Lemma loadString_raw (r : rdb) (b : byte) (rest : list byte) :
  rdb_buf r = b :: rest -> u8 b < 0x40 ->
  (Z.to_nat (u8 b) <= List.length rest)%nat ->
  loadString r = (Ok (firstn (Z.to_nat (u8 b)) rest), advance (1 + Z.to_nat (u8 b)) r).
Proof.
  intros H Hb Hlen. pose proof (u8_range b).
  unfold loadString, bind. rewrite (loadLen_6bit r H Hb).
  rewrite Z.mod_small by lia.
  rewrite <- (Z2Nat.id (u8 b)) at 1 by lia.
  rewrite io_ReadFull_ok
    by (unfold advance; cbn [rdb_buf]; rewrite H; cbn [skipn]; exact Hlen).
  unfold add_i, ret, set_buf, advance. cbn [rdb_buf rdb_conn rdb_i rdb_n].
  rewrite H. cbn [skipn]. rewrite wrap64_add_l.
  do 3 f_equal. lia.
Qed.

(** The integer encodings of a string give the decimal spelling of the
    bytes read as an unsigned little-endian number. *)
Lemma loadString_int8 (r : rdb) (b : byte) (rest : list byte) :
  rdb_buf r = xc0 :: b :: rest ->
  loadString r = (Ok (Itoa (u8 b)), advance 2 r).
Proof.
  intros H. unfold loadString, bind.
  rewrite (loadLen_encoding r H) by (cbn; lia).
  change (u8 xc0 mod 64 =? EncodeInt8) with true. cbv beta iota.
  assert (H1 : rdb_buf (advance 1 r) = b :: rest).
  { unfold advance. cbn [rdb_buf]. rewrite H. reflexivity. }
  rewrite (loadByte_cons _ H1), advance_advance. reflexivity.
Qed.

Lemma loadString_int16 (r : rdb) (b0 b1 : byte) (rest : list byte) :
  rdb_buf r = xc1 :: b0 :: b1 :: rest ->
  loadString r = (Ok (Itoa (u8 b0 + 256 * u8 b1)), advance 3 r).
Proof.
  intros H. unfold loadString, bind.
  rewrite (loadLen_encoding r H) by (cbn; lia).
  change (u8 xc1 mod 64 =? EncodeInt8) with false.
  change (u8 xc1 mod 64 =? EncodeInt16) with true. cbv beta iota.
  unfold loadUint16, bind. change 2 with (Z.of_nat 2) at 1.
  rewrite io_ReadFull_ok
    by (unfold advance; cbn [rdb_buf]; rewrite H; cbn; lia).
  unfold add_i, ret, set_buf, advance. cbn [rdb_buf rdb_conn rdb_i rdb_n].
  rewrite H. cbn [firstn skipn]. rewrite wrap64_add_l.
  unfold LittleEndian.Uint16. cbn [firstn le_value].
  f_equal; [do 2 f_equal; lia | do 2 f_equal; lia].
Qed.

Lemma loadString_int32 (r : rdb) (b0 b1 b2 b3 : byte) (rest : list byte) :
  rdb_buf r = xc2 :: b0 :: b1 :: b2 :: b3 :: rest ->
  loadString r
  = (Ok (Itoa (u8 b0 + 2 ^ 8 * u8 b1 + 2 ^ 16 * u8 b2 + 2 ^ 24 * u8 b3)),
     advance 5 r).
Proof.
  intros H. unfold loadString, bind.
  rewrite (loadLen_encoding r H) by (cbn; lia).
  change (u8 xc2 mod 64 =? EncodeInt8) with false.
  change (u8 xc2 mod 64 =? EncodeInt16) with false.
  change (u8 xc2 mod 64 =? EncodeInt32) with true. cbv beta iota.
  unfold loadUint32, bind. change 4 with (Z.of_nat 4) at 1.
  rewrite io_ReadFull_ok
    by (unfold advance; cbn [rdb_buf]; rewrite H; cbn; lia).
  unfold add_i, ret, set_buf, advance. cbn [rdb_buf rdb_conn rdb_i rdb_n].
  rewrite H. cbn [firstn skipn]. rewrite wrap64_add_l.
  unfold LittleEndian.Uint32. cbn [firstn le_value].
  f_equal; [do 2 f_equal; lia | do 2 f_equal; lia].
Qed.

(** C1 (the code departs from it): the int8 string [C0 FF] decodes to "255",
    not "-1"; the int16 string [C1 FF FF] to "65535" and the int32 string
    [C2 FF FF FF FF] to "4294967295", without a minus sign. *)
Theorem loadString_int_is_unsigned (c : Conn) (i n : Z) :
  let r := fun stream => {| rdb_buf := stream; rdb_conn := c; rdb_i := i; rdb_n := n |} in
  fst (loadString (r [xc0; xff])) = Ok (list_byte_of_string "255") /\
  fst (loadString (r [xc1; xff; xff])) = Ok (list_byte_of_string "65535") /\
  fst (loadString (r [xc2; xff; xff; xff; xff]))
  = Ok (list_byte_of_string "4294967295").
Proof.
  intros r. refine (conj _ (conj _ _)).
  - rewrite (@loadString_int8 (r [xc0; xff]) xff [] eq_refl). reflexivity.
  - rewrite (@loadString_int16 (r [xc1; xff; xff]) xff xff [] eq_refl). reflexivity.
  - rewrite (@loadString_int32 (r [xc2; xff; xff; xff; xff]) xff xff xff xff []
               eq_refl).
    reflexivity.
Qed.

(** *** Opcodes *)

(** Decide the tests of the dispatch on a known byte. *)
Ltac decide_tests :=
  repeat match goal with
         | |- context [u8 ?b =? ?k] =>
             let v := eval vm_compute in (u8 b =? k) in
             change (u8 b =? k) with v
         end;
  cbv beta iota.

(** The EXPIRETIME opcode takes eight bytes from the stream. *)
Lemma loadData_body_expiretime (r : rdb) (b0 b1 b2 b3 b4 b5 b6 b7 : byte)
  (rest : list byte) (expire : Z) (hasSelectDb : bool) :
  rdb_buf r = xfd :: b0 :: b1 :: b2 :: b3 :: b4 :: b5 :: b6 :: b7 :: rest ->
  loadData_body expire hasSelectDb r
  = (Ok (Continue
           (wrap64 (int64 (le_value [b0; b1; b2; b3; b4; b5; b6; b7]) * 1000))
           hasSelectDb),
     advance 9 r).
Proof.
  intros H. unfold loadData_body, bind.
  rewrite (loadByte_cons r H). decide_tests.
  unfold wrapped, loadUint64, bind. change 8 with (Z.of_nat 8) at 1.
  rewrite io_ReadFull_ok
    by (unfold advance; cbn [rdb_buf]; rewrite H; cbn; lia).
  unfold add_i, ret, set_buf, advance. cbn [rdb_buf rdb_conn rdb_i rdb_n].
  rewrite H. cbn [firstn skipn]. rewrite wrap64_add_l.
  f_equal. do 2 f_equal. lia.
Qed.

(** C2 (the code departs from it): on the opcode [FD] followed by the four
    bytes [01 00 00 00] (one second) and by the record [00 01 6B 01 76], the
    engine takes eight bytes, not four: the register is not 1000 and the
    stream is left in the middle of the record. *)
Theorem expiretime_takes_eight_bytes (c : Conn) (i n expire : Z) (hasSelectDb : bool) :
  let r := {| rdb_buf := [xfd; x01; x00; x00; x00; x00; x01; x6b; x01; x76];
              rdb_conn := c; rdb_i := i; rdb_n := n |} in
  fst (loadData_body expire hasSelectDb r)
  = Ok (Continue (wrap64 ((1 + 2 ^ 40 + 107 * 2 ^ 48 + 2 ^ 56) * 1000)) hasSelectDb) /\
  wrap64 ((1 + 2 ^ 40 + 107 * 2 ^ 48 + 2 ^ 56) * 1000) <> 1000 /\
  rdb_buf (snd (loadData_body expire hasSelectDb r)) = [x76].
Proof.
  intros r.
  rewrite (@loadData_body_expiretime r x01 x00 x00 x00 x00 x01 x6b x01 [x76]
             expire hasSelectDb eq_refl).
  refine (conj _ (conj _ eq_refl)).
  - reflexivity.
  - vm_compute. discriminate.
Qed.

Lemma discard_selectDB (index : Z) (r : rdb) :
  discard (selectDB index) r
  = (Ok tt, sending {| cmd_name := "SELECT"; cmd_args := [ArgUint64 index] |} r).
Proof.
  unfold discard, selectDB, bind, Do, expect_ok, redigo_String, sending.
  destruct (respond (rdb_conn r) (sent (rdb_conn r))
              {| cmd_name := "SELECT"; cmd_args := [ArgUint64 index] |})
    as [st|z|e]; try reflexivity.
  destruct (String.eqb st "OK"); reflexivity.
Qed.

(** The SELECTDB opcode, with the flag down: the index is read, SELECT is
    sent, and the flag is left down. *)
Lemma loadData_body_selectdb (r : rdb) (b : byte) (rest : list byte) (expire : Z) :
  rdb_buf r = xfe :: b :: rest -> u8 b < 0x40 ->
  loadData_body expire false r
  = (Ok (Continue expire false),
     sending {| cmd_name := "SELECT"; cmd_args := [ArgUint64 (u8 b)] |}
       (advance 2 r)).
Proof.
  intros H Hb. pose proof (u8_range b). unfold loadData_body, bind.
  rewrite (loadByte_cons r H). decide_tests.
  assert (H1 : rdb_buf (advance 1 r) = b :: rest).
  { unfold advance. cbn [rdb_buf]. rewrite H. reflexivity. }
  unfold wrapped. rewrite (loadLen_6bit _ H1 Hb), advance_advance.
  rewrite discard_selectDB, Z.mod_small by lia. reflexivity.
Qed.

Lemma loadData_loop_continue (fuel : nat) (expire expire' : Z)
  (hasSelectDb hasSelectDb' : bool) (r r' : rdb) :
  rdb_i r < rdb_n r ->
  loadData_body expire hasSelectDb r = (Ok (Continue expire' hasSelectDb'), r') ->
  loadData_loop (S fuel) expire hasSelectDb r
  = loadData_loop fuel expire' hasSelectDb' r'.
Proof.
  intros Hi Hb. cbn [loadData_loop].
  replace (rdb_i r <? rdb_n r) with true by lia. rewrite Hb. reflexivity.
Qed.

(** C3 (the code departs from it): on a stream with two SELECTDB opcodes,
    for database 0 and for database 1, the engine sends SELECT twice,
    whatever the destination answers. *)
Theorem second_selectdb_is_not_ignored (answers : list command -> command -> reply) :
  let r := {| rdb_buf := [xfe; x00; xfe; x01; xff;
                          x00; x00; x00; x00; x00; x00; x00; x00];
              rdb_conn := {| sent := []; respond := answers |};
              rdb_i := 0; rdb_n := 13 |} in
  fst (loadData r) = Ok tt /\
  sent (rdb_conn (snd (loadData r)))
  = [ {| cmd_name := "SELECT"; cmd_args := [ArgUint64 0] |};
      {| cmd_name := "SELECT"; cmd_args := [ArgUint64 1] |} ].
Proof.
  intros r. unfold loadData. cbn [rdb_buf List.length r].
  assert (B1 := @loadData_body_selectdb r x00 _ 0 eq_refl ltac:(cbn; lia)).
  assert (I1 : rdb_i r < rdb_n r) by (cbn; lia).
  rewrite (@loadData_loop_continue _ _ _ _ _ _ _ I1 B1).
  match type of B1 with _ = (_, ?r1) =>
    assert (B2 := @loadData_body_selectdb r1 x01 _ 0 eq_refl ltac:(cbn; lia));
    assert (I2 : rdb_i r1 < rdb_n r1) by (vm_compute; reflexivity);
    rewrite (@loadData_loop_continue _ _ _ _ _ _ _ I2 B2)
  end.
  split; reflexivity.
Qed.

(** *** Zipmap records *)

Lemma Do_sends (name : string) (args : list arg) (r : rdb) :
  snd (Do name args r) = sending {| cmd_name := name; cmd_args := args |} r.
Proof. reflexivity. Qed.

Lemma expect_int_state (msg : string) (expected : Z) (rp : reply) (r : rdb) :
  snd (expect_int msg expected rp r) = r.
Proof.
  unfold expect_int. destruct (redigo_Int rp) as [z|e|]; try reflexivity.
  destruct (expected =? z); reflexivity.
Qed.

(** After a count that succeeds the cursor is at offset 0, on the length
    byte of the zipmap. *)
Lemma countZipmapItems_loop_rewinds (fuel : nat) :
  forall (n m : Z) (buf buf' : input),
    countZipmapItems_loop fuel n buf = Some (Ok m, buf') -> index buf' = 0.
Proof.
  induction fuel as [|fuel IH]; intros n m buf buf' H; [discriminate H|].
  cbn [countZipmapItems_loop] in H.
  destruct (countZipmapItems_body n buf) as [[[n'|[]]|e|] buf1].
  - exact (IH _ _ _ _ H).
  - unfold bind, Seek, ret in H. cbn in H. inversion H. reflexivity.
  - discriminate H.
  - discriminate H.
Qed.

Lemma countZipmapItems_rewinds (n : Z) (buf buf' : input) :
  countZipmapItems buf = (Ok n, buf') -> index buf' = 0.
Proof.
  unfold countZipmapItems. intros H.
  destruct (countZipmapItems_loop
              (S (Z.to_nat (len (data buf) - index buf))) 0 buf)
    as [out|] eqn:E; [|discriminate H].
  subst out. exact (countZipmapItems_loop_rewinds _ _ _ E).
Qed.

(** So the first field read after a count is read on the length byte: for
    the length byte [0xFF] it is the end-of-zipmap mark, and the field is
    empty. *)
Lemma loadZipmapItem_on_length_byte (rest : list byte) :
  loadZipmapItem false {| data := xff :: rest; index := 0 |}
  = (Ok [], {| data := xff :: rest; index := 1 |}).
Proof.
  unfold loadZipmapItem, loadZipmapItemLength, bind, ReadByte, go_index.
  cbn [data index]. rewrite len_cons. pose proof (len_nonneg rest).
  replace (0 >=? 1 + len rest) with false by lia. reflexivity.
Qed.

(** C4 (the code departs from it): for the zipmap [FF 01 "a" 01 00 "b" FF],
    whose length byte is above 254 and which holds the one pair ("a", "b"),
    the walk counts two items and so one pair, but the HSET is sent with the
    empty field and the value [01] instead of "a" and "b". *)
Theorem zipmap_counted_pairs_misread (key : list byte) (c : Conn) (i n : Z) :
  let slab := [xff; x01; x61; x01; x00; x62; xff] in
  let r := {| rdb_buf := x07 :: slab; rdb_conn := c; rdb_i := i; rdb_n := n |} in
  fst (countZipmapItems {| data := slab; index := 1 |}) = Ok 2 /\
  fst (zipmap_pairs (newInput slab)) = Ok (1, [ArgBytes []; ArgBytes [x01]]) /\
  sent (rdb_conn (snd (loadHashMapWithZipmap key r)))
  = sent c ++ [ {| cmd_name := "HSET";
                   cmd_args := [ArgBytes key; ArgBytes []; ArgBytes [x01]] |} ].
Proof.
  intros slab r.
  assert (Hp : zipmap_pairs (newInput slab)
               = (Ok (1, [ArgBytes []; ArgBytes [x01]]),
                  {| data := slab; index := 101 |})).
  { vm_compute. reflexivity. }
  refine (conj _ (conj _ _)).
  - vm_compute. reflexivity.
  - rewrite Hp. reflexivity.
  - unfold loadHashMapWithZipmap, bind.
    rewrite (@loadString_raw r x07 slab eq_refl ltac:(cbn; lia) ltac:(cbn; lia)).
    change (firstn (Z.to_nat (u8 x07)) slab) with slab.
    unfold with_input. rewrite Hp. cbn [fst].
    match goal with
    | |- context [Do ?name ?args ?st] =>
        pose proof (Do_sends name args st) as Hd;
        destruct (Do name args st) as [[rp| |] st']; cbn [snd] in Hd; subst st'
    end; try reflexivity.
    rewrite expect_int_state. reflexivity.
Qed.

End Properties.

(** ** Steps of the engine *)

(** What the engine does is made of four primitives: a byte read, a block
    read, the count of the bytes and a command sent.  A relation on readers
    that is a preorder and holds across the primitives holds across every
    loader. *)
Section Preservation.

Context {F : GoFloat} {L : Lzf}.

Variable R : rdb -> rdb -> Prop.
Hypothesis R_refl : forall r, R r r.
Hypothesis R_trans : forall r1 r2 r3, R r1 r2 -> R r2 r3 -> R r1 r3.
Hypothesis R_ReadByte : preserves R buf_ReadByte.
Hypothesis R_ReadFull : forall k, preserves R (io_ReadFull k).
Hypothesis R_add_i : forall d, preserves R (add_i d).
Hypothesis R_Do :
  forall name args, name <> "PEXPIREAT"%string -> preserves R (Do name args).

Lemma preserves_ret {A : Type} (a : A) : preserves R (ret a).
Proof. intros r. apply R_refl. Qed.

Lemma preserves_fail {A : Type} (e : error) : preserves R (@fail rdb A e).
Proof. intros r. apply R_refl. Qed.

Lemma preserves_panic {A : Type} : preserves R (@panic rdb A).
Proof. intros r. apply R_refl. Qed.

Lemma preserves_bind {A B : Type} (m : M rdb A) (k : A -> M rdb B) :
  preserves R m -> (forall a, preserves R (k a)) -> preserves R (bind m k).
Proof.
  intros Hm Hk r. unfold bind. specialize (Hm r).
  destruct (m r) as [[a|e|] r1]; cbn [snd] in *; try assumption.
  eapply R_trans; [exact Hm|apply Hk].
Qed.

Lemma preserves_discard {A : Type} (m : M rdb A) :
  preserves R m -> preserves R (discard m).
Proof.
  intros Hm r. unfold discard. specialize (Hm r).
  destruct (m r) as [[a|e|] r1]; exact Hm.
Qed.

Lemma preserves_wrapped {A : Type} (msg : string) (m : M rdb A) :
  preserves R m -> preserves R (wrapped msg m).
Proof.
  intros Hm r. unfold wrapped. specialize (Hm r).
  destruct (m r) as [[a|e|] r1]; exact Hm.
Qed.

Lemma preserves_with_input {A : Type} (buf : input) (m : M input A) :
  preserves R (with_input buf m).
Proof. intros r. apply R_refl. Qed.

Lemma preserves_for_loop {A : Type} (body : M rdb (list A)) :
  preserves R body ->
  forall count ent, preserves R (for_loop count body ent).
Proof.
  intros Hb count. induction count as [|count IH]; intros ent; cbn [for_loop].
  - apply preserves_ret.
  - apply preserves_bind; [exact Hb|]. intros vs. apply IH.
Qed.

(** The steps of a loader, from the steps of its parts. *)
Ltac preserve :=
  repeat first
    [ assumption
    | match goal with H : _ |- preserves _ _ => solve [apply H] end
    | apply preserves_ret
    | apply preserves_fail
    | apply preserves_panic
    | apply R_ReadByte
    | apply R_ReadFull
    | apply R_add_i
    | apply R_Do; discriminate
    | apply preserves_with_input
    | apply preserves_discard
    | apply preserves_wrapped
    | apply preserves_for_loop
    | apply preserves_bind; [|intros]
    | match goal with
      | |- preserves _ (if ?a =? ?b then _ else _) => destruct (Z.eqb_spec a b)
      | |- preserves _ (if ?c then _ else _) => destruct c
      | |- preserves _ (match ?x with _ => _ end) => destruct x
      end ].

Lemma preserves_loadByte : preserves R loadByte.
Proof. unfold loadByte. preserve. Qed.

Lemma preserves_loadLen : preserves R loadLen.
Proof. pose proof preserves_loadByte. unfold loadLen. preserve. Qed.

Lemma preserves_loadUint16 : preserves R loadUint16.
Proof. unfold loadUint16. preserve. Qed.

Lemma preserves_loadUint32 : preserves R loadUint32.
Proof. unfold loadUint32. preserve. Qed.

Lemma preserves_loadUint64 : preserves R loadUint64.
Proof. unfold loadUint64. preserve. Qed.

Lemma preserves_loadFloat : preserves R loadFloat.
Proof. pose proof preserves_loadByte. unfold loadFloat. preserve. Qed.

Lemma preserves_loadBinaryFloat : preserves R loadBinaryFloat.
Proof. unfold loadBinaryFloat. preserve. Qed.

Lemma preserves_loadLZF : preserves R loadLZF.
Proof. pose proof preserves_loadLen. unfold loadLZF. preserve. Qed.

Lemma preserves_loadString : preserves R loadString.
Proof.
  pose proof preserves_loadByte. pose proof preserves_loadLen.
  pose proof preserves_loadUint16. pose proof preserves_loadUint32.
  pose proof preserves_loadLZF.
  unfold loadString. preserve.
Qed.

Lemma preserves_expect_int (msg : string) (expected : Z) (rp : reply) :
  preserves R (expect_int msg expected rp).
Proof. unfold expect_int. preserve. Qed.

Lemma preserves_expect_ok (msg : string) (rp : reply) :
  preserves R (expect_ok msg rp).
Proof. unfold expect_ok. preserve. Qed.

Lemma preserves_selectDB (index : Z) : preserves R (selectDB index).
Proof. unfold selectDB. preserve. apply preserves_expect_ok. Qed.

Lemma preserves_loadScript (script : list byte) : preserves R (loadScript script).
Proof. unfold loadScript. preserve. Qed.

Lemma preserves_loadZipList : preserves R loadZipList.
Proof. pose proof preserves_loadString. unfold loadZipList. preserve. Qed.

Lemma preserves_loadList (key : list byte) : preserves R (loadList key).
Proof.
  pose proof preserves_loadLen. pose proof preserves_loadString.
  pose proof preserves_expect_int.
  unfold loadList. preserve.
Qed.

Lemma preserves_loadListWithQuickList (key : list byte) :
  preserves R (loadListWithQuickList key).
Proof.
  pose proof preserves_loadLen. pose proof preserves_loadZipList.
  pose proof preserves_expect_int.
  unfold loadListWithQuickList. preserve.
Qed.

Lemma preserves_loadListWithZipList (key : list byte) :
  preserves R (loadListWithZipList key).
Proof.
  pose proof preserves_loadZipList. pose proof preserves_expect_int.
  unfold loadListWithZipList. preserve.
Qed.

Lemma preserves_loadHashMap (key : list byte) : preserves R (loadHashMap key).
Proof.
  pose proof preserves_loadLen. pose proof preserves_loadString.
  pose proof preserves_expect_int.
  unfold loadHashMap. preserve.
Qed.

Lemma preserves_loadHashMapWithZipmap (key : list byte) :
  preserves R (loadHashMapWithZipmap key).
Proof.
  pose proof preserves_loadString. pose proof preserves_expect_int.
  unfold loadHashMapWithZipmap. preserve.
Qed.

Lemma preserves_loadHashMapZiplist (key : list byte) :
  preserves R (loadHashMapZiplist key).
Proof.
  pose proof preserves_loadString. pose proof preserves_expect_int.
  unfold loadHashMapZiplist. preserve.
Qed.

Lemma preserves_loadSet (key : list byte) : preserves R (loadSet key).
Proof.
  pose proof preserves_loadLen. pose proof preserves_loadString.
  pose proof preserves_expect_int.
  unfold loadSet. preserve.
Qed.

Lemma preserves_loadIntSet (key : list byte) : preserves R (loadIntSet key).
Proof.
  pose proof preserves_loadString. pose proof preserves_expect_int.
  unfold loadIntSet. preserve.
Qed.

Lemma preserves_loadZSet (key : list byte) (t : byte) :
  preserves R (loadZSet key t).
Proof.
  pose proof preserves_loadLen. pose proof preserves_loadString.
  pose proof preserves_loadFloat. pose proof preserves_loadBinaryFloat.
  pose proof preserves_expect_int.
  unfold loadZSet, loadZSet_score. preserve.
Qed.

Lemma preserves_loadZipListSortSet (key : list byte) :
  preserves R (loadZipListSortSet key).
Proof.
  pose proof preserves_loadString. pose proof preserves_expect_int.
  unfold loadZipListSortSet. preserve.
Qed.

(** [loadValue] is the decoding of the value, which sends what the type asks
    for, followed by the PEXPIREAT when the register is above zero. *)
Lemma loadValue_parts (key : list byte) (t : byte) (expire : Z) :
  exists value : M rdb unit,
    preserves R value /\
    loadValue key t expire
    = (value ;;;
       if expire >? 0 then
         rp <- Do "PEXPIREAT" [ArgBytes key; ArgInt64 expire] ;;
         match rp with
         | ReplyErr e => fail (ErrWrap "failed to expire key" e)
         | _ => ret tt
         end
       else ret tt).
Proof.
  eexists. split; [|unfold loadValue; reflexivity].
  pose proof preserves_loadString. pose proof preserves_expect_ok.
  pose proof preserves_loadList. pose proof preserves_loadSet.
  pose proof preserves_loadZSet. pose proof preserves_loadHashMap.
  pose proof preserves_loadListWithQuickList.
  pose proof preserves_loadHashMapWithZipmap.
  pose proof preserves_loadListWithZipList. pose proof preserves_loadIntSet.
  pose proof preserves_loadZipListSortSet. pose proof preserves_loadHashMapZiplist.
  preserve.
Qed.

(** A turn of the loop is a byte read followed by steps of [R]; for a data
    record with the register above zero, provided the PEXPIREAT is one. *)
Lemma loadData_body_parts (expire : Z) (hasSelectDb : bool) :
  exists after : byte -> M rdb flow,
    loadData_body expire hasSelectDb = (t <- loadByte ;; after t) /\
    forall t,
      (u8 t < FlagOpcodeIdle -> expire > 0 ->
       forall key, preserves R (Do "PEXPIREAT" [ArgBytes key; ArgInt64 expire])) ->
      preserves R (after t).
Proof.
  eexists. split; [unfold loadData_body; reflexivity|].
  intros t Hx. cbv beta.
  pose proof preserves_loadByte. pose proof preserves_loadLen.
  pose proof preserves_loadString. pose proof preserves_loadUint64.
  pose proof preserves_loadScript. pose proof preserves_selectDB.
  pose proof (u8_range t).
  unfold FlagOpcodeIdle, FlagOpcodeFreq, FlagOpcodeAux, FlagOpcodeResizeDB,
    FlagOpcodeExpireTimeMs, FlagOpcodeExpireTime, FlagOpcodeSelectDB,
    FlagOpcodeEOF in *.
  destruct (Z.ltb_spec (u8 t) 248) as [Hrec|Hop].
  - assert (Hv : forall key, preserves R (loadValue key t expire)).
    { intros key. destruct (loadValue_parts key t expire) as (value & Hq & ->).
      apply preserves_bind; [exact Hq|intros _].
      destruct (Z.gtb_spec expire 0) as [Hpos|Hneg]; [|apply preserves_ret].
      pose proof (Hx Hrec ltac:(lia)). preserve. }
    preserve.
  - repeat match goal with
           | |- preserves _ (if ?a =? ?b then _ else _) =>
               destruct (Z.eqb_spec a b)
           end;
      try (exfalso; lia); preserve.
Qed.

Lemma preserves_loadData_body (expire : Z) (hasSelectDb : bool) :
  (expire > 0 ->
   forall key, preserves R (Do "PEXPIREAT" [ArgBytes key; ArgInt64 expire])) ->
  preserves R (loadData_body expire hasSelectDb).
Proof.
  intros Hx. destruct (loadData_body_parts expire hasSelectDb) as (after & -> & Ha).
  pose proof preserves_loadByte.
  apply preserves_bind; [assumption|]. intros t. apply Ha. intros _. exact Hx.
Qed.

End Preservation.

(** ** The pending expiry *)

Section Expiry.

Context {F : GoFloat} {L : Lzf}.

Lemma pexpireats_app (a b : list command) :
  pexpireats (a ++ b) = pexpireats a ++ pexpireats b.
Proof. apply filter_app. Qed.

Lemma quiet_same_conn (r r' : rdb) :
  rdb_conn r' = rdb_conn r -> quiet_step r r'.
Proof. intros H. exists []. rewrite H, app_nil_r. split; reflexivity. Qed.

Lemma quiet_refl (r : rdb) : quiet_step r r.
Proof. apply quiet_same_conn. reflexivity. Qed.

Lemma quiet_trans (r1 r2 r3 : rdb) :
  quiet_step r1 r2 -> quiet_step r2 r3 -> quiet_step r1 r3.
Proof.
  intros (c1 & H1 & P1) (c2 & H2 & P2). exists (c1 ++ c2).
  rewrite H2, H1, app_assoc. split; [reflexivity|].
  rewrite pexpireats_app, P1, P2. reflexivity.
Qed.

Lemma quiet_ReadByte : preserves quiet_step buf_ReadByte.
Proof.
  intros r. unfold buf_ReadByte.
  destruct (rdb_buf r); apply quiet_same_conn; reflexivity.
Qed.

Lemma quiet_ReadFull (k : Z) : preserves quiet_step (io_ReadFull k).
Proof.
  intros r. unfold io_ReadFull.
  destruct (k <=? len (rdb_buf r)); [|destruct (len (rdb_buf r) =? 0)];
    apply quiet_same_conn; reflexivity.
Qed.

Lemma quiet_add_i (d : Z) : preserves quiet_step (add_i d).
Proof. intros r. apply quiet_same_conn. reflexivity. Qed.

Lemma quiet_Do (name : string) (args : list arg) :
  name <> "PEXPIREAT"%string -> preserves quiet_step (Do name args).
Proof.
  intros Hn r. exists [ {| cmd_name := name; cmd_args := args |} ].
  split; [reflexivity|].
  unfold pexpireats, is_pexpireat. cbn [filter cmd_name].
  apply String.eqb_neq in Hn. rewrite Hn. reflexivity.
Qed.

(** A turn with the register at zero or below sends no PEXPIREAT, however
    it ends. *)
Lemma turn_quiet_nonpositive (expire : Z) (hasSelectDb : bool) (r : rdb) :
  expire <= 0 -> quiet_step r (snd (loadData_body expire hasSelectDb r)).
Proof.
  intros He.
  apply (preserves_loadData_body quiet_refl quiet_trans quiet_ReadByte
           quiet_ReadFull quiet_add_i quiet_Do).
  intros Hpos. lia.
Qed.

(** A turn on an opcode sends no PEXPIREAT. *)
Lemma turn_quiet_opcode (expire : Z) (hasSelectDb : bool) (r : rdb)
  (t : byte) (rest : list byte) :
  rdb_buf r = t :: rest -> FlagOpcodeIdle <= u8 t ->
  quiet_step r (snd (loadData_body expire hasSelectDb r)).
Proof.
  intros Hbuf Ht.
  destruct (loadData_body_parts quiet_refl quiet_trans quiet_ReadByte
              quiet_ReadFull quiet_add_i quiet_Do expire hasSelectDb)
    as (after & -> & Ha).
  unfold bind. rewrite (loadByte_cons r Hbuf).
  apply quiet_trans with (r2 := advance 1 r);
    [apply quiet_same_conn; reflexivity|].
  refine (Ha t _ (advance 1 r)). intros Hrec. lia.
Qed.

(** A turn on any byte below the opcodes reads a key and a value. *)
Lemma loadData_body_record (expire : Z) (hasSelectDb : bool) (r : rdb)
  (t : byte) (rest : list byte) :
  rdb_buf r = t :: rest -> u8 t < FlagOpcodeIdle ->
  loadData_body expire hasSelectDb r
  = (key <- loadString ;;
     loadValue key t expire ;;;
     ret (Continue (-1) hasSelectDb)) (advance 1 r).
Proof.
  intros Hbuf Ht. unfold loadData_body. unfold bind at 1.
  rewrite (loadByte_cons r Hbuf).
  unfold FlagOpcodeIdle, FlagOpcodeFreq, FlagOpcodeAux, FlagOpcodeResizeDB,
    FlagOpcodeExpireTimeMs, FlagOpcodeExpireTime, FlagOpcodeSelectDB,
    FlagOpcodeEOF in *.
  replace (u8 t =? 248) with false by lia.
  replace (u8 t =? 249) with false by lia.
  replace (u8 t =? 250) with false by lia.
  replace (u8 t =? 251) with false by lia.
  replace (u8 t =? 252) with false by lia.
  replace (u8 t =? 253) with false by lia.
  replace (u8 t =? 254) with false by lia.
  replace (u8 t =? 255) with false by lia.
  reflexivity.
Qed.

(** When it completes, the register is back to -1, and the PEXPIREAT, sent
    when the register was above zero, is the last command of the turn. *)
Lemma record_turn (expire : Z) (hasSelectDb : bool) (r : rdb)
  (t : byte) (rest : list byte) (expire' : Z) (hasSelectDb' : bool) (r' : rdb) :
  rdb_buf r = t :: rest -> u8 t < FlagOpcodeIdle ->
  loadData_body expire hasSelectDb r = (Ok (Continue expire' hasSelectDb'), r') ->
  expire' = -1 /\
  exists key cmds,
    fst (loadString (advance 1 r)) = Ok key /\
    sent (rdb_conn r')
    = sent (rdb_conn r) ++ cmds
      ++ (if expire >? 0
          then [ {| cmd_name := "PEXPIREAT";
                    cmd_args := [ArgBytes key; ArgInt64 expire] |} ]
          else []) /\
    pexpireats cmds = [].
Proof.
  intros Hbuf Ht Hbody.
  rewrite (loadData_body_record expire hasSelectDb r Hbuf Ht) in Hbody.
  unfold bind in Hbody.
  pose proof (preserves_loadString quiet_refl quiet_trans quiet_ReadByte
                quiet_ReadFull quiet_add_i (advance 1 r)) as Q1.
  destruct (loadString (advance 1 r)) as [[key|e|] r1]; try discriminate Hbody.
  destruct (loadValue_parts quiet_refl quiet_trans quiet_ReadByte
              quiet_ReadFull quiet_add_i quiet_Do key t expire)
    as (value & Hq & Hv).
  rewrite Hv in Hbody. unfold bind in Hbody.
  pose proof (Hq r1) as Q2.
  destruct (value r1) as [[[]|e|] r2]; try discriminate Hbody.
  cbn [snd] in Q1, Q2.
  destruct (quiet_trans Q1 Q2) as (cmds & Hs & Hp).
  change (sent (rdb_conn (advance 1 r))) with (sent (rdb_conn r)) in Hs.
  destruct (expire >? 0).
  - unfold Do in Hbody.
    destruct (respond (rdb_conn r2) (sent (rdb_conn r2))
                {| cmd_name := "PEXPIREAT";
                   cmd_args := [ArgBytes key; ArgInt64 expire] |});
      cbn in Hbody; inversion Hbody; subst.
    + split; [reflexivity|]. exists key, cmds. cbn [fst sent rdb_conn].
      rewrite Hs, app_assoc. auto.
    + split; [reflexivity|]. exists key, cmds. cbn [fst sent rdb_conn].
      rewrite Hs, app_assoc. auto.
  - cbn in Hbody. inversion Hbody; subst.
    split; [reflexivity|]. exists key, cmds. cbn [fst].
    rewrite Hs, app_nil_r. auto.
Qed.

(** A turn that is not on an expiry opcode keeps the register, or resets
    it to -1. *)
Lemma turn_register (expire : Z) (hasSelectDb : bool) (r : rdb)
  (t : byte) (rest : list byte) (expire' : Z) (hasSelectDb' : bool) (r' : rdb) :
  rdb_buf r = t :: rest -> is_expiry_opcode t = false ->
  loadData_body expire hasSelectDb r = (Ok (Continue expire' hasSelectDb'), r') ->
  expire' = expire \/ expire' = -1.
Proof.
  intros Hbuf Hne Hbody.
  unfold is_expiry_opcode in Hne. apply orb_false_elim in Hne as [N1 N2].
  unfold loadData_body in Hbody. unfold bind at 1 in Hbody.
  rewrite (loadByte_cons r Hbuf), N1, N2 in Hbody.
  unfold bind, wrapped, discard, ret, fail in Hbody.
  repeat match type of Hbody with
         | context [if ?c then _ else _] => destruct c
         | context [match ?x with _ => _ end] => destruct x
         end;
    try discriminate Hbody; inversion Hbody; auto.
Qed.

(** With the register at zero or below, turns that are not on an expiry
    opcode leave it at zero or below and send no PEXPIREAT. *)
Lemma turns_quiet (expire : Z) (hasSelectDb : bool) (r : rdb)
  (expire' : Z) (hasSelectDb' : bool) (r' : rdb) :
  turns_without_expiry expire hasSelectDb r expire' hasSelectDb' r' ->
  expire <= 0 -> expire' <= 0 /\ quiet_step r r'.
Proof.
  induction 1 as [e hs r0 | e hs r0 t rest e1 hs1 r1 e2 hs2 r2 Hbuf Hne Hbody _ IH];
    intros He.
  - split; [exact He|apply quiet_refl].
  - assert (Q1 : quiet_step r0 r1).
    { pose proof (turn_quiet_nonpositive hs r0 He) as Q1.
      rewrite Hbody in Q1. exact Q1. }
    assert (Hreg : e1 = e \/ e1 = -1) by (eapply turn_register; eassumption).
    destruct Hreg as [-> | ->].
    + destruct (IH He) as [He2 Q2]. split; [exact He2|exact (quiet_trans Q1 Q2)].
    + destruct (IH ltac:(lia)) as [He2 Q2].
      split; [exact He2|exact (quiet_trans Q1 Q2)].
Qed.

(** C8: the pending-expiry register is a one-shot.  In a turn of the loop
    of [loadData] on the byte [t]: a turn on an opcode sends no PEXPIREAT; a
    turn with the register at zero or below sends none either; a turn on a
    data record that completes leaves the register at -1, has sent
    PEXPIREAT, for its key and with the value of the register, exactly when
    the register was above zero, and once only; and from there on no
    PEXPIREAT is sent by the turns that follow, on records or opcodes, until
    an expiry opcode loads the register again. *)
Theorem pending_expiry_one_shot (expire : Z) (hasSelectDb : bool) (r : rdb)
  (t : byte) (rest : list byte) :
  rdb_buf r = t :: rest ->
  let out := loadData_body expire hasSelectDb r in
  (FlagOpcodeIdle <= u8 t -> quiet_step r (snd out)) /\
  (expire <= 0 -> quiet_step r (snd out)) /\
  (u8 t < FlagOpcodeIdle ->
   forall expire' hasSelectDb' r',
     out = (Ok (Continue expire' hasSelectDb'), r') ->
     expire' = -1 /\
     (exists key cmds,
        fst (loadString (advance 1 r)) = Ok key /\
        sent (rdb_conn r')
        = sent (rdb_conn r) ++ cmds
          ++ (if expire >? 0
              then [ {| cmd_name := "PEXPIREAT";
                        cmd_args := [ArgBytes key; ArgInt64 expire] |} ]
              else []) /\
        pexpireats cmds = []) /\
     (forall expire2 hasSelectDb2 r2,
        turns_without_expiry expire' hasSelectDb' r' expire2 hasSelectDb2 r2 ->
        quiet_step r' r2)).
Proof.
  intros Hbuf out. refine (conj _ (conj _ _)).
  - intros Ht. exact (turn_quiet_opcode expire hasSelectDb r Hbuf Ht).
  - intros He. exact (turn_quiet_nonpositive hasSelectDb r He).
  - intros Ht expire' hasSelectDb' r' Hout.
    assert (Hrec := @record_turn _ _ _ _ _ _ _ _ Hbuf Ht Hout).
    destruct Hrec as [-> Hlog].
    refine (conj eq_refl (conj Hlog _)).
    intros expire2 hasSelectDb2 r2 Hturns.
    eapply turns_quiet; [eassumption|lia].
Qed.

(** *** The loop of [loadData] ends *)

Lemma shrink_refl (r : rdb) : shrink_step r r.
Proof. unfold shrink_step. lia. Qed.

Lemma shrink_trans (r1 r2 r3 : rdb) :
  shrink_step r1 r2 -> shrink_step r2 r3 -> shrink_step r1 r3.
Proof. unfold shrink_step. lia. Qed.

Lemma shrink_ReadByte : preserves shrink_step buf_ReadByte.
Proof.
  intros r. unfold buf_ReadByte, shrink_step.
  destruct (rdb_buf r) eqn:E; cbn; rewrite ?E; cbn; lia.
Qed.

Lemma shrink_ReadFull (k : Z) : preserves shrink_step (io_ReadFull k).
Proof.
  intros r. unfold io_ReadFull, shrink_step.
  destruct (k <=? len (rdb_buf r)); [|destruct (len (rdb_buf r) =? 0)]; cbn.
  - rewrite length_skipn. lia.
  - lia.
  - lia.
Qed.

Lemma shrink_add_i (d : Z) : preserves shrink_step (add_i d).
Proof. intros r. unfold shrink_step. cbn. lia. Qed.

Lemma shrink_Do (name : string) (args : list arg) :
  preserves shrink_step (Do name args).
Proof. intros r. unfold shrink_step. cbn. lia. Qed.

(** A turn that goes round again has taken at least one byte. *)
Lemma turn_consumes (expire : Z) (hasSelectDb : bool) (r : rdb)
  (expire' : Z) (hasSelectDb' : bool) (r' : rdb) :
  loadData_body expire hasSelectDb r = (Ok (Continue expire' hasSelectDb'), r') ->
  (List.length (rdb_buf r') < List.length (rdb_buf r))%nat.
Proof.
  destruct (loadData_body_parts shrink_refl shrink_trans shrink_ReadByte
              shrink_ReadFull shrink_add_i (fun name args _ => shrink_Do name args)
              expire hasSelectDb)
    as (after & -> & Ha).
  unfold bind. destruct (rdb_buf r) as [|t rest] eqn:Hbuf.
  - rewrite (loadByte_nil r Hbuf). discriminate.
  - rewrite (loadByte_cons r Hbuf). intros Hbody.
    pose proof (Ha t (fun _ _ key => shrink_Do _ _) (advance 1 r)) as Hs.
    rewrite Hbody in Hs. unfold shrink_step, advance in Hs. cbn in Hs.
    rewrite Hbuf in Hs. cbn in Hs. cbn. lia.
Qed.

Lemma loadData_loop_fuel (fuel : nat) :
  forall (expire : Z) (hasSelectDb : bool) (r : rdb),
    (List.length (rdb_buf r) < fuel)%nat ->
    loadData_loop fuel expire hasSelectDb r <> None.
Proof.
  induction fuel as [|fuel IH]; intros expire hasSelectDb r Hlen; [lia|].
  cbn [loadData_loop].
  destruct (rdb_i r <? rdb_n r); [|discriminate].
  destruct (loadData_body expire hasSelectDb r) as [[[e' hs'|]|e|] r'] eqn:Hbody;
    try discriminate.
  apply IH. assert (Hc := @turn_consumes _ _ _ _ _ _ Hbody). lia.
Qed.

(** [loadData] returns what the loop returns: the bound on the turns is
    never reached. *)
Lemma loadData_total (r : rdb) :
  loadData_loop (S (List.length (rdb_buf r))) 0 false r = Some (loadData r).
Proof.
  unfold loadData.
  destruct (loadData_loop (S (List.length (rdb_buf r))) 0 false r) eqn:E;
    [reflexivity|].
  exfalso. revert E. apply loadData_loop_fuel. lia.
Qed.

End Expiry.

(** ** Examples *)

Lemma loadLen_decodes_witness :
  let r := @mkRdb bits_float [x41; x02] ok_conn 0 2 in
  (rdb_buf r = [x41; x02] /\ 0x40 <= u8 x41 < 0x80) /\
  loadLen r = (Ok (258, false), advance 2 r).
Proof.
  intros r.
  assert (Hb : 0x40 <= u8 x41 < 0x80) by (cbn; lia).
  split; [split; [reflexivity|exact Hb]|].
  exact (proj1 (proj2 (@loadLen_decodes bits_float r x41 [x02] eq_refl))
           Hb x02 [] eq_refl).
Defined.

Lemma score_decoders_witness :
  let r := @mkRdb bits_float [xff; x00] ok_conn 0 2 in
  (rdb_buf r = [xff; x00] /\ u8 xff = 0xff) /\
  loadFloat r = (Ok NegInf, advance 1 r).
Proof.
  intros r. split; [split; reflexivity|].
  exact (proj1 (proj1 (proj2 (proj2 (@score_decoders bits_float r)))
                  xff [x00] eq_refl) eq_refl).
Defined.

Lemma pending_expiry_one_shot_witness :
  let r := @mkRdb bits_float
             [x00; x01; x6b; x01; x76; x00; x01; x6b; x01; x77] ok_conn 0 10 in
  let out := @loadData_body bits_float stored_lzf 5 false r in
  let out' := @loadData_body bits_float stored_lzf (-1) false (snd out) in
  (rdb_buf r = x00 :: [x01; x6b; x01; x76; x00; x01; x6b; x01; x77] /\
   u8 x00 < FlagOpcodeIdle /\
   out = (Ok (Continue (-1) false), snd out) /\
   @turns_without_expiry bits_float stored_lzf
     (-1) false (snd out) (-1) false (snd out')) /\
  sent (rdb_conn (snd out))
  = [ {| cmd_name := "SET"; cmd_args := [ArgBytes [x6b]; ArgBytes [x76]] |};
      {| cmd_name := "PEXPIREAT"; cmd_args := [ArgBytes [x6b]; ArgInt64 5] |} ] /\
  quiet_step (snd out) (snd out').
Proof.
  intros r out out'.
  assert (Hbuf : rdb_buf r = x00 :: [x01; x6b; x01; x76; x00; x01; x6b; x01; x77])
    by reflexivity.
  assert (Ht : u8 x00 < FlagOpcodeIdle) by (vm_compute; reflexivity).
  assert (Hout : out = (Ok (Continue (-1) false), snd out))
    by (vm_compute; reflexivity).
  assert (Hturns : @turns_without_expiry bits_float stored_lzf
                     (-1) false (snd out) (-1) false (snd out')).
  { apply turns_more
      with (t := x00) (rest := [x01; x6b; x01; x77])
           (expire1 := -1) (hasSelectDb1 := false) (r1 := snd out').
    - vm_compute. reflexivity.
    - vm_compute. reflexivity.
    - vm_compute. reflexivity.
    - apply turns_none. }
  split; [repeat split; assumption|].
  split; [vm_compute; reflexivity|].
  exact (proj2 (proj2 (proj2 (proj2
           (@pending_expiry_one_shot bits_float stored_lzf 5 false r x00 _ Hbuf))
           Ht (-1) false (snd out) Hout)) (-1) false (snd out') Hturns).
Defined.
(** * Further properties *)

(** ** Encodings *)

Lemma u8_byte_of_Z (z : Z) : u8 (byte_of_Z z) = z mod 256.
Proof.
  unfold byte_of_Z. pose proof (Z.mod_pos_bound z 256 ltac:(lia)) as Hm.
  destruct (Byte.of_N (Z.to_N (z mod 256))) as [b|] eqn:E.
  - apply Byte.to_of_N in E. unfold u8. rewrite E. apply Z2N.id. lia.
  - apply Byte.of_N_None_iff in E. lia.
Qed.

Lemma u8_byte_of_Z_small (z : Z) : 0 <= z < 256 -> u8 (byte_of_Z z) = z.
Proof. intros H. rewrite u8_byte_of_Z. apply Z.mod_small. exact H. Qed.

Lemma length_le_bytes (k : nat) : forall z, List.length (le_bytes k z) = k.
Proof. induction k as [|k IH]; intros z; cbn; [reflexivity|]. rewrite IH. reflexivity. Qed.

Lemma len_le_bytes (k : nat) (z : Z) : len (le_bytes k z) = Z.of_nat k.
Proof. unfold len. rewrite length_le_bytes. reflexivity. Qed.

Lemma le_value_le_bytes (k : nat) :
  forall z, le_value (le_bytes k z) = z mod 256 ^ Z.of_nat k.
Proof.
  induction k as [|k IH]; intros z.
  - cbn. rewrite Z.mod_1_r. reflexivity.
  - cbn [le_bytes le_value]. rewrite u8_byte_of_Z, IH.
    rewrite Nat2Z.inj_succ, Z.pow_succ_r by lia.
    rewrite Z.rem_mul_r; [reflexivity|lia|apply Z.pow_pos_nonneg; lia].
Qed.

Lemma signed_mod (w z : Z) :
  0 < w -> - 2 ^ (w - 1) <= z < 2 ^ (w - 1) -> signed w (z mod 2 ^ w) = z.
Proof.
  intros Hw Hz. unfold signed.
  assert (E : 2 ^ w = 2 * 2 ^ (w - 1)).
  { replace w with (Z.succ (w - 1)) at 1 by lia. apply Z.pow_succ_r. lia. }
  rewrite Zplus_mod_idemp_l, Z.mod_small; lia.
Qed.

Lemma length_map_len {A B : Type} (f : A -> B) (l : list A) :
  len (map f l) = len l.
Proof. unfold len. rewrite length_map. reflexivity. Qed.

Lemma firstn_len_app {A : Type} (v rest : list A) :
  firstn (Z.to_nat (len v)) (v ++ rest) = v.
Proof.
  rewrite to_nat_len, firstn_app, Nat.sub_diag, firstn_all. cbn.
  apply app_nil_r.
Qed.

Lemma skipn_len_app {A : Type} (v rest : list A) :
  skipn (Z.to_nat (len v)) (v ++ rest) = rest.
Proof.
  rewrite to_nat_len, skipn_app, Nat.sub_diag, skipn_all. reflexivity.
Qed.

(** ** The byte cursor, further *)

Lemma Slice_cursor_app (behind v rest : list byte) :
  len (behind ++ v ++ rest) < 2 ^ 63 ->
  Slice (len v) (cursor behind (v ++ rest)) = (Ok v, cursor (behind ++ v) rest).
Proof.
  intros Hl. rewrite Slice_cursor.
  - rewrite firstn_len_app, skipn_len_app. reflexivity.
  - rewrite len_app. pose proof (len_nonneg v). pose proof (len_nonneg rest). lia.
  - exact Hl.
Qed.

(** X1: once the cursor is at or beyond the end of the slab, as after a
    [Seek] past the end, [ReadByte], [Read] into a non-empty buffer and
    [Slice] of one byte or more all fail with EOF and leave the cursor where
    it is. *)
Theorem reads_past_the_end (offset whence abs : Z) (buf buf' : input) :
  Seek offset whence buf = (Ok abs, buf') ->
  len (data buf) <= abs ->
  ReadByte buf' = (Err EOF, buf') /\
  (forall b, b <> [] -> Read b buf' = (Err EOF, buf')) /\
  (forall n, 0 < n < 2 ^ 62 -> Slice n buf' = (Err EOF, buf')).
Proof.
  intros Hs Hl. apply Seek_inv in Hs. destruct Hs as [Habs ->].
  assert (H31 : 2 ^ 31 < 2 ^ 62) by (vm_compute; reflexivity).
  assert (H62 : 2 * 2 ^ 62 = 2 ^ 63) by (vm_compute; reflexivity).
  refine (conj _ (conj _ _)).
  - unfold ReadByte. cbn [data index set_index].
    destruct (Z.geb_spec abs (len (data buf))); [reflexivity|lia].
  - intros b Hb. unfold Read. cbn [data index set_index].
    assert (len b <> 0).
    { destruct b as [|b0 bs]; [congruence|]. rewrite len_cons.
      pose proof (len_nonneg bs). lia. }
    destruct (Z.eqb_spec (len b) 0); [lia|].
    destruct (Z.geb_spec abs (len (data buf))); [reflexivity|lia].
  - intros n Hn. unfold Slice. cbn [data index set_index].
    rewrite wrap64_id by lia.
    destruct (Z.gtb_spec (abs + n) (len (data buf))); [reflexivity|lia].
Qed.

Lemma reads_past_the_end_witness :
  let buf := newInput [x01; x02] in
  (Seek 5 0 buf = (Ok 5, set_index buf 5) /\ len (data buf) <= 5) /\
  ReadByte (set_index buf 5) = (Err EOF, set_index buf 5).
Proof.
  intros buf.
  assert (Hs : Seek 5 0 buf = (Ok 5, set_index buf 5)) by reflexivity.
  assert (Hl : len (data buf) <= 5) by (cbn; lia).
  split; [split; assumption|].
  exact (proj1 (@reads_past_the_end 5 0 5 buf (set_index buf 5) Hs Hl)).
Defined.

(** ** Ziplists *)

Lemma loadZiplistLength_slab (sizes rest : list byte) (b8 b9 : byte) (idx : Z) :
  List.length sizes = 8%nat -> len (sizes ++ b8 :: b9 :: rest) < 2 ^ 63 ->
  loadZiplistLength {| data := sizes ++ b8 :: b9 :: rest; index := idx |}
  = (Ok (u8 b8 + 256 * u8 b9), cursor (sizes ++ [b8; b9]) rest).
Proof.
  intros Hs Hl.
  unfold loadZiplistLength, bind, discard, Seek. cbn [Z.eqb].
  change (8 <? 0) with false. change (8 >=? 2 ^ 31) with false. cbv iota.
  unfold set_index. cbn [data index].
  replace {| data := sizes ++ b8 :: b9 :: rest; index := 8 |}
    with (cursor sizes ([b8; b9] ++ rest))
    by (unfold cursor, len; rewrite Hs; reflexivity).
  change 2 with (len [b8; b9]).
  rewrite Slice_cursor_app by exact Hl.
  unfold ret, LittleEndian.Uint16. cbn [firstn le_value].
  do 3 f_equal. lia.
Qed.

(** X2: [loadZiplistLength] reads the count of the entries at offset 8 of
    the slab, little-endian on two bytes, wherever the cursor was, and
    leaves the cursor at offset 10, on the first entry; on a slab of less
    than 10 bytes it fails with EOF. *)
Theorem loadZiplistLength_at_offset_8 (d : list byte) (idx : Z) :
  len d < 2 ^ 63 ->
  (forall sizes b8 b9 rest,
     d = sizes ++ b8 :: b9 :: rest -> List.length sizes = 8%nat ->
     loadZiplistLength {| data := d; index := idx |}
     = (Ok (u8 b8 + 256 * u8 b9), cursor (sizes ++ [b8; b9]) rest)) /\
  (len d < 10 ->
   loadZiplistLength {| data := d; index := idx |}
   = (Err EOF, {| data := d; index := 8 |})).
Proof.
  intros Hl. split.
  - intros sizes b8 b9 rest -> Hs. apply loadZiplistLength_slab; assumption.
  - intros Hshort.
    unfold loadZiplistLength, bind, discard, Seek. cbn [Z.eqb].
    change (8 <? 0) with false. change (8 >=? 2 ^ 31) with false. cbv iota.
    unfold set_index, Slice. cbn [data index].
    rewrite wrap64_id by (split; [vm_compute; discriminate|vm_compute; reflexivity]).
    destruct (Z.gtb_spec (8 + 2) (len d)); [reflexivity|lia].
Qed.

Lemma loadZiplistLength_at_offset_8_witness :
  let d := [x00; x00; x00; x00; x00; x00; x00; x00; x02; x01; xff] in
  len d < 2 ^ 63 /\
  loadZiplistLength {| data := d; index := 3 |}
  = (Ok 258, {| data := d; index := 10 |}).
Proof.
  intros d. assert (Hl : len d < 2 ^ 63) by (vm_compute; reflexivity).
  split; [exact Hl|].
  exact (proj1 (@loadZiplistLength_at_offset_8 d 3 Hl)
           [x00; x00; x00; x00; x00; x00; x00; x00] x02 x01 [xff]
           eq_refl eq_refl).
Defined.

(** A string, after its header. *)
Lemma switch_string (behind v rest : list byte) (h : byte) (more : list byte) :
  len v < 2 ^ 32 -> ziplist_string_header (len v) = h :: more ->
  len (behind ++ h :: more ++ v ++ rest) < 2 ^ 31 ->
  loadZiplistEntry_switch h (cursor (behind ++ [h]) (more ++ v ++ rest))
  = (Ok v, cursor (behind ++ (h :: more) ++ v) rest).
Proof.
  intros Hv Hh Hl.
  assert (H63 : 2 ^ 31 < 2 ^ 63) by (vm_compute; reflexivity).
  pose proof (len_nonneg v) as Hv0.
  assert (Hl' : len ((behind ++ [h]) ++ more ++ v ++ rest) < 2 ^ 63).
  { rewrite <- app_assoc. cbn [app]. lia. }
  revert Hh. unfold ziplist_string_header.
  destruct (Z.ltb_spec (len v) 64) as [H6|H6].
  { (* 6 bits *)
    intros Hh.
    assert (Eh : h = hd x00 (h :: more)) by reflexivity.
    assert (Et : more = tl (h :: more)) by reflexivity.
    rewrite <- Hh in Eh, Et. cbn [hd tl] in Eh, Et. subst h more. clear Hh.
    unfold loadZiplistEntry_switch.
    rewrite u8_byte_of_Z_small by lia.
    assert (E6 : Z.shiftr (len v) 6 = 0).
    { rewrite Z.shiftr_div_pow2 by lia. apply Z.div_small. simpl. lia. }
    rewrite E6. cbn [Z.eqb ZipStr06B].
    change 63 with (Z.ones 6). rewrite Z.land_ones by lia.
    change (2 ^ 6) with 64. rewrite Z.mod_small by lia.
    cbn [app] in *. rewrite Slice_cursor_app by exact Hl'.
    rewrite <- app_assoc. reflexivity. }
  destruct (Z.ltb_spec (len v) 16384) as [H14|H14].
  { (* 14 bits *)
    intros Hh.
    assert (Eh : h = hd x00 (h :: more)) by reflexivity.
    assert (Et : more = tl (h :: more)) by reflexivity.
    rewrite <- Hh in Eh, Et. cbn [hd tl] in Eh, Et. subst h more. clear Hh.
    assert (Hq : 0 <= len v / 256 < 64).
    { split; [apply Z.div_pos; lia|apply Z.div_lt_upper_bound; lia]. }
    unfold loadZiplistEntry_switch.
    rewrite u8_byte_of_Z_small by lia.
    assert (E6 : Z.shiftr (64 + len v / 256) 6 = 1).
    { rewrite Z.shiftr_div_pow2 by lia. change (2 ^ 6) with 64.
      symmetry. apply Z.div_unique with (r := len v / 256); lia. }
    rewrite E6. cbn [Z.eqb Pos.eqb ZipStr06B ZipStr14B].
    change 63 with (Z.ones 6). rewrite Z.land_ones by lia.
    assert (Em : (64 + len v / 256) mod 2 ^ 6 = len v / 256).
    { change (2 ^ 6) with 64. symmetry.
      apply Z.mod_unique with (q := 1); lia. }
    rewrite Em. unfold bind. cbn [app] in *.
    rewrite ReadByte_cursor by exact Hl'.
    rewrite u8_byte_of_Z, lor_shiftl_8 by (apply Z.mod_pos_bound; lia).
    replace (len v / 256 * 256 + len v mod 256) with (len v)
      by (rewrite (Z.div_mod (len v) 256) at 1 by lia; lia).
    rewrite Slice_cursor_app
      by (repeat rewrite <- app_assoc; cbn [app]; lia).
    repeat rewrite <- app_assoc. reflexivity. }
  (* 32 bits *)
  intros Hh.
    assert (Eh : h = hd x00 (h :: more)) by reflexivity.
    assert (Et : more = tl (h :: more)) by reflexivity.
    rewrite <- Hh in Eh, Et. cbn [hd tl] in Eh, Et. subst h more. clear Hh.
  change (loadZiplistEntry_switch x80)
    with (lenBytes <- Slice 4 ;; Slice (BigEndian.Uint32 lenBytes)).
  unfold bind.
  change 4 with (len (rev (le_bytes 4 (len v)))).
  rewrite Slice_cursor_app by exact Hl'.
  unfold BigEndian.Uint32.
  rewrite firstn_all2 by (rewrite length_rev, length_le_bytes; lia).
  rewrite rev_involutive, le_value_le_bytes.
  change (256 ^ Z.of_nat 4) with (2 ^ 32). rewrite Z.mod_small by lia.
  rewrite Slice_cursor_app
    by (repeat rewrite <- app_assoc; cbn [app]; cbn [app] in Hl; lia).
  repeat rewrite <- app_assoc. reflexivity.
Qed.

Lemma Slice_le_bytes (k : nat) (z : Z) (behind rest : list byte) :
  len (behind ++ le_bytes k z ++ rest) < 2 ^ 63 ->
  Slice (Z.of_nat k) (cursor behind (le_bytes k z ++ rest))
  = (Ok (le_bytes k z), cursor (behind ++ le_bytes k z) rest).
Proof. intros H. rewrite <- (len_le_bytes k z). apply Slice_cursor_app. exact H. Qed.

Lemma Read_cursor_app (b v behind rest : list byte) :
  len b = len v -> v <> [] -> len (behind ++ v ++ rest) < 2 ^ 63 ->
  Read b (cursor behind (v ++ rest))
  = (Ok (len v, v), cursor (behind ++ v) rest).
Proof.
  intros Hb Hv Hl.
  assert (Hv0 : 0 < len v).
  { destruct v as [|v0 vs]; [congruence|]. rewrite len_cons.
    pose proof (len_nonneg vs). lia. }
  pose proof (len_nonneg rest) as Hr.
  rewrite Read_cursor; [|lia|destruct v; [congruence|discriminate]|exact Hl].
  rewrite len_app.
  replace (Z.min (len b) (len v + len rest)) with (len v) by lia.
  rewrite firstn_len_app, skipn_len_app.
  rewrite skipn_all2 by (rewrite to_nat_len; unfold len in Hb; lia).
  rewrite app_nil_r. reflexivity.
Qed.

Lemma shiftr_int24 (z : Z) :
  - 2 ^ 23 <= z < 2 ^ 23 ->
  Z.shiftr (int32 (256 * (z mod 2 ^ 24))) 8 = z.
Proof.
  intros Hz. unfold int32.
  replace (256 * (z mod 2 ^ 24)) with ((256 * z) mod 2 ^ 32).
  - rewrite signed_mod by (change (2 ^ (32 - 1)) with (256 * 2 ^ 23); lia).
    rewrite Z.shiftr_div_pow2 by lia. change (2 ^ 8) with 256.
    rewrite Z.mul_comm. apply Z.div_mul. lia.
  - change (2 ^ 32) with (256 * 2 ^ 24).
    apply Z.mul_mod_distr_l; lia.
Qed.

(** An integer, after its header. *)
Lemma switch_int (w z : Z) (behind rest : list byte) :
  ziplist_item_ok (ZInt w z) ->
  let h := ziplist_int_header w in
  let payload := le_bytes (Z.to_nat (w / 8)) z in
  len (behind ++ h :: payload ++ rest) < 2 ^ 31 ->
  loadZiplistEntry_switch h (cursor (behind ++ [h]) (payload ++ rest))
  = (Ok (FormatInt z), cursor (behind ++ h :: payload) rest).
Proof.
  intros [Hw Hz] h payload Hl.
  assert (H63 : 2 ^ 31 < 2 ^ 63) by (vm_compute; reflexivity).
  assert (Hl' : len ((behind ++ [h]) ++ payload ++ rest) < 2 ^ 63).
  { rewrite <- app_assoc. cbn [app]. lia. }
  assert (Hend : cursor ((behind ++ [h]) ++ payload) rest
                 = cursor (behind ++ h :: payload) rest).
  { rewrite <- app_assoc. reflexivity. }
  rewrite <- Hend. clear Hend. clear Hl.
  destruct Hw as [-> | [-> | [-> | [-> | ->]]]]; subst h payload.
  - (* 8 bits *)
    change (ziplist_int_header 8) with xfe in *.
    change (Z.to_nat (8 / 8)) with 1%nat in *.
    change (loadZiplistEntry_switch xfe)
      with (b <- ReadByte ;; ret (S := input) (FormatInt (int8 (u8 b)))).
    unfold bind. cbn [le_bytes app] in *.
    rewrite ReadByte_cursor by exact Hl'.
    rewrite u8_byte_of_Z. unfold int8, ret.
    change 256 with (2 ^ 8). rewrite signed_mod by (simpl in *; lia).
    rewrite <- app_assoc. reflexivity.
  - (* 16 bits *)
    change (ziplist_int_header 16) with xc0 in *.
    change (Z.to_nat (16 / 8)) with 2%nat in *.
    change (loadZiplistEntry_switch xc0)
      with (intBytes <- Slice 2 ;;
            ret (S := input) (FormatInt (int16 (LittleEndian.Uint16 intBytes)))).
    unfold bind. change 2 with (Z.of_nat 2).
    rewrite Slice_le_bytes by exact Hl'.
    unfold LittleEndian.Uint16, ret.
    rewrite firstn_all2 by (rewrite length_le_bytes; lia).
    rewrite le_value_le_bytes. change (256 ^ Z.of_nat 2) with (2 ^ 16).
    unfold int16. rewrite signed_mod by (simpl in *; lia). reflexivity.
  - (* 24 bits *)
    change (ziplist_int_header 24) with xf0 in *.
    change (Z.to_nat (24 / 8)) with 3%nat in *.
    change (loadZiplistEntry_switch xf0)
      with ('(_, tail) <- Read [x00; x00; x00] ;;
            ret (S := input)
              (FormatInt (Z.shiftr (int32 (LittleEndian.Uint32 (x00 :: tail))) 8))).
    unfold bind.
    rewrite Read_cursor_app;
      [|rewrite len_le_bytes; reflexivity|discriminate|exact Hl'].
    unfold LittleEndian.Uint32, ret.
    rewrite firstn_all2 by (cbn [List.length]; rewrite length_le_bytes; lia).
    cbn [le_value]. rewrite le_value_le_bytes.
    change (u8 x00) with 0. change (256 ^ Z.of_nat 3) with (2 ^ 24).
    rewrite Z.add_0_l, shiftr_int24 by (simpl in *; lia). reflexivity.
  - (* 32 bits *)
    change (ziplist_int_header 32) with xd0 in *.
    change (Z.to_nat (32 / 8)) with 4%nat in *.
    change (loadZiplistEntry_switch xd0)
      with (intBytes <- Slice 4 ;;
            ret (S := input) (FormatInt (int32 (LittleEndian.Uint32 intBytes)))).
    unfold bind. change 4 with (Z.of_nat 4).
    rewrite Slice_le_bytes by exact Hl'.
    unfold LittleEndian.Uint32, ret.
    rewrite firstn_all2 by (rewrite length_le_bytes; lia).
    rewrite le_value_le_bytes. change (256 ^ Z.of_nat 4) with (2 ^ 32).
    unfold int32. rewrite signed_mod by (simpl in *; lia). reflexivity.
  - (* 64 bits *)
    change (ziplist_int_header 64) with xe0 in *.
    change (Z.to_nat (64 / 8)) with 8%nat in *.
    change (loadZiplistEntry_switch xe0)
      with (intBytes <- Slice 8 ;;
            ret (S := input) (FormatInt (int64 (LittleEndian.Uint64 intBytes)))).
    unfold bind. change 8 with (Z.of_nat 8).
    rewrite Slice_le_bytes by exact Hl'.
    unfold LittleEndian.Uint64, ret.
    rewrite firstn_all2 by (rewrite length_le_bytes; lia).
    rewrite le_value_le_bytes. change (256 ^ Z.of_nat 8) with (2 ^ 64).
    unfold int64. rewrite signed_mod by (simpl in *; lia). reflexivity.
Qed.

(** A small integer, held in the header. *)
Lemma switch_small (z : Z) :
  0 <= z <= 12 ->
  loadZiplistEntry_switch (byte_of_Z (0xf1 + z)) = ret (FormatInt z).
Proof.
  intros Hz. rewrite switch_immediate;
    rewrite ?u8_byte_of_Z_small by lia; try lia.
  change 15 with (Z.ones 4). rewrite Z.land_ones by lia.
  change (2 ^ 4) with 16.
  replace ((241 + z) mod 16) with (1 + z)
    by (apply Z.mod_unique with (q := 15); lia).
  do 2 f_equal. lia.
Qed.

(** Every well-formed item starts with a header byte and decodes to its
    value, the cursor moving past it. *)
Lemma switch_item (it : ziplist_item) :
  ziplist_item_ok it ->
  exists h more,
    ziplist_item_bytes it = h :: more /\
    forall behind rest,
      len (behind ++ h :: more ++ rest) < 2 ^ 31 ->
      loadZiplistEntry_switch h (cursor (behind ++ [h]) (more ++ rest))
      = (Ok (ziplist_item_value it), cursor (behind ++ h :: more) rest).
Proof.
  intros Hok. destruct it as [v | w z | z].
  - cbn [ziplist_item_ok] in Hok.
    assert (Hne : exists h hs, ziplist_string_header (len v) = h :: hs).
    { unfold ziplist_string_header.
      destruct (len v <? 64); [eauto|]. destruct (len v <? 16384); eauto. }
    destruct Hne as (h & hs & Hh).
    exists h, (hs ++ v). split.
    + cbn [ziplist_item_bytes]. rewrite Hh. reflexivity.
    + intros behind rest Hl. rewrite <- app_assoc in Hl |- *.
      rewrite (@switch_string behind v rest h hs Hok Hh Hl).
      reflexivity.
  - exists (ziplist_int_header w), (le_bytes (Z.to_nat (w / 8)) z).
    split; [reflexivity|]. intros behind rest Hl.
    exact (@switch_int w z behind rest Hok Hl).
  - cbn [ziplist_item_ok] in Hok.
    exists (byte_of_Z (0xf1 + z)), []. split; [reflexivity|].
    intros behind rest Hl. rewrite switch_small by exact Hok.
    cbn [app]. unfold ret. cbn [ziplist_item_value]. reflexivity.
Qed.

(** X3: the walk over one ziplist entry, for every well-formed entry (a
    prev-len field on one or five bytes; a string under a 6-, 14- or 32-bit
    length; an integer on 8, 16, 24, 32 or 64 bits, little-endian and
    signed; an integer from 0 to 12 held in the header): the entry decodes
    to its string, or to the decimal text of its integer, and the cursor
    stops right after the entry. *)
Theorem ziplist_entry_round_trip (behind rest : list byte)
  (e : list byte * ziplist_item) :
  ziplist_entry_ok e ->
  len (behind ++ ziplist_entry_bytes e ++ rest) < 2 ^ 31 ->
  loadZiplistEntry (cursor behind (ziplist_entry_bytes e ++ rest))
  = (Ok (ziplist_item_value (snd e)),
     cursor (behind ++ ziplist_entry_bytes e) rest).
Proof.
  destruct e as [f it]. unfold ziplist_entry_ok, ziplist_entry_bytes.
  cbn [fst snd]. intros [Hf Hit] Hl.
  destruct (@switch_item it Hit) as (h & more & Hb & Hsw).
  rewrite Hb in *. rewrite <- app_assoc in Hl |- *. cbn [app] in Hl |- *.
  rewrite (@loadZiplistEntry_header behind f (more ++ rest) h Hf Hl).
  replace (behind ++ f ++ [h]) with ((behind ++ f) ++ [h])
    by (rewrite <- app_assoc; reflexivity).
  rewrite Hsw by (rewrite <- app_assoc; exact Hl).
  rewrite <- app_assoc. reflexivity.
Qed.

Lemma ziplist_entry_round_trip_witness :
  let e := ([x00], ZInt 16 (-2)) in
  (ziplist_entry_ok e /\ len ([] ++ ziplist_entry_bytes e ++ [xff]) < 2 ^ 31) /\
  loadZiplistEntry (cursor [] ([x00; xc0; xfe; xff] ++ [xff]))
  = (Ok (FormatInt (-2)), cursor [x00; xc0; xfe; xff] [xff]).
Proof.
  intros e.
  assert (Hok : ziplist_entry_ok e).
  { split.
    - left. exists x00. split; [reflexivity|]. vm_compute. discriminate.
    - split; [right; left; reflexivity|]. vm_compute. split; [discriminate|reflexivity]. }
  assert (Hl : len ([] ++ ziplist_entry_bytes e ++ [xff]) < 2 ^ 31)
    by (vm_compute; reflexivity).
  split; [split; assumption|].
  exact (@ziplist_entry_round_trip [] [xff] e Hok Hl).
Defined.

(** ** The run as a whole *)

Section Run.

Context {F : GoFloat} {L : Lzf}.

(** *** Bytes leave the front of the stream, commands join the log *)

Lemma stream_refl (r : rdb) : stream_step r r.
Proof.
  refine (conj _ (conj _ (conj eq_refl eq_refl))).
  - exists []. reflexivity.
  - exists []. rewrite app_nil_r. reflexivity.
Qed.

Lemma stream_trans (r1 r2 r3 : rdb) :
  stream_step r1 r2 -> stream_step r2 r3 -> stream_step r1 r3.
Proof.
  intros ((t1 & B1) & (c1 & S1) & D1 & N1) ((t2 & B2) & (c2 & S2) & D2 & N2).
  refine (conj _ (conj _ (conj _ _))).
  - exists (t1 ++ t2). rewrite B1, B2, app_assoc. reflexivity.
  - exists (c1 ++ c2). rewrite S2, S1, app_assoc. reflexivity.
  - congruence.
  - congruence.
Qed.

Lemma stream_take (k : nat) (r : rdb) :
  stream_step r (set_buf r (skipn k (rdb_buf r))).
Proof.
  refine (conj _ (conj _ (conj eq_refl eq_refl))).
  - exists (firstn k (rdb_buf r)). cbn. symmetry. apply firstn_skipn.
  - exists []. rewrite app_nil_r. reflexivity.
Qed.

Lemma stream_ReadByte : preserves stream_step buf_ReadByte.
Proof.
  intros r. unfold buf_ReadByte.
  destruct (rdb_buf r) as [|b rest] eqn:E; [apply stream_refl|].
  cbn [snd]. replace rest with (skipn 1 (rdb_buf r)) by (rewrite E; reflexivity).
  apply stream_take.
Qed.

Lemma stream_ReadFull (k : Z) : preserves stream_step (io_ReadFull k).
Proof.
  intros r. unfold io_ReadFull.
  destruct (k <=? len (rdb_buf r)); [|destruct (len (rdb_buf r) =? 0)]; cbn [snd].
  - apply stream_take.
  - apply stream_refl.
  - replace (@nil byte) with (skipn (List.length (rdb_buf r)) (rdb_buf r))
      by apply skipn_all.
    apply stream_take.
Qed.

Lemma stream_add_i (d : Z) : preserves stream_step (add_i d).
Proof.
  intros r. refine (conj _ (conj _ (conj eq_refl eq_refl))).
  - exists []. reflexivity.
  - exists []. cbn. rewrite app_nil_r. reflexivity.
Qed.

Lemma stream_Do (name : string) (args : list arg) :
  preserves stream_step (Do name args).
Proof.
  intros r. refine (conj _ (conj _ (conj eq_refl eq_refl))).
  - exists []. reflexivity.
  - exists [ {| cmd_name := name; cmd_args := args |} ]. reflexivity.
Qed.

Lemma stream_turn (expire : Z) (hasSelectDb : bool) :
  preserves stream_step (loadData_body expire hasSelectDb).
Proof.
  apply (preserves_loadData_body stream_refl stream_trans stream_ReadByte
           stream_ReadFull stream_add_i (fun name args _ => stream_Do name args)).
  intros _ key. apply stream_Do.
Qed.

Lemma stream_loop (fuel : nat) :
  forall (expire : Z) (hasSelectDb : bool) (r : rdb) (out : result unit * rdb),
    loadData_loop fuel expire hasSelectDb r = Some out -> stream_step r (snd out).
Proof.
  induction fuel as [|fuel IH]; intros expire hasSelectDb r out; [discriminate|].
  cbn [loadData_loop].
  destruct (rdb_i r <? rdb_n r).
  - pose proof (stream_turn expire hasSelectDb r) as Hturn.
    destruct (loadData_body expire hasSelectDb r) as [[[e' hs'|]|e|] r1];
      cbn [snd] in Hturn.
    + intros Hloop. apply stream_trans with (r2 := r1); [exact Hturn|].
      exact (IH _ _ _ _ Hloop).
    + intros [= <-]. exact Hturn.
    + intros [= <-]. exact Hturn.
    + intros [= <-]. exact Hturn.
  - intros [= <-]. apply stream_refl.
Qed.

Lemma stream_loadData (r : rdb) : stream_step r (snd (loadData r)).
Proof. exact (stream_loop _ _ _ _ (loadData_total r)). Qed.

Lemma stream_checkHeader : preserves stream_step checkHeader.
Proof.
  intros r. unfold checkHeader, bind.
  pose proof (stream_ReadFull 9 r) as H9.
  destruct (io_ReadFull 9 r) as [[[[header n] [e|]]|e|] r1]; cbn [snd] in *;
    try exact H9.
  apply stream_trans with (r2 := r1); [exact H9|].
  apply stream_trans with (r2 := snd (add_i n r1)); [apply stream_add_i|].
  cbn [add_i snd fst].
  destruct (Atoi (skipn 5 header)) as [v|e|]; try apply stream_refl.
  destruct (negb _ || _); apply stream_refl.
Qed.

End Run.

(** ** The bytes taken are the bytes counted *)

Lemma wrap64_range (z : Z) : - 2 ^ 63 <= wrap64 z < 2 ^ 63.
Proof.
  unfold wrap64, signed. change (2 ^ (64 - 1)) with (2 ^ 63).
  pose proof (Z.mod_pos_bound (z + 2 ^ 63) (2 ^ 64) ltac:(lia)) as H.
  change (2 ^ 64) with (2 * 2 ^ 63) in *. lia.
Qed.

(** Case analysis on every call a computation makes, innermost first. *)
Ltac crack :=
  repeat (cbv beta iota;
          match goal with
          | |- context [match ?x with _ => _ end] =>
              lazymatch x with
              | context [match _ with _ => _ end] => fail
              | _ => destruct x
              end
          end);
  cbv beta iota; try discriminate.

Section Counting.

Context {F : GoFloat} {L : Lzf}.

Lemma counted_range (r r' : rdb) :
  counted r r' -> - 2 ^ 63 <= rdb_i r' < 2 ^ 63.
Proof. intros (k & _ & _ & -> & _). apply wrap64_range. Qed.

Lemma counted_refl (r : rdb) :
  - 2 ^ 63 <= rdb_i r < 2 ^ 63 -> counted r r.
Proof.
  intros Hi. exists 0%nat. refine (conj _ (conj eq_refl (conj _ eq_refl))).
  - lia.
  - rewrite Z.add_0_r, wrap64_id by exact Hi. reflexivity.
Qed.

Lemma counted_trans (r1 r2 r3 : rdb) :
  counted r1 r2 -> counted r2 r3 -> counted r1 r3.
Proof.
  intros (k1 & L1 & B1 & I1 & N1) (k2 & L2 & B2 & I2 & N2).
  exists (k1 + k2)%nat. refine (conj _ (conj _ (conj _ _))).
  - rewrite B1, length_skipn in L2. lia.
  - rewrite B2, B1, skipn_skipn. f_equal. lia.
  - rewrite I2, I1, wrap64_add_l. f_equal. lia.
  - congruence.
Qed.

(** The state after a command: nothing taken, nothing counted. *)
Lemma counted_same (r r' : rdb) :
  - 2 ^ 63 <= rdb_i r < 2 ^ 63 ->
  rdb_buf r' = rdb_buf r -> rdb_i r' = rdb_i r -> rdb_n r' = rdb_n r ->
  counted r r'.
Proof.
  intros Hi Hb Hc Hn. exists 0%nat. refine (conj _ (conj Hb (conj _ Hn))).
  - lia.
  - rewrite Hc, Z.add_0_r, wrap64_id by exact Hi. reflexivity.
Qed.

Lemma counted_advance (k : nat) (r : rdb) :
  (k <= List.length (rdb_buf r))%nat -> counted r (advance k r).
Proof.
  intros Hk. exists k. refine (conj Hk (conj eq_refl (conj eq_refl eq_refl))).
Qed.

Lemma counts_ret {A : Type} (a : A) : counts (ret a).
Proof. intros r a' r' Hi [= _ <-]. apply counted_refl. exact Hi. Qed.

Lemma counts_fail {A : Type} (e : error) : counts (@fail rdb A e).
Proof. intros r a r' _ H. discriminate H. Qed.

Lemma counts_panic {A : Type} : counts (@panic rdb A).
Proof. intros r a r' _ H. discriminate H. Qed.

Lemma counts_bind {A B : Type} (m : M rdb A) (k : A -> M rdb B) :
  counts m -> (forall a, counts (k a)) -> counts (bind m k).
Proof.
  intros Hm Hk r b r' Hi. unfold bind.
  destruct (m r) as [[a|e|] r1] eqn:E; try discriminate.
  intros Hrun. pose proof (Hm r a r1 Hi E) as H1.
  apply counted_trans with (r2 := r1); [exact H1|].
  exact (Hk a r1 b r' (counted_range H1) Hrun).
Qed.

Lemma counts_wrapped {A : Type} (msg : string) (m : M rdb A) :
  counts m -> counts (wrapped msg m).
Proof.
  intros Hm r a r' Hi. unfold wrapped.
  destruct (m r) as [[a1|e|] r1] eqn:E; try discriminate.
  intros [= <- <-]. exact (Hm r a1 r1 Hi E).
Qed.

Lemma counts_with_input {A : Type} (buf : input) (m : M input A) :
  counts (with_input buf m).
Proof.
  intros r a r' Hi. unfold with_input. intros [= _ <-].
  apply counted_refl. exact Hi.
Qed.

Lemma counts_for_loop {A : Type} (body : M rdb (list A)) :
  counts body -> forall count ent, counts (for_loop count body ent).
Proof.
  intros Hb count. induction count as [|c IH]; intros ent; cbn [for_loop].
  - apply counts_ret.
  - apply counts_bind; [exact Hb|]. intros vs. apply IH.
Qed.

Lemma counts_Do (name : string) (args : list arg) : counts (Do name args).
Proof.
  intros r a r' Hi [= _ <-]. apply counted_same; [exact Hi|reflexivity..].
Qed.

Lemma counts_loadByte : counts loadByte.
Proof.
  intros r b r' _. destruct (rdb_buf r) as [|b0 rest] eqn:E.
  - rewrite (loadByte_nil r E). discriminate.
  - rewrite (loadByte_cons r E). intros [= _ <-].
    apply counted_advance. rewrite E. cbn. lia.
Qed.

(** [io.ReadFull] followed by [r.i += n] or by the return of its error. *)
Lemma counts_ReadFull {A : Type} (k : Z)
  (cont : list byte * Z * option error -> M rdb A) :
  0 <= k ->
  (forall p, exists rest, counts rest /\ cont (p, k, None) = (add_i k ;;; rest)) ->
  (forall p n e r a r', cont (p, n, Some e) r <> (Ok a, r')) ->
  counts (bind (io_ReadFull k) cont).
Proof.
  intros Hk Hok Herr r a r' Hi. unfold bind, io_ReadFull.
  destruct (Z.leb_spec k (len (rdb_buf r))) as [Hle|Hgt].
  - destruct (Hok (firstn (Z.to_nat k) (rdb_buf r))) as (rest & Hrest & ->).
    unfold bind, add_i. intros Hrun.
    apply counted_trans with (r2 := advance (Z.to_nat k) r).
    + apply counted_advance. unfold len in Hle. lia.
    + apply (Hrest (advance (Z.to_nat k) r) a r').
      * apply wrap64_range.
      * unfold advance. rewrite Z2Nat.id by exact Hk. exact Hrun.
  - destruct (len (rdb_buf r) =? 0); intros Hrun; exfalso;
      exact (Herr _ _ _ _ _ _ Hrun).
Qed.

Ltac read_full :=
  apply counts_ReadFull;
  [ try lia
  | intros ?; eexists; split; [|cbv beta iota; reflexivity]
  | intros; unfold bind, add_i, fail; cbv beta iota; discriminate ].

Ltac count :=
  repeat first
    [ assumption
    | match goal with H : _ |- counts _ => solve [apply H] end
    | apply counts_ret
    | apply counts_fail
    | apply counts_panic
    | apply counts_loadByte
    | apply counts_Do
    | apply counts_with_input
    | apply counts_wrapped
    | apply counts_for_loop
    | read_full
    | apply counts_bind; [|intros]
    | match goal with
      | |- counts (if ?a =? ?b then _ else _) => destruct (Z.eqb_spec a b)
      | |- counts (if ?c then _ else _) => destruct c
      | |- counts (match ?x with _ => _ end) => destruct x
      end ].

Lemma BigEndian_Uint32_nonneg (p : list byte) : 0 <= BigEndian.Uint32 p.
Proof. unfold BigEndian.Uint32. apply le_value_range. Qed.

Lemma BigEndian_Uint64_nonneg (p : list byte) : 0 <= BigEndian.Uint64 p.
Proof. unfold BigEndian.Uint64. apply le_value_range. Qed.

Lemma counts_loadLen : counts loadLen.
Proof. unfold loadLen. count. Qed.

Lemma loadLen_nonneg (r r' : rdb) (length : Z) (isEncode : bool) :
  loadLen r = (Ok (length, isEncode), r') -> 0 <= length.
Proof.
  unfold loadLen, bind.
  destruct (loadByte r) as [[b|e|] r1]; try discriminate.
  assert (H6 : 0 <= Z.land (u8 b) 63).
  { apply Z.land_nonneg. right. lia. }
  destruct (_ || _).
  { intros Hrun. replace length with (Z.land (u8 b) 63) by (unfold ret in Hrun; congruence).
    exact H6. }
  destruct (_ =? Type14Bit).
  { destruct (loadByte r1) as [[nb|e|] r2]; try discriminate.
    intros Hrun.
    replace length with (Z.lor (Z.shiftl (Z.land (u8 b) 63) 8) (u8 nb))
      by (unfold ret in Hrun; congruence).
    apply Z.lor_nonneg. split.
    - apply Z.shiftl_nonneg. exact H6.
    - apply u8_range. }
  destruct (u8 b =? Type32Bit).
  { destruct (io_ReadFull 4 r1) as [[[[p n] [e|]]|e|] r2]; try discriminate.
    intros Hrun.
    replace length with (BigEndian.Uint32 p)
      by (unfold ret, add_i in Hrun; congruence).
    apply BigEndian_Uint32_nonneg. }
  destruct (u8 b =? Type64Bit); [|discriminate].
  destruct (io_ReadFull 8 r1) as [[[[p n] [e|]]|e|] r2]; try discriminate.
  intros Hrun.
  replace length with (BigEndian.Uint64 p)
    by (unfold ret, add_i in Hrun; congruence).
  apply BigEndian_Uint64_nonneg.
Qed.

(** After [loadLen], a length that is not negative. *)
Lemma counts_after_loadLen {A : Type} (k : Z * bool -> M rdb A) :
  (forall length isEncode, 0 <= length -> counts (k (length, isEncode))) ->
  counts (bind loadLen k).
Proof.
  intros Hk r a r' Hi. unfold bind.
  destruct (loadLen r) as [[[length isEncode]|e|] r1] eqn:E; try discriminate.
  intros Hrun. pose proof (@counts_loadLen r _ r1 Hi E) as H1.
  apply counted_trans with (r2 := r1); [exact H1|].
  exact (Hk length isEncode (@loadLen_nonneg _ _ _ _ E) r1 a r' (counted_range H1) Hrun).
Qed.

Lemma counts_loadUint16 : counts loadUint16.
Proof. unfold loadUint16. count. Qed.

Lemma counts_loadUint32 : counts loadUint32.
Proof. unfold loadUint32. count. Qed.

Lemma counts_loadUint64 : counts loadUint64.
Proof. unfold loadUint64. count. Qed.

Lemma counts_loadFloat : counts loadFloat.
Proof.
  unfold loadFloat. apply counts_bind; [apply counts_loadByte|]. intros b.
  pose proof (u8_range b). count.
Qed.

Lemma counts_loadBinaryFloat : counts loadBinaryFloat.
Proof. unfold loadBinaryFloat. count. Qed.

Lemma counts_loadLZF : counts loadLZF.
Proof.
  unfold loadLZF. apply counts_after_loadLen. intros ilength _ Hi.
  apply counts_bind; [apply counts_loadLen|]. intros [ulength _]. count.
Qed.

Lemma counts_loadString : counts loadString.
Proof.
  unfold loadString. apply counts_after_loadLen. intros length needEncode Hl.
  pose proof counts_loadUint16. pose proof counts_loadUint32.
  pose proof counts_loadLZF. count.
Qed.

Lemma counts_expect_int (msg : string) (expected : Z) (rp : reply) :
  counts (expect_int msg expected rp).
Proof. unfold expect_int. count. Qed.

Lemma counts_expect_ok (msg : string) (rp : reply) :
  counts (expect_ok msg rp).
Proof. unfold expect_ok. count. Qed.

Lemma counts_loadZipList : counts loadZipList.
Proof. pose proof counts_loadString. unfold loadZipList. count. Qed.

Lemma counts_loadList (key : list byte) : counts (loadList key).
Proof.
  pose proof counts_loadLen. pose proof counts_loadString.
  pose proof counts_expect_int. unfold loadList. count.
Qed.

Lemma counts_loadListWithQuickList (key : list byte) :
  counts (loadListWithQuickList key).
Proof.
  pose proof counts_loadLen. pose proof counts_loadZipList.
  pose proof counts_expect_int. unfold loadListWithQuickList. count.
Qed.

Lemma counts_loadListWithZipList (key : list byte) :
  counts (loadListWithZipList key).
Proof.
  pose proof counts_loadZipList. pose proof counts_expect_int.
  unfold loadListWithZipList. count.
Qed.

Lemma counts_loadHashMap (key : list byte) : counts (loadHashMap key).
Proof.
  pose proof counts_loadLen. pose proof counts_loadString.
  pose proof counts_expect_int. unfold loadHashMap. count.
Qed.

Lemma counts_loadHashMapWithZipmap (key : list byte) :
  counts (loadHashMapWithZipmap key).
Proof.
  pose proof counts_loadString. pose proof counts_expect_int.
  unfold loadHashMapWithZipmap. count.
Qed.

Lemma counts_loadHashMapZiplist (key : list byte) :
  counts (loadHashMapZiplist key).
Proof.
  pose proof counts_loadString. pose proof counts_expect_int.
  unfold loadHashMapZiplist. count.
Qed.

Lemma counts_loadSet (key : list byte) : counts (loadSet key).
Proof.
  pose proof counts_loadLen. pose proof counts_loadString.
  pose proof counts_expect_int. unfold loadSet. count.
Qed.

Lemma counts_loadIntSet (key : list byte) : counts (loadIntSet key).
Proof.
  pose proof counts_loadString. pose proof counts_expect_int.
  unfold loadIntSet. count.
Qed.

Lemma counts_loadZSet (key : list byte) (t : byte) : counts (loadZSet key t).
Proof.
  pose proof counts_loadLen. pose proof counts_loadString.
  pose proof counts_loadFloat. pose proof counts_loadBinaryFloat.
  pose proof counts_expect_int.
  unfold loadZSet, loadZSet_score. count.
Qed.

Lemma counts_loadZipListSortSet (key : list byte) :
  counts (loadZipListSortSet key).
Proof.
  pose proof counts_loadString. pose proof counts_expect_int.
  unfold loadZipListSortSet. count.
Qed.

Lemma counts_loadValue (key : list byte) (t : byte) (expire : Z) :
  counts (loadValue key t expire).
Proof.
  pose proof counts_loadString. pose proof counts_expect_ok.
  pose proof counts_loadList. pose proof counts_loadSet.
  pose proof counts_loadZSet. pose proof counts_loadHashMap.
  pose proof counts_loadListWithQuickList.
  pose proof counts_loadHashMapWithZipmap.
  pose proof counts_loadListWithZipList. pose proof counts_loadIntSet.
  pose proof counts_loadZipListSortSet. pose proof counts_loadHashMapZiplist.
  unfold loadValue. count.
Qed.

(** A command whose error the caller drops. *)
Lemma counts_discard_command (m : M rdb unit) :
  (forall r, rdb_buf (snd (m r)) = rdb_buf r /\
             rdb_i (snd (m r)) = rdb_i r /\ rdb_n (snd (m r)) = rdb_n r) ->
  counts (discard m).
Proof.
  intros Hm r a r' Hi. unfold discard. destruct (Hm r) as (Hb & Hc & Hn).
  destruct (m r) as [[u|e|] r1]; cbn [snd] in *; try discriminate;
    intros [= _ <-]; apply counted_same; assumption.
Qed.

Lemma loadScript_state (script : list byte) (r : rdb) :
  snd (loadScript script r)
  = sending {| cmd_name := "SCRIPT LOAD"; cmd_args := [ArgBytes script] |} r.
Proof.
  unfold loadScript, bind, Do.
  destruct (redigo_Int _) as [z|e|]; reflexivity.
Qed.

Lemma selectDB_state (index : Z) (r : rdb) :
  snd (selectDB index r)
  = sending {| cmd_name := "SELECT"; cmd_args := [ArgUint64 index] |} r.
Proof.
  unfold selectDB, bind, Do, expect_ok.
  destruct (redigo_String _) as [s|e|]; [destruct (String.eqb s "OK")| |];
    reflexivity.
Qed.

Lemma counts_turn (expire : Z) (hasSelectDb : bool) :
  counts (loadData_body expire hasSelectDb).
Proof.
  pose proof counts_loadLen. pose proof counts_loadString.
  pose proof counts_loadUint64. pose proof counts_loadValue.
  assert (counts_script : forall val, counts (discard (loadScript val))).
  { intros val. apply counts_discard_command. intros r.
    rewrite loadScript_state. repeat split. }
  assert (counts_select : forall i, counts (discard (selectDB i))).
  { intros i. apply counts_discard_command. intros r.
    rewrite selectDB_state. repeat split. }
  unfold loadData_body. count.
Qed.

(** *** How the loop stops *)

(** The turn on the EOF opcode. *)
Lemma turn_eof (expire : Z) (hasSelectDb : bool) (r : rdb)
  (t : byte) (rest : list byte) :
  rdb_buf r = t :: rest -> u8 t = FlagOpcodeEOF ->
  loadData_body expire hasSelectDb r
  = if (8 <=? len rest)
    then (Ok Break, advance 9 r)
    else (Err (ErrWrap "failed to read checksum"
                 (if len rest =? 0 then EOF else ErrUnexpectedEOF)),
          set_buf (advance 1 r) []).
Proof.
  intros Hbuf Ht. unfold loadData_body, bind.
  rewrite (loadByte_cons r Hbuf). rewrite Ht.
  change (FlagOpcodeEOF =? FlagOpcodeIdle) with false.
  change (FlagOpcodeEOF =? FlagOpcodeFreq) with false.
  change (FlagOpcodeEOF =? FlagOpcodeAux) with false.
  change (FlagOpcodeEOF =? FlagOpcodeResizeDB) with false.
  change (FlagOpcodeEOF =? FlagOpcodeExpireTimeMs) with false.
  change (FlagOpcodeEOF =? FlagOpcodeExpireTime) with false.
  change (FlagOpcodeEOF =? FlagOpcodeSelectDB) with false.
  change (FlagOpcodeEOF =? FlagOpcodeEOF) with true.
  cbv iota. unfold io_ReadFull.
  assert (Hadv : rdb_buf (advance 1 r) = rest).
  { unfold advance. cbn [rdb_buf]. rewrite Hbuf. reflexivity. }
  rewrite Hadv.
  destruct (Z.leb_spec 8 (len rest)) as [Hle|Hgt].
  - unfold add_i, ret, set_buf. cbn [rdb_buf rdb_conn rdb_i rdb_n advance].
    f_equal. unfold advance. f_equal.
    + rewrite Hbuf. reflexivity.
    + rewrite wrap64_add_l. f_equal. lia.
  - destruct (Z.eqb_spec (len rest) 0) as [H0|H0]; unfold fail; [|reflexivity].
    f_equal. unfold set_buf, advance. cbn [rdb_buf rdb_conn rdb_i rdb_n].
    destruct rest; [|discriminate H0]. rewrite Hbuf. reflexivity.
Qed.

(** Only the EOF opcode breaks out of the loop. *)
Lemma turn_break (expire : Z) (hasSelectDb : bool) (r r' : rdb) :
  loadData_body expire hasSelectDb r = (Ok Break, r') ->
  exists t rest,
    rdb_buf r = t :: rest /\ u8 t = FlagOpcodeEOF /\
    (8 <= List.length rest)%nat /\ r' = advance 9 r.
Proof.
  destruct (rdb_buf r) as [|t rest] eqn:Hbuf.
  { unfold loadData_body, bind. rewrite (loadByte_nil r Hbuf). discriminate. }
  destruct (Z.eq_dec (u8 t) FlagOpcodeEOF) as [Ht|Ht].
  - rewrite (turn_eof expire hasSelectDb r Hbuf Ht).
    destruct (Z.leb_spec 8 (len rest)) as [Hle|Hgt]; [|discriminate].
    intros [= <-]. exists t, rest. unfold len in Hle.
    repeat split; try assumption. lia.
  - unfold loadData_body, bind. rewrite (loadByte_cons r Hbuf).
    apply Z.eqb_neq in Ht. rewrite Ht.
    unfold wrapped, discard, ret. crack.
Qed.

Lemma loop_stops (fuel : nat) :
  forall (expire : Z) (hasSelectDb : bool) (r r' : rdb),
    - 2 ^ 63 <= rdb_i r < 2 ^ 63 ->
    loadData_loop fuel expire hasSelectDb r = Some (Ok tt, r') ->
    exists k : nat,
      (k <= List.length (rdb_buf r))%nat /\
      rdb_buf r' = skipn k (rdb_buf r) /\
      rdb_i r' = wrap64 (rdb_i r + Z.of_nat k) /\
      rdb_n r' = rdb_n r /\
      (rdb_n r <= rdb_i r' \/
       exists t, (9 <= k)%nat /\ nth_error (rdb_buf r) (k - 9) = Some t /\
                 u8 t = FlagOpcodeEOF).
Proof.
  induction fuel as [|fuel IH]; intros expire hasSelectDb r r' Hi; [discriminate|].
  cbn [loadData_loop].
  destruct (Z.ltb_spec (rdb_i r) (rdb_n r)) as [Hlt|Hge].
  - destruct (loadData_body expire hasSelectDb r) as [[[e' hs'|]|e|] r1] eqn:Hbody;
      try discriminate.
    + intros Hloop.
      destruct (@counts_turn expire hasSelectDb r _ r1 Hi Hbody)
        as (k1 & L1 & B1 & I1 & N1).
      assert (Hi1 : - 2 ^ 63 <= rdb_i r1 < 2 ^ 63)
        by (rewrite I1; apply wrap64_range).
      destruct (IH _ _ _ _ Hi1 Hloop) as (k2 & L2 & B2 & I2 & N2 & Hend).
      rewrite B1, length_skipn in L2.
      exists (k1 + k2)%nat. refine (conj _ (conj _ (conj _ (conj _ _)))).
      * lia.
      * rewrite B2, B1, skipn_skipn. f_equal. lia.
      * rewrite I2, I1, wrap64_add_l. f_equal. lia.
      * congruence.
      * destruct Hend as [Hn | (t & H9 & Hnth & Ht)]; [left; lia|].
        right. exists t. refine (conj _ (conj _ Ht)); [lia|].
        rewrite B1, nth_error_skipn in Hnth.
        rewrite <- Hnth. f_equal. lia.
    + intros [= <-].
      destruct (@turn_break _ _ _ _ Hbody) as (t & rest & Hbuf & Ht & H8 & ->).
      exists 9%nat. refine (conj _ (conj eq_refl (conj eq_refl (conj eq_refl _)))).
      * rewrite Hbuf. cbn [List.length]. lia.
      * right. exists t. rewrite Hbuf. repeat split; [lia|exact Ht].
  - intros [= <-]. exists 0%nat.
    refine (conj _ (conj eq_refl (conj _ (conj eq_refl _)))).
    + lia.
    + rewrite Z.add_0_r, wrap64_id by exact Hi. reflexivity.
    + left. lia.
Qed.

(** *** The header *)

Lemma atoi_digit (ch : byte) (s : list byte) (n : Z) :
  48 <= u8 ch <= 57 ->
  atoi_digits (ch :: s) n = atoi_digits s (n * 10 + (u8 ch - 48)).
Proof.
  intros Hd. cbn [atoi_digits]. rewrite Z.mod_small by lia.
  destruct (Z.gtb_spec (u8 ch - 48) 9); [lia|reflexivity].
Qed.

Lemma Atoi_digits4 (d1 d2 d3 d4 : byte) :
  48 <= u8 d1 <= 57 -> 48 <= u8 d2 <= 57 ->
  48 <= u8 d3 <= 57 -> 48 <= u8 d4 <= 57 ->
  Atoi [d1; d2; d3; d4]
  = Ok (1000 * (u8 d1 - 48) + 100 * (u8 d2 - 48) + 10 * (u8 d3 - 48)
        + (u8 d4 - 48)).
Proof.
  intros H1 H2 H3 H4. unfold Atoi.
  destruct (Z.eqb_spec (u8 d1) 45) as [E|_]; [lia|].
  destruct (Z.eqb_spec (u8 d1) 43) as [E|_]; [lia|].
  cbn [orb]. rewrite !atoi_digit by assumption. cbn [atoi_digits].
  match goal with |- context [(- 2 ^ 63 <=? ?v) && (?v <? 2 ^ 63)] =>
    replace ((- 2 ^ 63 <=? v) && (v <? 2 ^ 63)) with true
      by (symmetry; apply andb_true_iff; split; [apply Z.leb_le|apply Z.ltb_lt]; lia);
    replace v with (1000 * (u8 d1 - 48) + 100 * (u8 d2 - 48) + 10 * (u8 d3 - 48)
                    + (u8 d4 - 48)) by lia
  end.
  reflexivity.
Qed.

Lemma bytes_eqb_eq (a b : list byte) : bytes_eqb a b = true -> a = b.
Proof.
  unfold bytes_eqb. destruct (list_eq_dec Byte.byte_eq_dec a b); [auto|discriminate].
Qed.

Lemma bytes_eqb_refl (a : list byte) : bytes_eqb a a = true.
Proof.
  unfold bytes_eqb. destruct (list_eq_dec Byte.byte_eq_dec a a); [reflexivity|congruence].
Qed.

Lemma checkHeader_nine (r : rdb) (header rest : list byte) :
  rdb_buf r = header ++ rest -> List.length header = 9%nat ->
  checkHeader r
  = match Atoi (skipn 5 header) with
    | Ok rdbVersion =>
        if negb (bytes_eqb (firstn 5 header) (list_byte_of_string "REDIS"))
           || ((rdbVersion <? VersionMin) || (rdbVersion >? VersionMax))
        then (Err (ErrMsg "invalid header"), advance 9 r)
        else (Ok true, advance 9 r)
    | Err e => (Err (ErrWrap "invalid header" e), advance 9 r)
    | Panic => (Panic, advance 9 r)
    end.
Proof.
  intros Hbuf Hlen. unfold checkHeader, bind.
  change 9 with (Z.of_nat 9).
  rewrite io_ReadFull_ok by (rewrite Hbuf, length_app; lia).
  assert (Hf : firstn 9 (rdb_buf r) = header).
  { rewrite Hbuf, firstn_app, Hlen. change (firstn (9 - 9) rest) with (@nil byte).
    rewrite app_nil_r. apply firstn_all2. lia. }
  assert (Hs : skipn 9 (rdb_buf r) = rest).
  { rewrite Hbuf, skipn_app, Hlen. change (skipn (9 - 9) rest) with rest.
    rewrite skipn_all2 by lia. reflexivity. }
  rewrite Hf.
  assert (Hadv : snd (add_i (Z.of_nat 9) (set_buf r (skipn 9 (rdb_buf r))))
                 = advance 9 r) by reflexivity.
  destruct (add_i (Z.of_nat 9) (set_buf r (skipn 9 (rdb_buf r))))
    as [[u|e|] r1] eqn:Ea; try discriminate Ea.
  cbn [snd] in Hadv. subst r1.
  destruct (Atoi (skipn 5 header)) as [v|e|]; try reflexivity.
  match goal with |- context [if ?c then _ else _] => destruct c end;
    reflexivity.
Qed.

Lemma checkHeader_short (r : rdb) :
  (List.length (rdb_buf r) < 9)%nat ->
  checkHeader r
  = (Err (ErrWrap "failed to read RDB header"
            (if len (rdb_buf r) =? 0 then EOF else ErrUnexpectedEOF)),
     set_buf r []).
Proof.
  intros Hlen. unfold checkHeader, bind, io_ReadFull.
  destruct (Z.leb_spec 9 (len (rdb_buf r))) as [H9|_]; [unfold len in H9; lia|].
  destruct (Z.eqb_spec (len (rdb_buf r)) 0) as [H0|H0]; [|reflexivity].
  unfold fail. f_equal. unfold set_buf. destruct r as [b c i n]. cbn in *.
  destruct b; [reflexivity|discriminate H0].
Qed.

(** An accepted header is the magic and a version from 1 to 9. *)
Lemma checkHeader_ok (r r' : rdb) (res : bool) :
  checkHeader r = (Ok res, r') ->
  res = true /\ r' = advance 9 r /\
  exists version rest v,
    rdb_buf r = list_byte_of_string "REDIS" ++ version ++ rest /\
    List.length version = 4%nat /\
    Atoi version = Ok v /\ VersionMin <= v <= VersionMax.
Proof.
  destruct (Nat.lt_ge_cases (List.length (rdb_buf r)) 9) as [Hs|Hl].
  { rewrite checkHeader_short by exact Hs. discriminate. }
  rewrite (@checkHeader_nine r (firstn 9 (rdb_buf r)) (skipn 9 (rdb_buf r)))
    by (rewrite ?firstn_skipn, ?length_firstn; lia || reflexivity).
  destruct (Atoi _) as [v|e|] eqn:Ea; try discriminate.
  destruct (bytes_eqb _ _) eqn:Em; cbn [negb orb]; [|discriminate].
  destruct (Z.ltb_spec v VersionMin); cbn [orb]; [discriminate|].
  destruct (Z.gtb_spec v VersionMax); [discriminate|].
  intros [= <- <-]. refine (conj eq_refl (conj eq_refl _)).
  exists (skipn 5 (firstn 9 (rdb_buf r))), (skipn 9 (rdb_buf r)), v.
  refine (conj _ (conj _ (conj Ea _))); [| |lia].
  - apply bytes_eqb_eq in Em. rewrite <- Em.
    rewrite app_assoc, firstn_skipn, firstn_skipn. reflexivity.
  - rewrite length_skipn, length_firstn. lia.
Qed.



(** X4: whatever the stream holds and however the load ends, [loadRDB] only
    takes bytes from the front of the stream and only adds commands at the
    end of the log of the destination; it changes neither the destination
    nor the announced size. *)
Theorem load_takes_from_the_front (buf : list byte) (c : Conn) (size : Z) :
  exists r',
    snd (loadRDB buf (Ok c) size) = Some r' /\
    stream_step {| rdb_buf := buf; rdb_conn := c; rdb_i := 0; rdb_n := size |} r'.
Proof.
  unfold loadRDB, bind.
  pose proof (stream_checkHeader
                {| rdb_buf := buf; rdb_conn := c; rdb_i := 0; rdb_n := size |})
    as Hh.
  destruct (checkHeader _) as [[res|e|] r1]; cbn [snd] in Hh.
  - destruct res; cbn [negb].
    + pose proof (stream_loadData r1) as Hd.
      destruct (loadData r1) as [out r2]. cbn [snd] in *.
      exists r2. split; [reflexivity|].
      exact (stream_trans Hh Hd).
    + exists r1. split; [reflexivity|exact Hh].
  - exists r1. split; [reflexivity|exact Hh].
  - exists r1. split; [reflexivity|exact Hh].
Qed.

(** X5: a load that succeeds has counted in [r.i] exactly the bytes it took
    from the stream, the nine bytes of the header included, and it stopped
    for one of two reasons: the count reached the announced size, or the
    EOF opcode was met nine bytes before the end of what was taken. *)
Theorem load_stops_at_size_or_eof (buf : list byte) (c : Conn) (size : Z)
  (r' : rdb) :
  loadRDB buf (Ok c) size = (Ok tt, Some r') ->
  len buf < 2 ^ 63 ->
  exists k : nat,
    (9 <= k <= List.length buf)%nat /\
    rdb_buf r' = skipn k buf /\
    rdb_i r' = Z.of_nat k /\
    (size <= Z.of_nat k \/
     exists t, (18 <= k)%nat /\ nth_error buf (k - 9) = Some t /\
               u8 t = FlagOpcodeEOF).
Proof.
  intros Hrun Hlen. unfold loadRDB, bind in Hrun.
  set (r := {| rdb_buf := buf; rdb_conn := c; rdb_i := 0; rdb_n := size |}) in *.
  destruct (checkHeader r) as [[res|e|] r1] eqn:Hh; try discriminate Hrun.
  destruct (@checkHeader_ok r r1 res Hh)
    as (-> & -> & version & rest & v & Hbuf & Hver & _).
  cbn [negb] in Hrun.
  destruct (loadData (advance 9 r)) as [out r2] eqn:Hd.
  injection Hrun as -> ->.
  pose proof (loadData_total (advance 9 r)) as Htot. rewrite Hd in Htot.
  assert (Hi : - 2 ^ 63 <= rdb_i (advance 9 r) < 2 ^ 63) by apply wrap64_range.
  destruct (@loop_stops _ _ _ _ _ Hi Htot)
    as (k & Lk & Bk & Ik & Nk & Hend).
  assert (H9 : (9 <= List.length buf)%nat).
  { change buf with (rdb_buf r). rewrite Hbuf, !length_app, Hver.
    cbn [List.length list_byte_of_string]. cbn. lia. }
  cbn [advance rdb_buf rdb_i rdb_n] in Lk, Bk, Ik, Nk, Hend.
  rewrite length_skipn in Lk.
  assert (Hik : rdb_i r' = Z.of_nat (9 + k)).
  { rewrite Ik, wrap64_add_l. change (rdb_i r) with 0.
    change (rdb_buf r) with buf in Lk.
    assert (H63 : 0 < 2 ^ 63) by (vm_compute; reflexivity).
    unfold len in Hlen. rewrite wrap64_id by lia. lia. }
  change (rdb_buf r) with buf in *. change (rdb_n r) with size in *.
  exists (9 + k)%nat. refine (conj _ (conj _ (conj Hik _))).
  - lia.
  - rewrite Bk, skipn_skipn. f_equal. lia.
  - destruct Hend as [Hn | (t & Hk9 & Hnth & Ht)].
    + left. rewrite <- Hik. exact Hn.
    + right. exists t. refine (conj _ (conj _ Ht)); [lia|].
      rewrite nth_error_skipn in Hnth. rewrite <- Hnth. f_equal. lia.
Qed.

(** X6: a turn of the loop breaks out of it exactly on the EOF opcode
    followed by eight bytes, which it takes and counts whatever they are:
    the checksum is not verified.  With fewer than eight bytes left the
    turn fails, the stream drained and only the opcode counted. *)
Theorem eof_opcode_ends_the_load (expire : Z) (hasSelectDb : bool) (r : rdb) :
  (forall r',
     loadData_body expire hasSelectDb r = (Ok Break, r') <->
     exists t rest,
       rdb_buf r = t :: rest /\ u8 t = FlagOpcodeEOF /\
       (8 <= List.length rest)%nat /\ r' = advance 9 r) /\
  (forall t rest,
     rdb_buf r = t :: rest -> u8 t = FlagOpcodeEOF ->
     (List.length rest < 8)%nat ->
     loadData_body expire hasSelectDb r
     = (Err (ErrWrap "failed to read checksum"
               (if len rest =? 0 then EOF else ErrUnexpectedEOF)),
        set_buf (advance 1 r) [])).
Proof.
  split.
  - intros r'. split; [apply turn_break|].
    intros (t & rest & Hbuf & Ht & H8 & ->).
    rewrite (turn_eof expire hasSelectDb r Hbuf Ht).
    destruct (Z.leb_spec 8 (len rest)) as [_|Hgt]; [reflexivity|].
    unfold len in Hgt. lia.
  - intros t rest Hbuf Ht H8.
    rewrite (turn_eof expire hasSelectDb r Hbuf Ht).
    destruct (Z.leb_spec 8 (len rest)) as [Hle|_]; [|reflexivity].
    unfold len in Hle. lia.
Qed.

(** X7: on a stream that starts with [REDIS] and four decimal digits, the
    header check takes and counts nine bytes, and accepts exactly the
    versions from 1 to 9. *)
Theorem header_version_digits (r : rdb) (d1 d2 d3 d4 : byte) (rest : list byte) :
  rdb_buf r = list_byte_of_string "REDIS" ++ [d1; d2; d3; d4] ++ rest ->
  48 <= u8 d1 <= 57 -> 48 <= u8 d2 <= 57 ->
  48 <= u8 d3 <= 57 -> 48 <= u8 d4 <= 57 ->
  let v := 1000 * (u8 d1 - 48) + 100 * (u8 d2 - 48) + 10 * (u8 d3 - 48)
           + (u8 d4 - 48) in
  checkHeader r
  = (if (VersionMin <=? v) && (v <=? VersionMax)
     then Ok true else Err (ErrMsg "invalid header"),
     advance 9 r).
Proof.
  intros Hbuf H1 H2 H3 H4 v.
  rewrite (@checkHeader_nine r (list_byte_of_string "REDIS" ++ [d1; d2; d3; d4]) rest)
    by (rewrite <- ?app_assoc; assumption || reflexivity).
  change (skipn 5 (list_byte_of_string "REDIS" ++ [d1; d2; d3; d4]))
    with [d1; d2; d3; d4].
  change (firstn 5 (list_byte_of_string "REDIS" ++ [d1; d2; d3; d4]))
    with (list_byte_of_string "REDIS").
  rewrite Atoi_digits4 by assumption. fold v.
  rewrite bytes_eqb_refl. cbn [negb orb].
  unfold VersionMin, VersionMax.
  destruct (Z.ltb_spec v 1), (Z.gtb_spec v 9), (Z.leb_spec 1 v), (Z.leb_spec v 9);
    try lia; reflexivity.
Qed.

(** X8: the header check never returns [false] without an error: when it
    returns no error it has returned [true], taken and counted nine bytes,
    and the stream started with [REDIS] and a four-byte version that
    [Atoi] reads as a number from 1 to 9.  On a stream of fewer than nine
    bytes it fails, the stream drained and nothing counted. *)
Theorem header_check_outcomes (r : rdb) :
  (forall res r',
     checkHeader r = (Ok res, r') ->
     res = true /\ r' = advance 9 r /\
     exists version rest v,
       rdb_buf r = list_byte_of_string "REDIS" ++ version ++ rest /\
       List.length version = 4%nat /\
       Atoi version = Ok v /\ VersionMin <= v <= VersionMax) /\
  ((List.length (rdb_buf r) < 9)%nat ->
   checkHeader r
   = (Err (ErrWrap "failed to read RDB header"
             (if len (rdb_buf r) =? 0 then EOF else ErrUnexpectedEOF)),
      set_buf r [])).
Proof.
  split; [intros res r'; apply checkHeader_ok|apply checkHeader_short].
Qed.


End Counting.

Lemma load_stops_at_size_or_eof_witness :
  let buf := list_byte_of_string "REDIS0009"
             ++ [xff; x00; x00; x00; x00; x00; x00; x00; x00] in
  let r' := @mkRdb bits_float [] ok_conn 18 18 in
  (@loadRDB bits_float stored_lzf buf (Ok ok_conn) 18 = (Ok tt, Some r') /\
   len buf < 2 ^ 63) /\
  exists k : nat,
    (9 <= k <= List.length buf)%nat /\
    rdb_buf r' = skipn k buf /\
    rdb_i r' = Z.of_nat k /\
    (18 <= Z.of_nat k \/
     exists t, (18 <= k)%nat /\ nth_error buf (k - 9) = Some t /\
               u8 t = FlagOpcodeEOF).
Proof.
  intros buf r'.
  assert (Hrun : @loadRDB bits_float stored_lzf buf (Ok ok_conn) 18
                 = (Ok tt, Some r')) by (vm_compute; reflexivity).
  assert (Hlen : len buf < 2 ^ 63) by (vm_compute; reflexivity).
  split; [split; assumption|].
  exact (@load_stops_at_size_or_eof bits_float stored_lzf buf ok_conn 18 r'
           Hrun Hlen).
Defined.

Lemma eof_opcode_ends_the_load_witness :
  let r := @mkRdb bits_float [xff; x01; x02] ok_conn 0 3 in
  (rdb_buf r = xff :: [x01; x02] /\ u8 xff = FlagOpcodeEOF /\
   (List.length [x01; x02] < 8)%nat) /\
  @loadData_body bits_float stored_lzf 0 false r
  = (Err (ErrWrap "failed to read checksum" ErrUnexpectedEOF),
     set_buf (advance 1 r) []).
Proof.
  intros r.
  assert (H8 : (List.length [x01; x02] < 8)%nat) by (cbn; lia).
  split; [repeat split; exact H8|].
  exact (proj2 (@eof_opcode_ends_the_load bits_float stored_lzf 0 false r)
           xff [x01; x02] eq_refl eq_refl H8).
Defined.

Lemma header_version_digits_witness :
  let r := @mkRdb bits_float (list_byte_of_string "REDIS0010") ok_conn 0 9 in
  (rdb_buf r = list_byte_of_string "REDIS" ++ [x30; x30; x31; x30] ++ [] /\
   48 <= u8 x30 <= 57 /\ 48 <= u8 x31 <= 57) /\
  checkHeader r = (Err (ErrMsg "invalid header"), advance 9 r).
Proof.
  intros r.
  assert (H0 : 48 <= u8 x30 <= 57) by (vm_compute; split; discriminate).
  assert (H1 : 48 <= u8 x31 <= 57) by (vm_compute; split; discriminate).
  split; [repeat split; try apply H0; apply H1|].
  exact (@header_version_digits bits_float r x30 x30 x31 x30 [] eq_refl
           H0 H0 H1 H0).
Defined.

Lemma header_check_outcomes_witness :
  let r := @mkRdb bits_float (list_byte_of_string "REDIS") ok_conn 0 5 in
  (List.length (rdb_buf r) < 9)%nat /\
  checkHeader r
  = (Err (ErrWrap "failed to read RDB header" ErrUnexpectedEOF), set_buf r []).
Proof.
  intros r. assert (H9 : (List.length (rdb_buf r) < 9)%nat) by (cbn; lia).
  split; [exact H9|].
  exact (proj2 (@header_check_outcomes bits_float r) H9).
Defined.


(** ** Lengths and strings of the stream *)

Section Strings.

Context {F : GoFloat} {L : Lzf}.

Lemma length_encode_length (n : Z) :
  List.length (encode_length n)
  = if n <? 64 then 1%nat else if n <? 16384 then 2%nat
    else if n <? 2 ^ 32 then 5%nat else 9%nat.
Proof.
  unfold encode_length.
  destruct (n <? 64); [reflexivity|]. destruct (n <? 16384); [reflexivity|].
  destruct (n <? 2 ^ 32); cbn [List.length]; rewrite length_rev, length_le_bytes;
    reflexivity.
Qed.

Lemma loadLen_encode_length (r : rdb) (n : Z) (rest : list byte) :
  0 <= n < 2 ^ 64 -> rdb_buf r = encode_length n ++ rest ->
  loadLen r = (Ok (n, false), advance (List.length (encode_length n)) r).
Proof.
  intros Hn. rewrite length_encode_length. unfold encode_length.
  destruct (Z.ltb_spec n 64) as [H6|H6].
  { intros Hbuf. cbn [app] in Hbuf.
    rewrite (loadLen_6bit r Hbuf) by (rewrite u8_byte_of_Z_small; lia).
    rewrite u8_byte_of_Z_small, Z.mod_small by lia. reflexivity. }
  destruct (Z.ltb_spec n 16384) as [H14|H14].
  { intros Hbuf. cbn [app] in Hbuf.
    assert (Hq : 0 <= n / 256 < 64).
    { split; [apply Z.div_pos; lia|apply Z.div_lt_upper_bound; lia]. }
    rewrite (loadLen_14bit r Hbuf) by (rewrite u8_byte_of_Z_small; lia).
    rewrite u8_byte_of_Z_small, u8_byte_of_Z by lia.
    replace ((64 + n / 256) mod 64) with (n / 256)
      by (apply Z.mod_unique with (q := 1); lia).
    do 3 f_equal. rewrite (Z.div_mod n 256) at 3 by lia. lia. }
  destruct (Z.ltb_spec n (2 ^ 32)) as [H32|H32].
  { intros Hbuf. cbn [le_bytes rev app] in Hbuf.
    rewrite (loadLen_32bit r Hbuf) by reflexivity.
    rewrite !u8_byte_of_Z. do 3 f_equal.
    change (2 ^ 32) with 4294967296 in H32.
    change (2 ^ 24) with 16777216. change (2 ^ 16) with 65536.
    change (2 ^ 8) with 256.
    Z.to_euclidean_division_equations. lia. }
  intros Hbuf. cbn [le_bytes rev app] in Hbuf.
  rewrite (loadLen_64bit r Hbuf) by reflexivity.
  rewrite !u8_byte_of_Z. do 3 f_equal.
  change (2 ^ 64) with 18446744073709551616 in Hn.
  change (2 ^ 56) with 72057594037927936.
  change (2 ^ 48) with 281474976710656.
  change (2 ^ 40) with 1099511627776.
  change (2 ^ 32) with 4294967296.
  change (2 ^ 24) with 16777216. change (2 ^ 16) with 65536.
  change (2 ^ 8) with 256.
  Z.to_euclidean_division_equations. lia.
Qed.

Lemma rdb_buf_advance (k : nat) (r : rdb) (taken rest : list byte) :
  rdb_buf r = taken ++ rest -> List.length taken = k ->
  rdb_buf (advance k r) = rest.
Proof.
  intros Hbuf Hk. unfold advance. cbn [rdb_buf].
  rewrite Hbuf, <- Hk, skipn_app, Nat.sub_diag, skipn_all. reflexivity.
Qed.

(** [io.ReadFull] then [r.i += n] on a stream that holds enough. *)
Lemma ReadFull_add_i (r : rdb) (v rest : list byte) :
  rdb_buf r = v ++ rest ->
  (x <- io_ReadFull (len v) ;; let '(res, n, err) := x in add_i n ;;; ret (res, err)) r
  = (Ok (v, None), advance (List.length v) r).
Proof.
  intros Hbuf. unfold bind, len.
  rewrite io_ReadFull_ok by (rewrite Hbuf, length_app; lia).
  rewrite Hbuf, firstn_app, Nat.sub_diag, firstn_all, app_nil_r.
  rewrite skipn_app, Nat.sub_diag, skipn_all.
  unfold add_i, ret, set_buf, advance. cbn [rdb_buf rdb_conn rdb_i rdb_n].
  rewrite Hbuf, skipn_app, Nat.sub_diag, skipn_all. reflexivity.
Qed.

Lemma loadString_at (r : rdb) (v rest : list byte) :
  len v < 2 ^ 64 -> rdb_buf r = encode_length (len v) ++ v ++ rest ->
  loadString r
  = (Ok v, advance (List.length (encode_length (len v)) + List.length v) r).
Proof.
  intros Hv Hbuf. pose proof (len_nonneg v) as Hv0.
  unfold loadString, bind.
  rewrite (@loadLen_encode_length r (len v) (v ++ rest)) by (lia || exact Hbuf).
  set (k := List.length (encode_length (len v))) in *.
  assert (Hb1 : rdb_buf (advance k r) = v ++ rest)
    by (apply (@rdb_buf_advance k r (encode_length (len v)) (v ++ rest) Hbuf);
        reflexivity).
  pose proof (@ReadFull_add_i (advance k r) v rest Hb1) as Hread.
  unfold bind in Hread.
  destruct (io_ReadFull (len v) (advance k r)) as [[[[res n] err]|e|] r1];
    try discriminate Hread.
  destruct (add_i n r1) as [[u|e|] r2]; try discriminate Hread.
  unfold ret in Hread. injection Hread as -> -> ->.
  rewrite advance_advance. reflexivity.
Qed.



(** X10: the length prefix, round trip: [loadLen] reads back every length
    below 2^64 from its shortest encoding (one, two, five or nine bytes),
    says it is not a special encoding, and takes and counts exactly the
    bytes of the prefix. *)
Theorem length_prefix_round_trip (r : rdb) (n : Z) (rest : list byte) :
  0 <= n < 2 ^ 64 -> rdb_buf r = encode_length n ++ rest ->
  loadLen r = (Ok (n, false), advance (List.length (encode_length n)) r) /\
  (1 <= List.length (encode_length n) <= 9)%nat.
Proof.
  intros Hn Hbuf. split; [exact (@loadLen_encode_length r n rest Hn Hbuf)|].
  rewrite length_encode_length.
  destruct (n <? 64); [lia|]. destruct (n <? 16384); [lia|].
  destruct (n <? 2 ^ 32); lia.
Qed.

(** X11: a string stored raw, round trip: [loadString] returns the bytes
    that follow the length prefix, and takes and counts exactly the prefix
    and the bytes. *)
Theorem raw_string_round_trip (r : rdb) (v rest : list byte) :
  len v < 2 ^ 64 -> rdb_buf r = encode_string v ++ rest ->
  loadString r = (Ok v, advance (List.length (encode_string v)) r).
Proof.
  intros Hv Hbuf. unfold encode_string in *.
  rewrite <- app_assoc in Hbuf. rewrite length_app.
  exact (@loadString_at r v rest Hv Hbuf).
Qed.


End Strings.

Lemma length_prefix_round_trip_witness :
  let r := @mkRdb bits_float (encode_length 70000 ++ [x2a]) ok_conn 0 6 in
  (0 <= 70000 < 2 ^ 64 /\ rdb_buf r = encode_length 70000 ++ [x2a]) /\
  loadLen r = (Ok (70000, false), advance 5 r).
Proof.
  intros r.
  assert (Hn : 0 <= 70000 < 2 ^ 64) by (vm_compute; split; [discriminate|reflexivity]).
  split; [split; [exact Hn|reflexivity]|].
  exact (proj1 (@length_prefix_round_trip bits_float r 70000 [x2a] Hn eq_refl)).
Defined.

Lemma raw_string_round_trip_witness :
  let v := list_byte_of_string "key" in
  let r := @mkRdb bits_float (encode_string v ++ [x2a]) ok_conn 0 5 in
  (len v < 2 ^ 64 /\ rdb_buf r = encode_string v ++ [x2a]) /\
  @loadString bits_float stored_lzf r = (Ok v, advance 4 r).
Proof.
  intros v r.
  assert (Hv : len v < 2 ^ 64) by (vm_compute; reflexivity).
  split; [split; [exact Hv|reflexivity]|].
  exact (@raw_string_round_trip bits_float stored_lzf r v [x2a] Hv eq_refl).
Defined.


(** ** Collections stored item by item *)

Section Collections.

Context {F : GoFloat} {L : Lzf}.

Lemma expect_int_ok (msg : string) (expected : Z) (rp : reply) (r : rdb) :
  fst (expect_int msg expected rp r) = Ok tt <-> rp = ReplyInt expected.
Proof.
  unfold expect_int. destruct rp as [s|z|e]; cbn [redigo_Int].
  - split; discriminate.
  - destruct (Z.eqb_spec expected z) as [->|Hne]; cbn.
    + split; reflexivity.
    + split; [discriminate|]. intros [= ->]. congruence.
  - split; discriminate.
Qed.

Lemma flat_map_singleton {A B : Type} (f : A -> B) (l : list A) :
  flat_map (fun a => [f a]) l = map f l.
Proof. induction l as [|a l IH]; cbn; [reflexivity|]. rewrite IH. reflexivity. Qed.

Variable A : Type.
Variable P : A -> Prop.
Variable enc : A -> list byte.
Variable args : A -> list arg.
Variable body : M rdb (list arg).

Hypothesis body_reads :
  forall a r k rest,
    P a -> rdb_buf (advance k r) = enc a ++ rest ->
    body (advance k r) = (Ok (args a), advance (k + List.length (enc a)) r).

Lemma items_loop (items : list A) :
  forall (r : rdb) (k : nat) (ent : list arg) (rest : list byte),
    Forall P items ->
    rdb_buf (advance k r) = flat_map enc items ++ rest ->
    for_loop (List.length items) body ent (advance k r)
    = (Ok (ent ++ flat_map args items),
       advance (k + List.length (flat_map enc items)) r).
Proof.
  induction items as [|a items IH]; intros r k ent rest HP Hbuf.
  - cbn. rewrite app_nil_r, Nat.add_0_r. reflexivity.
  - inversion HP as [|a' items' Ha Hitems]; subst.
    cbn [flat_map] in Hbuf |- *. rewrite <- app_assoc in Hbuf.
    cbn [List.length for_loop]. unfold bind at 1.
    rewrite (@body_reads a r k _ Ha Hbuf).
    assert (Hb1 : rdb_buf (advance (k + List.length (enc a)) r)
                  = flat_map enc items ++ rest).
    { rewrite <- advance_advance.
      apply (@rdb_buf_advance _ _ _ (enc a) _ Hbuf). reflexivity. }
    rewrite (IH r _ (ent ++ args a) rest Hitems Hb1).
    rewrite <- app_assoc, length_app, Nat.add_assoc. reflexivity.
Qed.

(** A collection: the count of the items, the items, one command for all
    of them and the check of the integer it answers. *)
Lemma collection_load (name msg : string) (key : list byte)
  (items : list A) (rest : list byte) (r : rdb) :
  len items < 2 ^ 63 -> Forall P items ->
  rdb_buf r = encode_length (len items) ++ flat_map enc items ++ rest ->
  let c := {| cmd_name := name;
              cmd_args := ArgBytes key :: flat_map args items |} in
  let taken := List.length (encode_length (len items) ++ flat_map enc items) in
  (x <- loadLen ;;
   let '(length, _) := x in
   ent <- for_loop (Z.to_nat length) body [] ;;
   rp <- Do name (ArgBytes key :: ent) ;;
   expect_int msg (int64 length) rp) r
  = expect_int msg (len items) (answer r c) (sending c (advance taken r)).
Proof.
  intros Hn HP Hbuf c taken. pose proof (len_nonneg items) as Hn0.
  assert (H64 : 2 ^ 63 < 2 ^ 64) by (vm_compute; reflexivity).
  unfold bind at 1.
  rewrite (@loadLen_encode_length _ r (len items) (flat_map enc items ++ rest))
    by (lia || exact Hbuf).
  rewrite to_nat_len. unfold bind at 1.
  assert (Hb1 : rdb_buf (advance (List.length (encode_length (len items))) r)
                = flat_map enc items ++ rest).
  { apply (@rdb_buf_advance _ _ _ (encode_length (len items)) _ Hbuf).
    reflexivity. }
  rewrite (@items_loop items r _ [] _ HP Hb1). cbn [app].
  unfold bind, Do. unfold int64. rewrite signed_id by (simpl; lia).
  subst taken. rewrite length_app. reflexivity.
Qed.

End Collections.

Section Loaders.

Context {F : GoFloat} {L : Lzf}.

Lemma string_reads (v : list byte) (r : rdb) (k : nat) (rest : list byte) :
  len v < 2 ^ 64 -> rdb_buf (advance k r) = encode_string v ++ rest ->
  loadString (advance k r)
  = (Ok v, advance (k + List.length (encode_string v)) r).
Proof.
  intros Hv Hbuf. unfold encode_string in *. rewrite <- app_assoc in Hbuf.
  rewrite (@loadString_at _ _ (advance k r) v rest Hv Hbuf).
  rewrite advance_advance, length_app. reflexivity.
Qed.

Lemma item_reads (v : list byte) (r : rdb) (k : nat) (rest : list byte) :
  len v < 2 ^ 64 -> rdb_buf (advance k r) = encode_string v ++ rest ->
  (val <- loadString ;; ret [ArgBytes val]) (advance k r)
  = (Ok [ArgBytes v], advance (k + List.length (encode_string v)) r).
Proof.
  intros Hv Hbuf. unfold bind. rewrite (@string_reads v r k rest Hv Hbuf). reflexivity.
Qed.

Lemma pair_reads (p : list byte * list byte) (r : rdb) (k : nat)
  (rest : list byte) :
  len (fst p) < 2 ^ 64 /\ len (snd p) < 2 ^ 64 ->
  rdb_buf (advance k r) = (encode_string (fst p) ++ encode_string (snd p)) ++ rest ->
  (field <- loadString ;;
   value <- loadString ;;
   ret [ArgBytes field; ArgBytes value]) (advance k r)
  = (Ok [ArgBytes (fst p); ArgBytes (snd p)],
     advance (k + List.length (encode_string (fst p) ++ encode_string (snd p))) r).
Proof.
  destruct p as [f v]. cbn [fst snd]. intros [Hf Hv] Hbuf.
  rewrite <- app_assoc in Hbuf. unfold bind.
  rewrite (@string_reads f r k _ Hf Hbuf).
  assert (Hb1 : rdb_buf (advance (k + List.length (encode_string f)) r)
                = encode_string v ++ rest).
  { rewrite <- advance_advance.
    apply (@rdb_buf_advance _ _ _ (encode_string f) _ Hbuf). reflexivity. }
  rewrite (@string_reads v r _ _ Hv Hb1).
  rewrite length_app, Nat.add_assoc. reflexivity.
Qed.

Lemma loadBinaryFloat_bits (bits : Z) (r : rdb) (rest : list byte) :
  0 <= bits < 2 ^ 64 -> rdb_buf r = le_bytes 8 bits ++ rest ->
  loadBinaryFloat r = (Ok (Float64frombits bits), advance 8 r).
Proof.
  intros Hb Hbuf. unfold loadBinaryFloat, bind.
  change 8 with (Z.of_nat 8).
  rewrite io_ReadFull_ok by (rewrite Hbuf, length_app, length_le_bytes; lia).
  unfold add_i, ret, set_buf, advance. cbn [rdb_buf rdb_conn rdb_i rdb_n].
  rewrite Hbuf.
  replace (firstn 8 (le_bytes 8 bits ++ rest)) with (le_bytes 8 bits)
    by (rewrite firstn_app, length_le_bytes, firstn_all2
          by (rewrite length_le_bytes; lia);
        cbn [Nat.sub firstn]; rewrite app_nil_r; reflexivity).
  unfold LittleEndian.Uint64.
  rewrite firstn_all2 by (rewrite length_le_bytes; lia).
  rewrite le_value_le_bytes. change (256 ^ Z.of_nat 8) with (2 ^ 64).
  rewrite Z.mod_small by exact Hb. reflexivity.
Qed.

Lemma scored_reads (t : byte) (p : list byte * Z) (r : rdb) (k : nat)
  (rest : list byte) :
  u8 t = TypeZset2 ->
  len (fst p) < 2 ^ 64 /\ 0 <= snd p < 2 ^ 64 ->
  rdb_buf (advance k r) = (encode_string (fst p) ++ le_bytes 8 (snd p)) ++ rest ->
  (member <- loadString ;;
   score <- loadZSet_score t ;;
   ret [ArgFloat score; ArgBytes member]) (advance k r)
  = (Ok [ArgFloat (Float64frombits (snd p)); ArgBytes (fst p)],
     advance (k + List.length (encode_string (fst p) ++ le_bytes 8 (snd p))) r).
Proof.
  destruct p as [m bits]. cbn [fst snd]. intros Ht [Hm Hb] Hbuf.
  rewrite <- app_assoc in Hbuf. unfold bind.
  rewrite (@string_reads m r k _ Hm Hbuf).
  assert (Hb1 : rdb_buf (advance (k + List.length (encode_string m)) r)
                = le_bytes 8 bits ++ rest).
  { rewrite <- advance_advance.
    apply (@rdb_buf_advance _ _ _ (encode_string m) _ Hbuf). reflexivity. }
  unfold loadZSet_score. rewrite Ht. cbn [Z.eqb Pos.eqb TypeZset2].
  rewrite (@loadBinaryFloat_bits bits _ rest Hb Hb1).
  rewrite advance_advance, length_app, length_le_bytes, Nat.add_assoc.
  reflexivity.
Qed.

(** X13: a list and a set stored item by item, round trip.  [loadList]
    and [loadSet] read the count and the items, take and count exactly
    their bytes, send one command (RPUSH for a list, SADD for a set) with
    the key and the items in their order, and succeed exactly when the
    destination answers the count of the items. *)
Theorem list_and_set_round_trip (key : list byte) (items : list (list byte))
  (rest : list byte) (r : rdb) :
  len items < 2 ^ 63 -> Forall (fun v => len v < 2 ^ 64) items ->
  rdb_buf r = encode_length (len items) ++ flat_map encode_string items ++ rest ->
  let rpush := {| cmd_name := "RPUSH";
                  cmd_args := ArgBytes key :: map ArgBytes items |} in
  let sadd := {| cmd_name := "SADD";
                 cmd_args := ArgBytes key :: map ArgBytes items |} in
  let taken :=
    List.length (encode_length (len items) ++ flat_map encode_string items) in
  (loadList key r
   = expect_int "failed to RPUSH list" (len items) (answer r rpush)
       (sending rpush (advance taken r)) /\
   (fst (loadList key r) = Ok tt <-> answer r rpush = ReplyInt (len items))) /\
  (loadSet key r
   = expect_int "failed to SADD" (len items) (answer r sadd)
       (sending sadd (advance taken r)) /\
   (fst (loadSet key r) = Ok tt <-> answer r sadd = ReplyInt (len items))).
Proof.
  intros Hn HP Hbuf rpush sadd taken.
  assert (Hlist : loadList key r
                  = expect_int "failed to RPUSH list" (len items) (answer r rpush)
                      (sending rpush (advance taken r))).
  { subst rpush taken. rewrite <- flat_map_singleton.
    exact (@collection_load _ _ _ encode_string (fun v => [ArgBytes v]) _
             item_reads "RPUSH"%string "failed to RPUSH list"%string key items
             rest r Hn HP Hbuf). }
  assert (Hset : loadSet key r
                 = expect_int "failed to SADD" (len items) (answer r sadd)
                     (sending sadd (advance taken r))).
  { subst sadd taken. rewrite <- flat_map_singleton.
    exact (@collection_load _ _ _ encode_string (fun v => [ArgBytes v]) _
             item_reads "SADD"%string "failed to SADD"%string key items
             rest r Hn HP Hbuf). }
  split.
  - split; [exact Hlist|]. rewrite Hlist. apply expect_int_ok.
  - split; [exact Hset|]. rewrite Hset. apply expect_int_ok.
Qed.

(** X14: a hash stored pair by pair, round trip: [loadHashMap] sends one
    HSET with the key and then each field followed by its value, in their
    order, takes and counts exactly their bytes, and succeeds exactly when
    the destination answers the count of the pairs. *)
Theorem hash_round_trip (key : list byte)
  (pairs : list (list byte * list byte)) (rest : list byte) (r : rdb) :
  len pairs < 2 ^ 63 ->
  Forall (fun p => len (fst p) < 2 ^ 64 /\ len (snd p) < 2 ^ 64) pairs ->
  let enc := fun p : list byte * list byte =>
               encode_string (fst p) ++ encode_string (snd p) in
  rdb_buf r = encode_length (len pairs) ++ flat_map enc pairs ++ rest ->
  let c := {| cmd_name := "HSET";
              cmd_args :=
                ArgBytes key
                :: flat_map (fun p => [ArgBytes (fst p); ArgBytes (snd p)]) pairs |} in
  let taken := List.length (encode_length (len pairs) ++ flat_map enc pairs) in
  loadHashMap key r
  = expect_int "failed to HSET" (len pairs) (answer r c)
      (sending c (advance taken r)) /\
  (fst (loadHashMap key r) = Ok tt <-> answer r c = ReplyInt (len pairs)).
Proof.
  intros Hn HP enc Hbuf c taken.
  assert (Hload : loadHashMap key r
                  = expect_int "failed to HSET" (len pairs) (answer r c)
                      (sending c (advance taken r))).
  { subst c taken.
    exact (@collection_load _ _ _ enc
             (fun p => [ArgBytes (fst p); ArgBytes (snd p)]) _
             pair_reads "HSET"%string "failed to HSET"%string key pairs rest r Hn HP Hbuf). }
  split; [exact Hload|]. rewrite Hload. apply expect_int_ok.
Qed.

(** X15: a sorted set of type ZSET2, round trip: each member is followed
    by its score on eight bytes, the bits of a float, little-endian;
    [loadZSet] sends one ZADD with the key and then, for each member in
    order, the score before the member; it takes and counts exactly their
    bytes and succeeds exactly when the destination answers the count of
    the members. *)
Theorem zset2_round_trip (key : list byte) (t : byte)
  (members : list (list byte * Z)) (rest : list byte) (r : rdb) :
  u8 t = TypeZset2 ->
  len members < 2 ^ 63 ->
  Forall (fun p => len (fst p) < 2 ^ 64 /\ 0 <= snd p < 2 ^ 64) members ->
  let enc := fun p : list byte * Z => encode_string (fst p) ++ le_bytes 8 (snd p) in
  rdb_buf r = encode_length (len members) ++ flat_map enc members ++ rest ->
  let c := {| cmd_name := "ZADD";
              cmd_args :=
                ArgBytes key
                :: flat_map (fun p => [ArgFloat (Float64frombits (snd p));
                                       ArgBytes (fst p)]) members |} in
  let taken := List.length (encode_length (len members) ++ flat_map enc members) in
  loadZSet key t r
  = expect_int "failed to ZADD" (len members) (answer r c)
      (sending c (advance taken r)) /\
  (fst (loadZSet key t r) = Ok tt <-> answer r c = ReplyInt (len members)).
Proof.
  intros Ht Hn HP enc Hbuf c taken.
  assert (Hload : loadZSet key t r
                  = expect_int "failed to ZADD" (len members) (answer r c)
                      (sending c (advance taken r))).
  { subst c taken.
    exact (@collection_load _ _ _ enc
             (fun p => [ArgFloat (Float64frombits (snd p)); ArgBytes (fst p)]) _
             (fun p r k rest => @scored_reads t p r k rest Ht)
             "ZADD"%string "failed to ZADD"%string key members rest r Hn HP Hbuf). }
  split; [exact Hload|]. rewrite Hload. apply expect_int_ok.
Qed.

End Loaders.

Lemma list_and_set_round_trip_witness :
  let key := [x6b] in
  let items := [[x61]; [x62; x63]] in
  let r := @mkRdb bits_float
             (encode_length (len items) ++ flat_map encode_string items ++ [])
             counting_conn 0 6 in
  let c := {| cmd_name := "RPUSH";
              cmd_args := ArgBytes key :: map ArgBytes items |} in
  (len items < 2 ^ 63 /\ Forall (fun v => len v < 2 ^ 64) items) /\
  @loadList bits_float stored_lzf key r = (Ok tt, sending c (advance 6 r)).
Proof.
  intros key items r c.
  assert (Hn : len items < 2 ^ 63) by (vm_compute; reflexivity).
  assert (HP : Forall (fun v => len v < 2 ^ 64) items)
    by (repeat (constructor; [vm_compute; reflexivity|]); constructor).
  split; [split; assumption|].
  exact (proj1 (proj1 (@list_and_set_round_trip bits_float stored_lzf key items
                         [] r Hn HP eq_refl))).
Defined.

Lemma hash_round_trip_witness :
  let key := [x6b] in
  let pairs := [([x66], [x76; x77])] in
  let enc := fun p : list byte * list byte =>
               encode_string (fst p) ++ encode_string (snd p) in
  let r := @mkRdb bits_float
             (encode_length (len pairs) ++ flat_map enc pairs ++ [])
             ok_conn 0 6 in
  let c := {| cmd_name := "HSET";
              cmd_args := [ArgBytes key; ArgBytes [x66]; ArgBytes [x76; x77]] |} in
  (len pairs < 2 ^ 63 /\
   Forall (fun p => len (fst p) < 2 ^ 64 /\ len (snd p) < 2 ^ 64) pairs) /\
  @loadHashMap bits_float stored_lzf key r
  = (Err (ErrWrap "failed to HSET" ErrReply), sending c (advance 6 r)).
Proof.
  intros key pairs enc r c.
  assert (Hn : len pairs < 2 ^ 63) by (vm_compute; reflexivity).
  assert (HP : Forall (fun p => len (fst p) < 2 ^ 64 /\ len (snd p) < 2 ^ 64) pairs)
    by (repeat (constructor; [split; vm_compute; reflexivity|]); constructor).
  split; [split; assumption|].
  exact (proj1 (@hash_round_trip bits_float stored_lzf key pairs [] r
                  Hn HP eq_refl)).
Defined.

Lemma zset2_round_trip_witness :
  let key := [x6b] in
  let members := [([x6d], 0x3ff0000000000000)] in
  let enc := fun p : list byte * Z => encode_string (fst p) ++ le_bytes 8 (snd p) in
  let r := @mkRdb bits_float
             (encode_length (len members) ++ flat_map enc members ++ [])
             ok_conn 0 11 in
  let c := {| cmd_name := "ZADD";
              cmd_args := [ArgBytes key; ArgFloat (0x3ff0000000000000 : @float64 bits_float);
                           ArgBytes [x6d]] |} in
  (u8 x05 = TypeZset2 /\ len members < 2 ^ 63 /\
   Forall (fun p => len (fst p) < 2 ^ 64 /\ 0 <= snd p < 2 ^ 64) members) /\
  @loadZSet bits_float stored_lzf key x05 r
  = (Err (ErrWrap "failed to ZADD" ErrReply), sending c (advance 11 r)).
Proof.
  intros key members enc r c.
  assert (Hn : len members < 2 ^ 63) by (vm_compute; reflexivity).
  assert (HP : Forall (fun p => len (fst p) < 2 ^ 64 /\ 0 <= snd p < 2 ^ 64) members).
  { apply Forall_cons; [|apply Forall_nil].
    cbn [fst snd]. split; [vm_compute; reflexivity|].
    split; [vm_compute; discriminate|vm_compute; reflexivity]. }
  split; [repeat split; try assumption; reflexivity|].
  exact (proj1 (@zset2_round_trip bits_float stored_lzf key x05 members [] r
                  eq_refl Hn HP eq_refl)).
Defined.

(** ** Records and opcodes *)

Section Records.

Context {F : GoFloat} {L : Lzf}.

Ltac type_tests t :=
  unfold TypeString, TypeList, TypeSet, TypeZset, TypeZset2, TypeHash,
    TypeListQuickList, TypeHashZipMap, TypeListZipList, TypeSetIntSet,
    TypeZsetZipList, TypeHashZipList, TypeStreamListPacks, TypeModule,
    TypeModule2;
  repeat match goal with
         | |- context [u8 t =? ?k] =>
             destruct (Z.eqb_spec (u8 t) k); [exfalso; lia|]
         end;
  cbn [orb].

(** X16: the object types the loader does not handle.  For a stream
    (type 15), a module (types 6 and 7) and every type it does not know (8,
    and 16 and above), [loadValue] returns its error at once: it takes no
    byte, sends no command, and the pending expiry is not sent either. *)
Theorem unsupported_types (key : list byte) (t : byte) (expire : Z) (r : rdb) :
  (u8 t = TypeStreamListPacks ->
   loadValue key t expire r = (Err ErrUnsupportedStreams, r)) /\
  (u8 t = TypeModule \/ u8 t = TypeModule2 ->
   loadValue key t expire r = (Err ErrUnsupportedModules, r)) /\
  (u8 t = 8 \/ 16 <= u8 t ->
   loadValue key t expire r = (Err (ErrUnhandledType (u8 t)), r)).
Proof.
  refine (conj _ (conj _ _)).
  - intros Ht. unfold loadValue, bind. rewrite Ht. reflexivity.
  - intros [Ht|Ht]; unfold loadValue, bind; rewrite Ht; reflexivity.
  - intros Ht. unfold loadValue, bind. type_tests t. reflexivity.
Qed.

Lemma expect_ok_cases (msg : string) (rp : reply) (r : rdb) :
  (rp = ReplyStatus "OK" /\ expect_ok msg rp r = (Ok tt, r)) \/
  (rp <> ReplyStatus "OK" /\ exists e, expect_ok msg rp r = (Err e, r)).
Proof.
  unfold expect_ok. destruct rp as [s|z|e]; cbn [redigo_String].
  - destruct (String.eqb_spec s "OK") as [->|Hne].
    + left. split; reflexivity.
    + right. split; [congruence|]. eexists. reflexivity.
  - right. split; [discriminate|]. eexists. reflexivity.
  - right. split; [discriminate|]. eexists. reflexivity.
Qed.

(** X17: a string record.  [loadValue] takes and counts the bytes of the
    value and sends SET with the key and the value.  When the destination
    does not answer [OK] it fails and sends nothing more: the pending
    expiry is lost.  When it answers [OK], the expiry, if one is pending,
    is sent as PEXPIREAT, and only an error answer to it makes the load
    fail. *)
Theorem string_record (key val rest : list byte) (t : byte) (expire : Z)
  (r : rdb) :
  u8 t = TypeString -> len val < 2 ^ 64 ->
  rdb_buf r = encode_string val ++ rest ->
  let set := {| cmd_name := "SET"; cmd_args := [ArgBytes key; ArgBytes val] |} in
  let pexpireat := {| cmd_name := "PEXPIREAT";
                      cmd_args := [ArgBytes key; ArgInt64 expire] |} in
  let r1 := sending set (advance (List.length (encode_string val)) r) in
  (answer r set <> ReplyStatus "OK" ->
   exists e, loadValue key t expire r = (Err e, r1)) /\
  (answer r set = ReplyStatus "OK" -> expire <= 0 ->
   loadValue key t expire r = (Ok tt, r1)) /\
  (answer r set = ReplyStatus "OK" -> 0 < expire ->
   loadValue key t expire r
   = (match answer r1 pexpireat with
      | ReplyErr e => Err (ErrWrap "failed to expire key" e)
      | _ => Ok tt
      end, sending pexpireat r1)).
Proof.
  intros Ht Hv Hbuf set pexpireat r1.
  assert (Hval : (val <- loadString ;;
                  rp <- Do "SET" [ArgBytes key; ArgBytes val] ;;
                  expect_ok "failed to SET val" rp) r
                 = expect_ok "failed to SET val" (answer r set) r1).
  { unfold bind at 1.
    unfold encode_string in Hbuf. rewrite <- app_assoc in Hbuf.
    rewrite (@loadString_at _ _ r val rest Hv Hbuf).
    subst r1. unfold encode_string. rewrite length_app. reflexivity. }
  assert (Hload : loadValue key t expire r
                  = (expect_ok "failed to SET val" (answer r set) ;;;
                     if expire >? 0 then
                       rp <- Do "PEXPIREAT" [ArgBytes key; ArgInt64 expire] ;;
                       match rp with
                       | ReplyErr e => fail (ErrWrap "failed to expire key" e)
                       | _ => ret tt
                       end
                     else ret tt) r1).
  { unfold loadValue. rewrite Ht. change (TypeString =? TypeString) with true.
    cbv iota. unfold bind at 1. rewrite Hval. reflexivity. }
  rewrite Hload. clear Hload Hval. unfold bind, Do.
  destruct (expect_ok_cases "failed to SET val" (answer r set) r1)
    as [[Hok Hexp] | [Hne (e & Hexp)]]; rewrite Hexp.
  - refine (conj _ (conj _ _)).
    + intros Hne. congruence.
    + intros _ He. destruct (Z.gtb_spec expire 0); [lia|reflexivity].
    + intros _ He. destruct (Z.gtb_spec expire 0); [|lia].
      subst pexpireat. unfold answer.
      destruct (respond (rdb_conn r1) (sent (rdb_conn r1)) _); reflexivity.
  - refine (conj _ (conj _ _)).
    + intros _. exists e. reflexivity.
    + intros Hok. congruence.
    + intros Hok. congruence.
Qed.

Lemma discard_loadScript (script : list byte) (r : rdb) :
  discard (loadScript script) r
  = (Ok tt, sending {| cmd_name := "SCRIPT LOAD";
                       cmd_args := [ArgBytes script] |} r).
Proof.
  unfold discard, loadScript, bind, Do, sending.
  destruct (redigo_Int _) as [z|e|] eqn:E; try reflexivity.
  exfalso. revert E. unfold redigo_Int.
  destruct (respond _ _ _); discriminate.
Qed.

(** X18: the AUX opcode.  The turn takes and counts the opcode, the key
    and the value; for the key [lua] it sends the value in a SCRIPT LOAD,
    for any other key it sends nothing.  Whatever the destination answers,
    the turn goes on to the next one, the loop variables unchanged. *)
Theorem aux_turn (expire : Z) (hasSelectDb : bool) (r : rdb) (t : byte)
  (key val rest : list byte) :
  u8 t = FlagOpcodeAux -> len key < 2 ^ 64 -> len val < 2 ^ 64 ->
  rdb_buf r = t :: encode_string key ++ encode_string val ++ rest ->
  let script := {| cmd_name := "SCRIPT LOAD"; cmd_args := [ArgBytes val] |} in
  let r' := advance (1 + List.length (encode_string key)
                     + List.length (encode_string val)) r in
  loadData_body expire hasSelectDb r
  = (Ok (Continue expire hasSelectDb),
     if bytes_eqb key (list_byte_of_string "lua") then sending script r' else r').
Proof.
  intros Ht Hk Hv Hbuf script r'.
  assert (Hb1 : rdb_buf (advance 1 r)
                = encode_string key ++ encode_string val ++ rest).
  { apply (@rdb_buf_advance _ 1 r [t] _ Hbuf). reflexivity. }
  assert (Hb2 : rdb_buf (advance (1 + List.length (encode_string key)) r)
                = encode_string val ++ rest).
  { rewrite <- advance_advance.
    apply (@rdb_buf_advance _ _ _ (encode_string key) _ Hb1). reflexivity. }
  unfold loadData_body, bind. rewrite (loadByte_cons r Hbuf). rewrite Ht.
  change (FlagOpcodeAux =? FlagOpcodeIdle) with false.
  change (FlagOpcodeAux =? FlagOpcodeFreq) with false.
  change (FlagOpcodeAux =? FlagOpcodeAux) with true.
  cbv iota. unfold wrapped.
  rewrite (@string_reads _ _ key r 1 _ Hk Hb1).
  rewrite (@string_reads _ _ val r _ _ Hv Hb2).
  fold r'. destruct (bytes_eqb key (list_byte_of_string "lua")).
  - rewrite discard_loadScript. reflexivity.
  - reflexivity.
Qed.

Ltac opcode_tests t :=
  unfold FlagOpcodeIdle, FlagOpcodeFreq, FlagOpcodeAux, FlagOpcodeResizeDB,
    FlagOpcodeExpireTimeMs, FlagOpcodeExpireTime, FlagOpcodeSelectDB,
    FlagOpcodeEOF in *;
  repeat (cbv beta iota;
          match goal with
          | |- context [if u8 t =? ?k then _ else _] =>
              destruct (Z.eqb_spec (u8 t) k)
          end).

(** X19: the loop variables after a turn that goes round again.  The flag
    [hasSelectDb] is never changed, so a flag that starts [false] stays
    [false] and every SELECTDB opcode is acted on.  The pending expiry is
    kept by the opcodes IDLE, FREQ, AUX, RESIZEDB and SELECTDB, and is
    reset to -1 by a record. *)
Theorem loop_variables (expire : Z) (hasSelectDb : bool) (r : rdb)
  (t : byte) (rest : list byte) (expire' : Z) (hasSelectDb' : bool) (r' : rdb) :
  rdb_buf r = t :: rest ->
  loadData_body expire hasSelectDb r = (Ok (Continue expire' hasSelectDb'), r') ->
  hasSelectDb' = hasSelectDb /\
  (FlagOpcodeIdle <= u8 t -> u8 t <> FlagOpcodeExpireTimeMs ->
   u8 t <> FlagOpcodeExpireTime -> expire' = expire) /\
  (u8 t < FlagOpcodeIdle -> expire' = -1).
Proof.
  intros Hbuf. pose proof (u8_range t) as Hr.
  unfold loadData_body, bind. rewrite (loadByte_cons r Hbuf).
  unfold wrapped, discard, ret. opcode_tests t;
    crack; intros [= <- <- <-];
    (refine (conj _ (conj _ _));
     [ try reflexivity; destruct hasSelectDb; reflexivity
     | intros; try reflexivity; lia
     | intros; try reflexivity; lia ]).
Qed.

End Records.

Lemma unsupported_types_witness :
  let r := @mkRdb bits_float [x00] ok_conn 0 1 in
  u8 x0f = TypeStreamListPacks /\
  @loadValue bits_float stored_lzf [x6b] x0f 5 r = (Err ErrUnsupportedStreams, r).
Proof.
  intros r. split; [reflexivity|].
  exact (proj1 (@unsupported_types bits_float stored_lzf [x6b] x0f 5 r) eq_refl).
Defined.

Lemma string_record_witness :
  let key := [x6b] in
  let val := [x76; x77] in
  let r := @mkRdb bits_float (encode_string val ++ []) ok_conn 0 3 in
  let set := {| cmd_name := "SET"; cmd_args := [ArgBytes key; ArgBytes val] |} in
  let pexpireat := {| cmd_name := "PEXPIREAT";
                      cmd_args := [ArgBytes key; ArgInt64 5] |} in
  (u8 x00 = TypeString /\ len val < 2 ^ 64 /\
   answer r set = ReplyStatus "OK" /\ 0 < 5) /\
  @loadValue bits_float stored_lzf key x00 5 r
  = (Ok tt, sending pexpireat (sending set (advance 3 r))).
Proof.
  intros key val r set pexpireat.
  assert (Hv : len val < 2 ^ 64) by (vm_compute; reflexivity).
  assert (H5 : 0 < 5) by lia.
  split; [repeat split; try assumption; reflexivity|].
  exact (proj2 (proj2 (@string_record bits_float stored_lzf key val [] x00 5 r
                         eq_refl Hv eq_refl)) eq_refl H5).
Defined.

Lemma aux_turn_witness :
  let key := list_byte_of_string "lua" in
  let val := [x78] in
  let r := @mkRdb bits_float
             (xfa :: encode_string key ++ encode_string val ++ []) ok_conn 0 7 in
  let script := {| cmd_name := "SCRIPT LOAD"; cmd_args := [ArgBytes val] |} in
  (u8 xfa = FlagOpcodeAux /\ len key < 2 ^ 64 /\ len val < 2 ^ 64) /\
  @loadData_body bits_float stored_lzf 9 false r
  = (Ok (Continue 9 false), sending script (advance 7 r)).
Proof.
  intros key val r script.
  assert (Hk : len key < 2 ^ 64) by (vm_compute; reflexivity).
  assert (Hv : len val < 2 ^ 64) by (vm_compute; reflexivity).
  split; [repeat split; try assumption; reflexivity|].
  exact (@aux_turn bits_float stored_lzf 9 false r xfa key val []
           eq_refl Hk Hv eq_refl).
Defined.

Lemma loop_variables_witness :
  let r := @mkRdb bits_float [xf9; x00; x01] ok_conn 0 3 in
  (rdb_buf r = xf9 :: [x00; x01] /\
   @loadData_body bits_float stored_lzf 7 false r
   = (Ok (Continue 7 false), advance 2 r)) /\
  (false = false /\
   (FlagOpcodeIdle <= u8 xf9 -> u8 xf9 <> FlagOpcodeExpireTimeMs ->
    u8 xf9 <> FlagOpcodeExpireTime -> 7 = 7) /\
   (u8 xf9 < FlagOpcodeIdle -> 7 = -1)).
Proof.
  intros r.
  assert (Hbody : @loadData_body bits_float stored_lzf 7 false r
                  = (Ok (Continue 7 false), advance 2 r))
    by (vm_compute; reflexivity).
  split; [split; [reflexivity|exact Hbody]|].
  exact (@loop_variables bits_float stored_lzf 7 false r xf9 [x00; x01]
           7 false (advance 2 r) eq_refl Hbody).
Defined.

(** ** Collections stored in a slab *)

Section Slabs.

Variables A B : Type.
Variable P : A -> Prop.
Variable enc : A -> list byte.
Variable val : A -> list B.
Variable body : M input (list B).

Hypothesis body_reads :
  forall a behind rest,
    P a -> len (behind ++ enc a ++ rest) < 2 ^ 31 ->
    body (cursor behind (enc a ++ rest))
    = (Ok (val a), cursor (behind ++ enc a) rest).

Lemma slab_loop (items : list A) :
  forall (behind : list byte) (ent : list B) (rest : list byte),
    Forall P items ->
    len (behind ++ flat_map enc items ++ rest) < 2 ^ 31 ->
    for_loop (List.length items) body ent
      (cursor behind (flat_map enc items ++ rest))
    = (Ok (ent ++ flat_map val items),
       cursor (behind ++ flat_map enc items) rest).
Proof.
  induction items as [|a items IH]; intros behind ent rest HP Hl.
  - cbn. rewrite !app_nil_r. reflexivity.
  - inversion HP as [|a' items' Ha Hitems]; subst.
    cbn [flat_map List.length for_loop] in *. rewrite <- app_assoc in *.
    unfold bind at 1. rewrite (@body_reads a behind _ Ha Hl).
    rewrite IH by (try assumption; rewrite <- app_assoc; exact Hl).
    rewrite <- !app_assoc. reflexivity.
Qed.

End Slabs.

Lemma entry_reads (e : list byte * ziplist_item) (behind rest : list byte) :
  ziplist_entry_ok e ->
  len (behind ++ ziplist_entry_bytes e ++ rest) < 2 ^ 31 ->
  (entry <- loadZiplistEntry ;; ret [entry])
    (cursor behind (ziplist_entry_bytes e ++ rest))
  = (Ok [ziplist_item_value (snd e)],
     cursor (behind ++ ziplist_entry_bytes e) rest).
Proof.
  destruct e as [f it]. unfold ziplist_entry_ok, ziplist_entry_bytes.
  cbn [fst snd]. intros [Hf Hit] Hl.
  destruct (@switch_item it Hit) as (h & more & Hb & Hsw).
  rewrite Hb in *. rewrite <- app_assoc in Hl |- *. cbn [app] in Hl |- *.
  unfold bind.
  rewrite (@loadZiplistEntry_header behind f (more ++ rest) h Hf Hl).
  replace (behind ++ f ++ [h]) with ((behind ++ f) ++ [h])
    by (rewrite <- app_assoc; reflexivity).
  rewrite Hsw by (rewrite <- app_assoc; exact Hl).
  rewrite <- app_assoc. reflexivity.
Qed.

(** The walk over a ziplist: the count, then the entries. *)
Lemma ziplist_walk (sizes : list byte)
  (entries : list (list byte * ziplist_item)) (tail : list byte) :
  List.length sizes = 8%nat -> len entries < 2 ^ 16 ->
  Forall ziplist_entry_ok entries ->
  len (ziplist_slab sizes entries tail) < 2 ^ 31 ->
  (length <- loadZiplistLength ;;
   for_loop (Z.to_nat length) (entry <- loadZiplistEntry ;; ret [entry]) [])
    (newInput (ziplist_slab sizes entries tail))
  = (Ok (map (fun e => ziplist_item_value (snd e)) entries),
     cursor (sizes ++ le_bytes 2 (len entries)
             ++ flat_map ziplist_entry_bytes entries) tail).
Proof.
  intros Hs Hn Hok Hl. pose proof (len_nonneg entries) as Hn0.
  assert (H63 : 2 ^ 31 < 2 ^ 63) by (vm_compute; reflexivity).
  unfold ziplist_slab, newInput in *. unfold bind at 1.
  cbn [le_bytes app] in *.
  rewrite loadZiplistLength_slab by (assumption || lia).
  rewrite !u8_byte_of_Z.
  replace (len entries mod 256 + 256 * (len entries / 256 mod 256))
    with (len entries)
    by (change (2 ^ 16) with 65536 in Hn;
        Z.to_euclidean_division_equations; lia).
  rewrite to_nat_len.
  rewrite (@slab_loop _ _ ziplist_entry_ok ziplist_entry_bytes
             (fun e => [ziplist_item_value (snd e)]) _ entry_reads
             entries _ [] tail Hok)
    by (rewrite <- app_assoc; cbn [app]; exact Hl).
  cbn [app]. rewrite flat_map_singleton.
  rewrite <- app_assoc. reflexivity.
Qed.

Section Ziplists.

Context {F : GoFloat} {L : Lzf}.

(** A slab is stored as a raw string. *)
Lemma slab_reads (slab rest : list byte) (r : rdb) :
  len slab < 2 ^ 31 -> rdb_buf r = encode_string slab ++ rest ->
  loadString r = (Ok slab, advance (List.length (encode_string slab)) r).
Proof.
  intros Hl Hbuf. unfold encode_string in *. rewrite <- app_assoc in Hbuf.
  assert (H64 : 2 ^ 31 < 2 ^ 64) by (vm_compute; reflexivity).
  rewrite (@loadString_at _ _ r slab rest) by (lia || exact Hbuf).
  rewrite length_app. reflexivity.
Qed.

Lemma loadZipList_slab (sizes : list byte)
  (entries : list (list byte * ziplist_item)) (tail rest : list byte) (r : rdb) :
  List.length sizes = 8%nat -> len entries < 2 ^ 16 ->
  Forall ziplist_entry_ok entries ->
  len (ziplist_slab sizes entries tail) < 2 ^ 31 ->
  rdb_buf r = encode_string (ziplist_slab sizes entries tail) ++ rest ->
  loadZipList r
  = (Ok (map (fun e => ziplist_item_value (snd e)) entries),
     advance (List.length (encode_string (ziplist_slab sizes entries tail))) r).
Proof.
  intros Hs Hn Hok Hl Hbuf. unfold loadZipList, bind at 1.
  rewrite (@slab_reads _ rest r Hl Hbuf). unfold with_input.
  rewrite (@ziplist_walk sizes entries tail Hs Hn Hok Hl). reflexivity.
Qed.

(** X20: a list stored as a ziplist, round trip.  The slab is read as a
    raw string; the entries are decoded in order, as many as the count at
    offset 8 says; the size fields before the count and whatever follows
    the entries (the end marker) are not looked at.  [loadListWithZipList]
    sends one RPUSH with the key and the decoded entries, and succeeds
    exactly when the destination answers their count. *)
Theorem ziplist_list_round_trip (key sizes : list byte)
  (entries : list (list byte * ziplist_item)) (tail rest : list byte) (r : rdb) :
  List.length sizes = 8%nat -> len entries < 2 ^ 16 ->
  Forall ziplist_entry_ok entries ->
  let slab := ziplist_slab sizes entries tail in
  len slab < 2 ^ 31 -> rdb_buf r = encode_string slab ++ rest ->
  let values := map (fun e => ziplist_item_value (snd e)) entries in
  let c := {| cmd_name := "RPUSH";
              cmd_args := ArgBytes key :: map ArgBytes values |} in
  let r' := advance (List.length (encode_string slab)) r in
  loadZipList r = (Ok values, r') /\
  loadListWithZipList key r
  = expect_int "failed to RPUSH zipList" (len entries) (answer r c)
      (sending c r') /\
  (fst (loadListWithZipList key r) = Ok tt <-> answer r c = ReplyInt (len entries)).
Proof.
  intros Hs Hn Hok slab Hl Hbuf values c r'.
  pose proof (@loadZipList_slab sizes entries tail rest r Hs Hn Hok Hl Hbuf)
    as Hzip.
  fold slab values r' in Hzip.
  assert (Hlen : len values = len entries)
    by (unfold values, len; rewrite length_map; reflexivity).
  assert (Hload : loadListWithZipList key r
                  = expect_int "failed to RPUSH zipList" (len entries)
                      (answer r c) (sending c r')).
  { unfold loadListWithZipList, bind at 1. rewrite Hzip.
    unfold bind, Do. rewrite Hlen. reflexivity. }
  refine (conj Hzip (conj Hload _)). rewrite Hload. apply expect_int_ok.
Qed.

End Ziplists.

Lemma ziplist_list_round_trip_witness :
  let key := [x6b] in
  let sizes := [x00; x00; x00; x00; x00; x00; x00; x00] in
  let entries := [([x00], ZStr [x61]); ([x03], ZInt 16 (-2)); ([x04], ZImm 7)] in
  let slab := ziplist_slab sizes entries [xff] in
  let r := @mkRdb bits_float (encode_string slab ++ []) ok_conn 0 22 in
  (List.length sizes = 8%nat /\ len entries < 2 ^ 16 /\
   Forall ziplist_entry_ok entries /\ len slab < 2 ^ 31) /\
  @loadZipList bits_float stored_lzf r
  = (Ok [[x61]; FormatInt (-2); FormatInt 7],
     advance (List.length (encode_string slab)) r).
Proof.
  intros key sizes entries slab r.
  assert (Hn : len entries < 2 ^ 16) by (vm_compute; reflexivity).
  assert (Hl : len slab < 2 ^ 31) by (vm_compute; reflexivity).
  assert (Hok : Forall ziplist_entry_ok entries).
  { repeat apply Forall_cons; try apply Forall_nil; split;
      try (left; eexists; split; [reflexivity|vm_compute; discriminate]).
    - vm_compute. reflexivity.
    - split; [right; left; reflexivity|].
      vm_compute. split; [discriminate|reflexivity].
    - vm_compute. split; discriminate. }
  split; [repeat split; try assumption; reflexivity|].
  exact (proj1 (@ziplist_list_round_trip bits_float stored_lzf key sizes entries
                  [xff] [] r eq_refl Hn Hok Hl eq_refl)).
Defined.

Lemma entry_step (e : list byte * ziplist_item) (behind rest : list byte) :
  ziplist_entry_ok e ->
  len (behind ++ ziplist_entry_bytes e ++ rest) < 2 ^ 31 ->
  loadZiplistEntry (cursor behind (ziplist_entry_bytes e ++ rest))
  = (Ok (ziplist_item_value (snd e)),
     cursor (behind ++ ziplist_entry_bytes e) rest).
Proof.
  intros Hok Hl. pose proof (@entry_reads e behind rest Hok Hl) as H.
  unfold bind in H.
  destruct (loadZiplistEntry _) as [[v|e'|] c]; try discriminate H.
  unfold ret in H. injection H as <- <-. reflexivity.
Qed.

Section ZiplistPairs.

Context {F : GoFloat} {L : Lzf}.

Lemma pair_step
  (p : (list byte * ziplist_item) * (list byte * ziplist_item))
  (behind rest : list byte) :
  ziplist_pair_ok p ->
  len (behind ++ ziplist_pair_bytes p ++ rest) < 2 ^ 31 ->
  (field <- loadZiplistEntry ;;
   value <- loadZiplistEntry ;;
   ret [ArgBytes field; ArgBytes value])
    (cursor behind (ziplist_pair_bytes p ++ rest))
  = (Ok [ArgBytes (ziplist_item_value (snd (fst p)));
         ArgBytes (ziplist_item_value (snd (snd p)))],
     cursor (behind ++ ziplist_pair_bytes p) rest).
Proof.
  destruct p as [f v]. unfold ziplist_pair_ok, ziplist_pair_bytes.
  cbn [fst snd]. intros [Hf Hv] Hl. rewrite <- app_assoc in Hl |- *.
  unfold bind.
  rewrite (@entry_step f behind _ Hf Hl).
  rewrite (@entry_step v (behind ++ ziplist_entry_bytes f) rest Hv)
    by (rewrite <- app_assoc; exact Hl).
  rewrite <- app_assoc. reflexivity.
Qed.

Lemma pair_entries_bytes
  (pairs : list ((list byte * ziplist_item) * (list byte * ziplist_item))) :
  flat_map ziplist_entry_bytes (ziplist_pair_entries pairs)
  = flat_map ziplist_pair_bytes pairs.
Proof.
  unfold ziplist_pair_entries.
  induction pairs as [|p pairs IH]; [reflexivity|].
  cbn [flat_map app]. rewrite IH. unfold ziplist_pair_bytes.
  rewrite <- app_assoc. reflexivity.
Qed.

Lemma len_pair_entries
  (pairs : list ((list byte * ziplist_item) * (list byte * ziplist_item))) :
  len (ziplist_pair_entries pairs) = 2 * len pairs.
Proof.
  unfold ziplist_pair_entries.
  induction pairs as [|p pairs IH]; [reflexivity|].
  cbn [flat_map app]. rewrite !len_cons, IH. lia.
Qed.

(** The walk over a ziplist that holds pairs: half the count, rounded
    down, then that many pairs. *)
Lemma ziplist_pairs_walk (sizes : list byte)
  (pairs : list ((list byte * ziplist_item) * (list byte * ziplist_item)))
  (extra : list (list byte * ziplist_item)) (tail : list byte) :
  List.length sizes = 8%nat -> (List.length extra <= 1)%nat ->
  Forall ziplist_pair_ok pairs ->
  let entries := ziplist_pair_entries pairs ++ extra in
  len entries < 2 ^ 16 ->
  len (ziplist_slab sizes entries tail) < 2 ^ 31 ->
  fst ((length <- loadZiplistLength ;;
        let length := Z.quot length 2 in
        ent <- for_loop (Z.to_nat length)
                 (field <- loadZiplistEntry ;;
                  value <- loadZiplistEntry ;;
                  ret [ArgBytes field; ArgBytes value]) [] ;;
        ret (length, ent))
         (newInput (ziplist_slab sizes entries tail)))
  = Ok (len pairs,
        flat_map (fun p => [ArgBytes (ziplist_item_value (snd (fst p)));
                            ArgBytes (ziplist_item_value (snd (snd p)))]) pairs).
Proof.
  intros Hs Hx Hok entries Hn Hl. pose proof (len_nonneg pairs) as Hp0.
  assert (H63 : 2 ^ 31 < 2 ^ 63) by (vm_compute; reflexivity).
  assert (Hcount : len entries = 2 * len pairs + len extra)
    by (unfold entries; rewrite len_app, len_pair_entries; reflexivity).
  assert (Hx' : 0 <= len extra <= 1) by (unfold len; lia).
  unfold ziplist_slab, newInput in *. unfold bind at 1.
  cbn [le_bytes app] in *.
  rewrite loadZiplistLength_slab by (assumption || lia).
  rewrite !u8_byte_of_Z.
  replace (len entries mod 256 + 256 * (len entries / 256 mod 256))
    with (len entries)
    by (change (2 ^ 16) with 65536 in Hn;
        Z.to_euclidean_division_equations; lia).
  cbv zeta.
  replace (Z.quot (len entries) 2) with (len pairs)
    by (rewrite Z.quot_div_nonneg by lia;
        apply Z.div_unique with (r := len extra); lia).
  rewrite to_nat_len. unfold entries in *.
  rewrite flat_map_app, pair_entries_bytes, <- app_assoc in *.
  unfold bind at 1.
  rewrite (@slab_loop _ _ ziplist_pair_ok ziplist_pair_bytes
             (fun p => [ArgBytes (ziplist_item_value (snd (fst p)));
                        ArgBytes (ziplist_item_value (snd (snd p)))]) _
             pair_step pairs _ [] _ Hok)
    by (rewrite <- app_assoc; cbn [app]; exact Hl).
  reflexivity.
Qed.

(** X21: a hash stored as a ziplist.  The count at offset 8 is halved,
    rounding down, and that many pairs of entries are decoded: with an odd
    count the last entry is not read at all.  [loadHashMapZiplist] sends
    one HSET with the key and each field followed by its value, and
    succeeds exactly when the destination answers the count of the pairs. *)
Theorem ziplist_hash_round_trip (key sizes : list byte)
  (pairs : list ((list byte * ziplist_item) * (list byte * ziplist_item)))
  (extra : list (list byte * ziplist_item)) (tail rest : list byte) (r : rdb) :
  List.length sizes = 8%nat -> (List.length extra <= 1)%nat ->
  Forall ziplist_pair_ok pairs ->
  let entries := ziplist_pair_entries pairs ++ extra in
  let slab := ziplist_slab sizes entries tail in
  len entries < 2 ^ 16 -> len slab < 2 ^ 31 ->
  rdb_buf r = encode_string slab ++ rest ->
  let c := {| cmd_name := "HSET";
              cmd_args :=
                ArgBytes key
                :: flat_map (fun p => [ArgBytes (ziplist_item_value (snd (fst p)));
                                       ArgBytes (ziplist_item_value (snd (snd p)))])
                     pairs |} in
  let r' := advance (List.length (encode_string slab)) r in
  loadHashMapZiplist key r
  = expect_int "failed to HSET" (len pairs) (answer r c) (sending c r') /\
  (fst (loadHashMapZiplist key r) = Ok tt <-> answer r c = ReplyInt (len pairs)).
Proof.
  intros Hs Hx Hok entries slab Hn Hl Hbuf c r'.
  assert (Hload : loadHashMapZiplist key r
                  = expect_int "failed to HSET" (len pairs) (answer r c)
                      (sending c r')).
  { unfold loadHashMapZiplist, bind at 1.
    rewrite (@slab_reads _ _ slab rest r Hl Hbuf). fold r'.
    unfold bind at 1, with_input.
    pose proof (@ziplist_pairs_walk sizes pairs extra tail Hs Hx Hok Hn Hl)
      as Hwalk.
    cbv zeta in Hwalk. fold entries slab in Hwalk. rewrite Hwalk.
    unfold bind, Do. reflexivity. }
  split; [exact Hload|]. rewrite Hload. apply expect_int_ok.
Qed.

Lemma scored_pair_step (score : (list byte * ziplist_item) * (list byte * ziplist_item) -> float64)
  (p : (list byte * ziplist_item) * (list byte * ziplist_item))
  (behind rest : list byte) :
  ziplist_pair_ok p /\
  ParseFloat (ziplist_item_value (snd (snd p))) = Ok (score p) ->
  len (behind ++ ziplist_pair_bytes p ++ rest) < 2 ^ 31 ->
  (member <- loadZiplistEntry ;;
   scoreBytes <- loadZiplistEntry ;;
   match ParseFloat scoreBytes with
   | Ok score => ret [ArgFloat score; ArgBytes member]
   | Err e => fail e
   | Panic => panic
   end)
    (cursor behind (ziplist_pair_bytes p ++ rest))
  = (Ok [ArgFloat (score p); ArgBytes (ziplist_item_value (snd (fst p)))],
     cursor (behind ++ ziplist_pair_bytes p) rest).
Proof.
  destruct p as [f v]. unfold ziplist_pair_ok, ziplist_pair_bytes.
  cbn [fst snd]. intros [[Hf Hv] Hs] Hl. rewrite <- app_assoc in Hl |- *.
  unfold bind.
  rewrite (@entry_step f behind _ Hf Hl).
  rewrite (@entry_step v (behind ++ ziplist_entry_bytes f) rest Hv)
    by (rewrite <- app_assoc; exact Hl).
  cbn [snd] in Hs |- *. rewrite Hs. rewrite <- app_assoc. reflexivity.
Qed.

(** X22: a sorted set stored as a ziplist.  The count at offset 8 is
    halved, rounding down, and that many pairs of entries are decoded, a
    member and then its score, which [ParseFloat] reads from the text of
    the entry.  [loadZipListSortSet] sends one ZADD with the key and, for
    each pair in order, the score before the member, and succeeds exactly
    when the destination answers the count of the pairs. *)
Theorem ziplist_zset_round_trip (key sizes : list byte)
  (score : (list byte * ziplist_item) * (list byte * ziplist_item) -> float64)
  (pairs : list ((list byte * ziplist_item) * (list byte * ziplist_item)))
  (extra : list (list byte * ziplist_item)) (tail rest : list byte) (r : rdb) :
  List.length sizes = 8%nat -> (List.length extra <= 1)%nat ->
  Forall (fun p => ziplist_pair_ok p /\
                   ParseFloat (ziplist_item_value (snd (snd p))) = Ok (score p))
    pairs ->
  let entries := ziplist_pair_entries pairs ++ extra in
  let slab := ziplist_slab sizes entries tail in
  len entries < 2 ^ 16 -> len slab < 2 ^ 31 ->
  rdb_buf r = encode_string slab ++ rest ->
  let c := {| cmd_name := "ZADD";
              cmd_args :=
                ArgBytes key
                :: flat_map (fun p => [ArgFloat (score p);
                                       ArgBytes (ziplist_item_value (snd (fst p)))])
                     pairs |} in
  let r' := advance (List.length (encode_string slab)) r in
  loadZipListSortSet key r
  = expect_int "failed to ZADD" (len pairs) (answer r c) (sending c r') /\
  (fst (loadZipListSortSet key r) = Ok tt <-> answer r c = ReplyInt (len pairs)).
Proof.
  intros Hs Hx Hok entries slab Hn Hl Hbuf c r'.
  pose proof (len_nonneg pairs) as Hp0.
  assert (H63 : 2 ^ 31 < 2 ^ 63) by (vm_compute; reflexivity).
  assert (Hcount : len entries = 2 * len pairs + len extra)
    by (unfold entries; rewrite len_app, len_pair_entries; reflexivity).
  assert (Hx' : 0 <= len extra <= 1) by (unfold len; lia).
  assert (Hload : loadZipListSortSet key r
                  = expect_int "failed to ZADD" (len pairs) (answer r c)
                      (sending c r')).
  { unfold loadZipListSortSet, bind at 1.
    rewrite (@slab_reads _ _ slab rest r Hl Hbuf). fold r'.
    unfold bind at 1, with_input.
    unfold slab, entries, ziplist_slab, newInput in *. unfold bind at 1.
    cbn [le_bytes app] in *.
    rewrite loadZiplistLength_slab by (assumption || lia).
    rewrite !u8_byte_of_Z.
    replace (len (ziplist_pair_entries pairs ++ extra) mod 256
             + 256 * (len (ziplist_pair_entries pairs ++ extra) / 256 mod 256))
      with (len (ziplist_pair_entries pairs ++ extra))
      by (change (2 ^ 16) with 65536 in Hn;
          Z.to_euclidean_division_equations; lia).
    replace (Z.quot (len (ziplist_pair_entries pairs ++ extra)) 2)
      with (len pairs)
      by (rewrite Z.quot_div_nonneg by lia;
          apply Z.div_unique with (r := len extra); lia).
    rewrite to_nat_len.
    rewrite flat_map_app, pair_entries_bytes, <- app_assoc in *.
    unfold bind at 1.
    rewrite (@slab_loop _ _
               (fun p => ziplist_pair_ok p /\
                         ParseFloat (ziplist_item_value (snd (snd p)))
                         = Ok (score p))
               ziplist_pair_bytes
               (fun p => [ArgFloat (score p);
                          ArgBytes (ziplist_item_value (snd (fst p)))]) _
               (scored_pair_step score) pairs _ [] _ Hok)
      by (rewrite <- app_assoc; cbn [app]; exact Hl).
    unfold bind, Do, ret. cbn [fst app]. reflexivity. }
  split; [exact Hload|]. rewrite Hload. apply expect_int_ok.
Qed.

End ZiplistPairs.

Lemma ziplist_hash_round_trip_witness :
  let key := [x6b] in
  let sizes := [x00; x00; x00; x00; x00; x00; x00; x00] in
  let pairs := [(([x00], ZStr [x66]), ([x03], ZImm 7))] in
  let extra := [([x02], ZStr [x7a])] in
  let slab := ziplist_slab sizes (ziplist_pair_entries pairs ++ extra) [xff] in
  let r := @mkRdb bits_float (encode_string slab ++ []) ok_conn 0 20 in
  let c := {| cmd_name := "HSET";
              cmd_args := [ArgBytes key; ArgBytes [x66]; ArgBytes (FormatInt 7)] |} in
  ((List.length extra <= 1)%nat /\ Forall ziplist_pair_ok pairs /\
   len (ziplist_pair_entries pairs ++ extra) < 2 ^ 16 /\ len slab < 2 ^ 31) /\
  @loadHashMapZiplist bits_float stored_lzf key r
  = (Err (ErrWrap "failed to HSET" ErrReply),
     sending c (advance (List.length (encode_string slab)) r)).
Proof.
  intros key sizes pairs extra slab r c.
  assert (Hx : (List.length extra <= 1)%nat) by (cbn; lia).
  assert (Hn : len (ziplist_pair_entries pairs ++ extra) < 2 ^ 16)
    by (vm_compute; reflexivity).
  assert (Hl : len slab < 2 ^ 31) by (vm_compute; reflexivity).
  assert (Hok : Forall ziplist_pair_ok pairs).
  { apply Forall_cons; [|apply Forall_nil]. split; split;
      try (left; eexists; split; [reflexivity|vm_compute; discriminate]).
    - vm_compute. reflexivity.
    - vm_compute. split; discriminate. }
  split; [repeat split; assumption|].
  exact (proj1 (@ziplist_hash_round_trip bits_float stored_lzf key sizes pairs
                  extra [xff] [] r eq_refl Hx Hok Hn Hl eq_refl)).
Defined.

Lemma ziplist_zset_round_trip_witness :
  let key := [x6b] in
  let sizes := [x00; x00; x00; x00; x00; x00; x00; x00] in
  let pairs := [(([x00], ZStr [x6d]), ([x03], ZImm 7))] in
  let score := fun p : (list byte * ziplist_item) * (list byte * ziplist_item) =>
                 ziplist_item_value (snd (snd p)) in
  let slab := ziplist_slab sizes (ziplist_pair_entries pairs ++ []) [xff] in
  let r := @mkRdb text_float (encode_string slab ++ []) counting_conn 0 17 in
  let c := {| cmd_name := "ZADD";
              cmd_args := [ArgBytes key; ArgFloat (F := text_float) (FormatInt 7);
                           ArgBytes [x6d]] |} in
  (Forall (fun p => ziplist_pair_ok p /\
                    @ParseFloat text_float (ziplist_item_value (snd (snd p)))
                    = Ok (score p)) pairs /\
   len (ziplist_pair_entries pairs ++ []) < 2 ^ 16 /\ len slab < 2 ^ 31) /\
  @loadZipListSortSet text_float stored_lzf key r
  = (Err (ErrMsg "failed to ZADD"),
     sending c (advance (List.length (encode_string slab)) r)).
Proof.
  intros key sizes pairs score slab r c.
  assert (Hx : (List.length (@nil (list byte * ziplist_item)) <= 1)%nat)
    by (cbn; lia).
  assert (Hn : len (ziplist_pair_entries pairs ++ []) < 2 ^ 16)
    by (vm_compute; reflexivity).
  assert (Hl : len slab < 2 ^ 31) by (vm_compute; reflexivity).
  assert (Hok : Forall (fun p => ziplist_pair_ok p /\
                                 @ParseFloat text_float
                                   (ziplist_item_value (snd (snd p)))
                                 = Ok (score p)) pairs).
  { apply Forall_cons; [|apply Forall_nil]. split; [|reflexivity].
    split; split;
      try (left; eexists; split; [reflexivity|vm_compute; discriminate]).
    - vm_compute. reflexivity.
    - vm_compute. split; discriminate. }
  split; [repeat split; assumption|].
  exact (proj1 (@ziplist_zset_round_trip text_float stored_lzf key sizes score
                  pairs [] [xff] [] r eq_refl Hx Hok Hn Hl eq_refl)).
Defined.

(** ** Sets of integers *)

Section Intsets.

Context {F : GoFloat} {L : Lzf}.

Lemma member_reads (size : Z) (m : Z) (behind rest : list byte) :
  size = 2 \/ size = 4 \/ size = 8 ->
  - 2 ^ (8 * size - 1) <= m < 2 ^ (8 * size - 1) ->
  len (behind ++ le_bytes (Z.to_nat size) m ++ rest) < 2 ^ 31 ->
  (intBytes <- Slice size ;;
   let intString :=
     if size =? 2 then FormatInt (int16 (LittleEndian.Uint16 intBytes))
     else if size =? 4 then FormatInt (int32 (LittleEndian.Uint32 intBytes))
     else if size =? 8 then FormatInt (int64 (LittleEndian.Uint64 intBytes))
     else [] in
   ret [ArgStr intString])
    (cursor behind (le_bytes (Z.to_nat size) m ++ rest))
  = (Ok [ArgStr (FormatInt m)],
     cursor (behind ++ le_bytes (Z.to_nat size) m) rest).
Proof.
  intros Hsize Hm Hl.
  assert (H63 : 2 ^ 31 < 2 ^ 63) by (vm_compute; reflexivity).
  unfold bind.
  destruct Hsize as [-> | [-> | ->]].
  - change (Z.to_nat 2) with 2%nat in *. change 2 with (Z.of_nat 2) at 1.
    rewrite Slice_le_bytes by lia. cbv zeta. cbn [Z.eqb Pos.eqb].
    unfold LittleEndian.Uint16, int16, ret.
    rewrite firstn_all2 by (rewrite length_le_bytes; lia).
    rewrite le_value_le_bytes. change (256 ^ Z.of_nat 2) with (2 ^ 16).
    rewrite signed_mod by (lia || exact Hm). reflexivity.
  - change (Z.to_nat 4) with 4%nat in *. change 4 with (Z.of_nat 4) at 1.
    rewrite Slice_le_bytes by lia. cbv zeta. cbn [Z.eqb Pos.eqb].
    unfold LittleEndian.Uint32, int32, ret.
    rewrite firstn_all2 by (rewrite length_le_bytes; lia).
    rewrite le_value_le_bytes. change (256 ^ Z.of_nat 4) with (2 ^ 32).
    rewrite signed_mod by (lia || exact Hm). reflexivity.
  - change (Z.to_nat 8) with 8%nat in *. change 8 with (Z.of_nat 8) at 1.
    rewrite Slice_le_bytes by lia. cbv zeta. cbn [Z.eqb Pos.eqb].
    unfold LittleEndian.Uint64, int64, ret.
    rewrite firstn_all2 by (rewrite length_le_bytes; lia).
    rewrite le_value_le_bytes. change (256 ^ Z.of_nat 8) with (2 ^ 64).
    rewrite signed_mod by (lia || exact Hm). reflexivity.
Qed.

Lemma Uint32_le_bytes (z : Z) :
  0 <= z < 2 ^ 32 -> LittleEndian.Uint32 (le_bytes 4 z) = z.
Proof.
  intros Hz. unfold LittleEndian.Uint32.
  rewrite firstn_all2 by (rewrite length_le_bytes; lia).
  rewrite le_value_le_bytes. change (256 ^ Z.of_nat 4) with (2 ^ 32).
  apply Z.mod_small. exact Hz.
Qed.

(** The walk over an intset: the size of a member, the count, the members. *)
Lemma intset_walk (size : Z) (members : list Z) (tail : list byte) :
  size = 2 \/ size = 4 \/ size = 8 ->
  Forall (fun m => - 2 ^ (8 * size - 1) <= m < 2 ^ (8 * size - 1)) members ->
  len members < 2 ^ 32 ->
  len (intset_slab size members tail) < 2 ^ 31 ->
  fst ((sizeBytes <- Slice 4 ;;
        let intSize := LittleEndian.Uint32 sizeBytes in
        if negb (intSize =? 2) && negb (intSize =? 4) && negb (intSize =? 8) then
          fail (ErrUnknownIntsetEncoding intSize)
        else
          lenBytes <- Slice 4 ;;
          let cardinality := LittleEndian.Uint32 lenBytes in
          ent <- for_loop (Z.to_nat cardinality)
                   (intBytes <- Slice intSize ;;
                    let intString :=
                      if intSize =? 2 then FormatInt (int16 (LittleEndian.Uint16 intBytes))
                      else if intSize =? 4 then FormatInt (int32 (LittleEndian.Uint32 intBytes))
                      else if intSize =? 8 then FormatInt (int64 (LittleEndian.Uint64 intBytes))
                      else [] in
                    ret [ArgStr intString]) [] ;;
          ret (cardinality, ent))
         (newInput (intset_slab size members tail)))
  = Ok (len members, map (fun m => ArgStr (FormatInt m)) members).
Proof.
  intros Hsize Hm Hn Hl. pose proof (len_nonneg members) as Hn0.
  assert (H63 : 2 ^ 31 < 2 ^ 63) by (vm_compute; reflexivity).
  assert (Hs32 : 0 <= size < 2 ^ 32)
    by (destruct Hsize as [-> | [-> | ->]]; vm_compute; split; discriminate || reflexivity).
  unfold intset_slab, newInput in *.
  change {| data := ?d; index := 0 |} with (cursor [] d).
  unfold bind at 1. change 4 with (Z.of_nat 4) at 1.
  rewrite Slice_le_bytes by (cbn [app]; lia).
  cbv zeta. rewrite (Uint32_le_bytes Hs32).
  replace (negb (size =? 2) && negb (size =? 4) && negb (size =? 8)) with false
    by (destruct Hsize as [-> | [-> | ->]]; reflexivity).
  unfold bind at 1. change 4 with (Z.of_nat 4) at 1.
  rewrite Slice_le_bytes by (cbn [app] in *; rewrite <- ?app_assoc; lia).
  rewrite (@Uint32_le_bytes (len members)) by lia.
  rewrite to_nat_len. unfold bind at 1.
  rewrite (@slab_loop _ _ (fun m => - 2 ^ (8 * size - 1) <= m < 2 ^ (8 * size - 1))
             (le_bytes (Z.to_nat size)) (fun m => [ArgStr (FormatInt m)]) _
             (fun m behind rest Hr Hlen =>
                @member_reads size m behind rest Hsize Hr Hlen)
             members _ [] tail Hm)
    by (cbn [app] in *; rewrite <- ?app_assoc; exact Hl).
  cbn [app fst ret]. rewrite flat_map_singleton. reflexivity.
Qed.

Lemma intset_bad_size (key : list byte) (size : Z) (after rest : list byte)
  (r : rdb) :
  0 <= size < 2 ^ 32 -> size <> 2 -> size <> 4 -> size <> 8 ->
  len (le_bytes 4 size ++ after) < 2 ^ 31 ->
  rdb_buf r = encode_string (le_bytes 4 size ++ after) ++ rest ->
  loadIntSet key r
  = (Err (ErrUnknownIntsetEncoding size),
     advance (List.length (encode_string (le_bytes 4 size ++ after))) r).
Proof.
  intros Hs H2 H4 H8 Hl Hbuf.
  assert (H63 : 2 ^ 31 < 2 ^ 63) by (vm_compute; reflexivity).
  unfold loadIntSet, bind at 1.
  rewrite (@slab_reads _ _ _ rest r Hl Hbuf).
  unfold bind at 1, with_input, newInput.
  change {| data := ?d; index := 0 |} with (cursor [] d).
  unfold bind at 1. change 4 with (Z.of_nat 4) at 1.
  rewrite Slice_le_bytes by (cbn [app]; lia).
  cbv zeta. rewrite (Uint32_le_bytes Hs).
  destruct (Z.eqb_spec size 2); [contradiction|].
  destruct (Z.eqb_spec size 4); [contradiction|].
  destruct (Z.eqb_spec size 8); [contradiction|].
  reflexivity.
Qed.

(** X23: a set of integers stored as an intset.  With members of 2, 4 or
    8 bytes, little-endian and signed, [loadIntSet] sends one SADD with
    the key and the decimal text of each member, in order, and succeeds
    exactly when the destination answers their count; what follows the
    members in the slab is not looked at.  With any other member size it
    fails with that size and sends nothing.  Either way it takes and
    counts exactly the bytes of the slab. *)
Theorem intset_load (key rest : list byte) (r : rdb) :
  (forall size members tail,
     size = 2 \/ size = 4 \/ size = 8 ->
     Forall (fun m => - 2 ^ (8 * size - 1) <= m < 2 ^ (8 * size - 1)) members ->
     len members < 2 ^ 32 ->
     let slab := intset_slab size members tail in
     len slab < 2 ^ 31 -> rdb_buf r = encode_string slab ++ rest ->
     let c := {| cmd_name := "SADD";
                 cmd_args :=
                   ArgBytes key :: map (fun m => ArgStr (FormatInt m)) members |} in
     let r' := advance (List.length (encode_string slab)) r in
     loadIntSet key r
     = expect_int "failed to SADD" (len members) (answer r c) (sending c r') /\
     (fst (loadIntSet key r) = Ok tt <-> answer r c = ReplyInt (len members))) /\
  (forall size after,
     0 <= size < 2 ^ 32 -> size <> 2 -> size <> 4 -> size <> 8 ->
     let slab := le_bytes 4 size ++ after in
     len slab < 2 ^ 31 -> rdb_buf r = encode_string slab ++ rest ->
     loadIntSet key r
     = (Err (ErrUnknownIntsetEncoding size),
        advance (List.length (encode_string slab)) r)).
Proof.
  split.
  - intros size members tail Hsize Hm Hn slab Hl Hbuf c r'.
    assert (Hload : loadIntSet key r
                    = expect_int "failed to SADD" (len members) (answer r c)
                        (sending c r')).
    { unfold loadIntSet, bind at 1.
      rewrite (@slab_reads _ _ slab rest r Hl Hbuf). fold r'.
      unfold bind at 1, with_input.
      pose proof (@intset_walk size members tail Hsize Hm Hn Hl) as Hwalk.
      cbv zeta in Hwalk. fold slab in Hwalk. rewrite Hwalk.
      unfold bind, Do. reflexivity. }
    split; [exact Hload|]. rewrite Hload. apply expect_int_ok.
  - intros size after Hs H2 H4 H8 slab Hl Hbuf.
    exact (@intset_bad_size key size after rest r Hs H2 H4 H8 Hl Hbuf).
Qed.

End Intsets.

Lemma intset_load_witness :
  let key := [x6b] in
  let members := [-2; 300] in
  let slab := intset_slab 2 members [] in
  let r := @mkRdb bits_float (encode_string slab ++ []) ok_conn 0 13 in
  let c := {| cmd_name := "SADD";
              cmd_args := [ArgBytes key; ArgStr (FormatInt (-2));
                           ArgStr (FormatInt 300)] |} in
  (Forall (fun m => - 2 ^ (8 * 2 - 1) <= m < 2 ^ (8 * 2 - 1)) members /\
   len members < 2 ^ 32 /\ len slab < 2 ^ 31) /\
  @loadIntSet bits_float stored_lzf key r
  = (Err (ErrWrap "failed to SADD" ErrReply),
     sending c (advance (List.length (encode_string slab)) r)).
Proof.
  intros key members slab r c.
  assert (Hm : Forall (fun m => - 2 ^ (8 * 2 - 1) <= m < 2 ^ (8 * 2 - 1)) members)
    by (repeat (apply Forall_cons;
                [vm_compute; split; [discriminate|reflexivity]|]);
        apply Forall_nil).
  assert (Hn : len members < 2 ^ 32) by (vm_compute; reflexivity).
  assert (Hl : len slab < 2 ^ 31) by (vm_compute; reflexivity).
  split; [repeat split; assumption|].
  exact (proj1 (proj1 (@intset_load bits_float stored_lzf key [] r)
                  2 members [] (or_introl eq_refl) Hm Hn Hl eq_refl)).
Defined.

(** ** Zipmaps *)

Lemma zipmap_header_reads (readFree : bool) (n free : Z)
  (behind rest : list byte) :
  0 <= n < 2 ^ 32 -> 0 <= free < 256 ->
  (readFree = false -> n < 253 -> free = 0) ->
  len (behind ++ zipmap_item_header readFree n free ++ rest) < 2 ^ 31 ->
  loadZipmapItemLength readFree
    (cursor behind (zipmap_item_header readFree n free ++ rest))
  = (Ok (n, free), cursor (behind ++ zipmap_item_header readFree n free) rest).
Proof.
  intros Hn Hf Hpad Hl.
  assert (H63 : 2 ^ 31 < 2 ^ 63) by (vm_compute; reflexivity).
  revert Hl. unfold zipmap_item_header, loadZipmapItemLength, bind.
  destruct (Z.ltb_spec n 253) as [Hs|Hb].
  - intros Hl. cbn [app] in Hl |- *.
    rewrite ReadByte_cursor by lia.
    rewrite (@u8_byte_of_Z_small n) by lia.
    destruct (Z.eqb_spec n 253); [lia|].
    destruct (Z.eqb_spec n 254); [lia|].
    destruct (Z.eqb_spec n 255); [lia|].
    destruct readFree.
    + cbn [app] in Hl |- *.
      rewrite ReadByte_cursor
        by (rewrite <- app_assoc; cbn [app]; lia).
      rewrite u8_byte_of_Z_small by lia.
      rewrite <- app_assoc. reflexivity.
    + rewrite (Hpad eq_refl Hs). cbn [app]. reflexivity.
  - intros Hl. cbn [app] in Hl |- *.
    rewrite ReadByte_cursor by lia.
    change (u8 xfd =? 253) with true. cbv beta iota.
    change 5 with (len (rev (le_bytes 4 n) ++ [byte_of_Z free])).
    rewrite (@Slice_cursor_app (behind ++ [xfd])
               (rev (le_bytes 4 n) ++ [byte_of_Z free]) rest)
      by (rewrite <- app_assoc; cbn [app]; lia).
    unfold ret, BigEndian.Uint32.
    replace (firstn 4 (rev (le_bytes 4 n) ++ [byte_of_Z free]))
      with (rev (le_bytes 4 n))
      by (rewrite firstn_app, length_rev, length_le_bytes, firstn_all2
            by (rewrite length_rev, length_le_bytes; lia);
          cbn [Nat.sub firstn]; rewrite app_nil_r; reflexivity).
    rewrite rev_involutive, le_value_le_bytes.
    change (256 ^ Z.of_nat 4) with (2 ^ 32). rewrite Z.mod_small by lia.
    replace (nth 4 (rev (le_bytes 4 n) ++ [byte_of_Z free]) x00)
      with (byte_of_Z free)
      by (rewrite app_nth2 by (rewrite length_rev, length_le_bytes; lia);
          rewrite length_rev, length_le_bytes; reflexivity).
    rewrite u8_byte_of_Z_small by lia.
    rewrite <- !app_assoc. reflexivity.
Qed.

Lemma zipmap_item_reads (readFree : bool) (v pad behind rest : list byte) :
  zipmap_item_ok readFree v pad ->
  len (behind ++ zipmap_item_bytes readFree v pad ++ rest) < 2 ^ 31 ->
  loadZipmapItem readFree
    (cursor behind (zipmap_item_bytes readFree v pad ++ rest))
  = (Ok v, cursor (behind ++ zipmap_item_bytes readFree v pad) rest).
Proof.
  intros (Hv & Hp & Hpad) Hl.
  pose proof (len_nonneg v) as Hv0. pose proof (len_nonneg pad) as Hp0.
  assert (H63 : 2 ^ 31 < 2 ^ 63) by (vm_compute; reflexivity).
  unfold zipmap_item_bytes in *. rewrite <- !app_assoc in *.
  unfold loadZipmapItem, bind at 1.
  rewrite zipmap_header_reads; try lia; try exact Hl.
  2:{ intros Hr Hs. rewrite (Hpad Hr Hs). reflexivity. }
  destruct (Z.eqb_spec (len v) (-1)); [lia|].
  unfold bind at 1.
  rewrite Slice_cursor_app by (rewrite <- !app_assoc; lia).
  unfold bind.
  pose proof (len_nonneg rest) as Hr0.
  rewrite Seek_cursor;
    [|rewrite len_app; lia|rewrite <- !app_assoc; exact Hl].
  rewrite firstn_len_app, skipn_len_app, <- !app_assoc. reflexivity.
Qed.

Lemma zipmap_end_marker (readFree : bool) (behind rest : list byte) :
  len (behind ++ xff :: rest) < 2 ^ 31 ->
  loadZipmapItemLength readFree (cursor behind (xff :: rest))
  = (Ok (-1, 0), cursor (behind ++ [xff]) rest).
Proof.
  intros Hl. assert (H63 : 2 ^ 31 < 2 ^ 63) by (vm_compute; reflexivity).
  unfold loadZipmapItemLength, bind. rewrite ReadByte_cursor by lia.
  reflexivity.
Qed.

(** X24: one item of a zipmap.  [loadZipmapItem] reads back the bytes of a
    well-formed item (length on one byte, or [253] and four bytes
    big-endian; the count of the padding bytes; the bytes; the padding,
    which it skips) and stops right after it.  On the end marker [255] it
    returns no bytes and no error, one byte taken; on the length byte
    [254] it fails. *)
Theorem zipmap_item_round_trip (readFree : bool) (behind rest : list byte) :
  (forall v pad,
     zipmap_item_ok readFree v pad ->
     len (behind ++ zipmap_item_bytes readFree v pad ++ rest) < 2 ^ 31 ->
     loadZipmapItem readFree
       (cursor behind (zipmap_item_bytes readFree v pad ++ rest))
     = (Ok v, cursor (behind ++ zipmap_item_bytes readFree v pad) rest)) /\
  (len (behind ++ xff :: rest) < 2 ^ 31 ->
   loadZipmapItem readFree (cursor behind (xff :: rest))
   = (Ok [], cursor (behind ++ [xff]) rest)) /\
  (len (behind ++ xfe :: rest) < 2 ^ 31 ->
   loadZipmapItem readFree (cursor behind (xfe :: rest))
   = (Err ErrInvalidZipmapItemLength, cursor (behind ++ [xfe]) rest)).
Proof.
  assert (H63 : 2 ^ 31 < 2 ^ 63) by (vm_compute; reflexivity).
  refine (conj _ (conj _ _)).
  - intros v pad. apply zipmap_item_reads.
  - intros Hl. unfold loadZipmapItem, bind.
    rewrite zipmap_end_marker by exact Hl. reflexivity.
  - intros Hl. unfold loadZipmapItem, loadZipmapItemLength, bind.
    rewrite ReadByte_cursor by lia. reflexivity.
Qed.

Lemma zipmap_item_round_trip_witness :
  let v := [x61; x62] in
  let pad := [x00; x00; x00] in
  (zipmap_item_ok true v pad /\
   len ([xff] ++ zipmap_item_bytes true v pad ++ [xff]) < 2 ^ 31) /\
  loadZipmapItem true (cursor [xff] ([x02; x03; x61; x62; x00; x00; x00] ++ [xff]))
  = (Ok v, cursor ([xff] ++ [x02; x03; x61; x62; x00; x00; x00]) [xff]).
Proof.
  intros v pad.
  assert (Hok : zipmap_item_ok true v pad).
  { refine (conj _ (conj _ _)); [vm_compute; reflexivity..|discriminate]. }
  assert (Hl : len ([xff] ++ zipmap_item_bytes true v pad ++ [xff]) < 2 ^ 31)
    by (vm_compute; reflexivity).
  split; [split; assumption|].
  exact (proj1 (@zipmap_item_round_trip true [xff] [xff]) v pad Hok Hl).
Defined.

(** The walk that counts the items. *)
Lemma zipmap_count_step (n : Z) (v pad behind rest : list byte) :
  let readFree := negb (Z.rem n 2 =? 0) in
  - 2 ^ 63 <= n + 1 < 2 ^ 63 ->
  zipmap_item_ok readFree v pad ->
  len (behind ++ zipmap_item_bytes readFree v pad ++ rest) < 2 ^ 31 ->
  countZipmapItems_body n
    (cursor behind (zipmap_item_bytes readFree v pad ++ rest))
  = (Ok (inl (n + 1)), cursor (behind ++ zipmap_item_bytes readFree v pad) rest).
Proof.
  intros readFree Hn (Hv & Hp & Hpad) Hl.
  pose proof (len_nonneg v) as Hv0. pose proof (len_nonneg pad) as Hp0.
  pose proof (len_nonneg rest) as Hr0.
  assert (H63 : 2 ^ 31 < 2 ^ 63) by (vm_compute; reflexivity).
  assert (H32 : 2 ^ 32 < 2 ^ 62) by (vm_compute; reflexivity).
  assert (H62 : 2 * 2 ^ 62 = 2 ^ 63) by (vm_compute; reflexivity).
  unfold zipmap_item_bytes in *. rewrite <- !app_assoc in *.
  unfold countZipmapItems_body, bind at 1. fold readFree.
  rewrite zipmap_header_reads; try lia; try exact Hl.
  2:{ intros Hr Hs. rewrite (Hpad Hr Hs). reflexivity. }
  destruct (Z.eqb_spec (len v) (-1)); [lia|].
  unfold bind. rewrite (@wrap64_id (len v + len pad)) by lia.
  replace (v ++ pad ++ rest) with ((v ++ pad) ++ rest)
    by (rewrite <- app_assoc; reflexivity).
  rewrite <- (len_app v pad).
  rewrite Seek_cursor;
    [|rewrite (len_app (v ++ pad)); pose proof (len_nonneg (v ++ pad)); lia
     |rewrite <- !app_assoc; exact Hl].
  rewrite firstn_len_app, skipn_len_app, wrap64_id by exact Hn.
  rewrite <- !app_assoc. reflexivity.
Qed.

Lemma zipmap_pair_items (p : list byte * list byte * list byte) :
  zipmap_pair_ok p ->
  zipmap_item_ok false (fst (fst p)) [] /\
  zipmap_item_ok true (snd (fst p)) (snd p) /\
  zipmap_pair_bytes p
  = zipmap_item_bytes false (fst (fst p)) []
    ++ zipmap_item_bytes true (snd (fst p)) (snd p).
Proof.
  destruct p as [[k v] pad]. cbn [fst snd zipmap_pair_ok zipmap_pair_bytes].
  intros (Hk & Hv & Hp). refine (conj _ (conj _ eq_refl)).
  - refine (conj Hk (conj _ (fun _ _ => eq_refl))). vm_compute. reflexivity.
  - refine (conj Hv (conj Hp _)). discriminate.
Qed.

Lemma zipmap_item_nonempty (readFree : bool) (v pad : list byte) :
  1 <= len (zipmap_item_bytes readFree v pad).
Proof.
  unfold zipmap_item_bytes, zipmap_item_header. rewrite len_app.
  pose proof (len_nonneg (v ++ pad)).
  destruct (len v <? 253); rewrite len_cons;
    match goal with |- context [1 + len ?l] => pose proof (len_nonneg l) end;
    lia.
Qed.

Lemma zipmap_pairs_length (pairs : list (list byte * list byte * list byte)) :
  2 * len pairs <= len (flat_map zipmap_pair_bytes pairs).
Proof.
  induction pairs as [|[[k v] pad] pairs IH]; [cbn; lia|].
  cbn [flat_map]. rewrite len_cons, len_app.
  unfold zipmap_pair_bytes at 1. rewrite len_app.
  pose proof (zipmap_item_nonempty false k []).
  pose proof (zipmap_item_nonempty true v pad). lia.
Qed.

Lemma zipmap_count_end (n : Z) (behind rest : list byte) :
  len (behind ++ xff :: rest) < 2 ^ 31 ->
  countZipmapItems_body n (cursor behind (xff :: rest))
  = (Ok (inr tt), cursor (behind ++ [xff]) rest).
Proof.
  intros Hl. unfold countZipmapItems_body, bind.
  rewrite zipmap_end_marker by exact Hl. reflexivity.
Qed.

Lemma zipmap_rewind (n : Z) (buf : input) :
  (Seek 0 0 ;;; ret n) buf = (Ok n, set_index buf 0).
Proof. reflexivity. Qed.

Lemma zipmap_count_loop (pairs : list (list byte * list byte * list byte)) :
  forall (fuel : nat) (n : Z) (behind rest : list byte),
    Forall zipmap_pair_ok pairs ->
    0 <= n -> Z.rem n 2 = 0 -> n + 2 * len pairs < 2 ^ 62 ->
    (2 * List.length pairs < fuel)%nat ->
    len (behind ++ flat_map zipmap_pair_bytes pairs ++ xff :: rest) < 2 ^ 31 ->
    countZipmapItems_loop fuel n
      (cursor behind (flat_map zipmap_pair_bytes pairs ++ xff :: rest))
    = Some (Ok (n + 2 * len pairs),
            {| data := behind ++ flat_map zipmap_pair_bytes pairs ++ xff :: rest;
               index := 0 |}).
Proof.
  assert (H62 : 2 ^ 62 < 2 ^ 63) by (vm_compute; reflexivity).
  induction pairs as [|p pairs IH]; intros fuel n behind rest Hok Hn Heven Hmax Hfuel Hl.
  - destruct fuel as [|fuel]; [cbn in Hfuel; lia|].
    cbn [flat_map app countZipmapItems_loop] in *.
    rewrite zipmap_count_end by exact Hl. rewrite zipmap_rewind.
    unfold set_index, cursor. cbn [data].
    rewrite <- app_assoc. cbn [app]. do 3 f_equal. cbn. lia.
  - inversion Hok as [|p' pairs' Hp Hpairs]; subst.
    destruct (@zipmap_pair_items p Hp) as (Hk & Hv & Hbytes).
    destruct fuel as [|[|fuel]]; [cbn in Hfuel; lia..|].
    rewrite len_cons in Hmax. pose proof (len_nonneg pairs) as Hp0.
    cbn [flat_map] in *. rewrite Hbytes in *. rewrite <- !app_assoc in *.
    assert (Hodd : Z.rem (n + 1) 2 = 1).
    { rewrite Z.rem_mod_nonneg in * by lia.
      rewrite <- Zplus_mod_idemp_l, Heven. reflexivity. }
    cbn [countZipmapItems_loop].
    replace false with (negb (Z.rem n 2 =? 0)) at 1 2
      by (rewrite Heven; reflexivity).
    rewrite zipmap_count_step;
      [|lia|rewrite Heven; exact Hk|rewrite Heven; exact Hl].
    rewrite Heven. cbn [Z.eqb negb].
    replace true with (negb (Z.rem (n + 1) 2 =? 0)) at 1 2
      by (rewrite Hodd; reflexivity).
    rewrite zipmap_count_step;
      [|lia|rewrite Hodd; exact Hv
       |rewrite Hodd; rewrite <- !app_assoc; exact Hl].
    rewrite Hodd. cbn [Z.eqb negb].
    rewrite IH; try assumption.
    + rewrite <- !app_assoc, len_cons. do 3 f_equal. lia.
    + lia.
    + rewrite Z.rem_mod_nonneg in * by lia.
      replace (n + 1 + 1) with (n + 1 * 2) by lia.
      rewrite Z.mod_add by lia. exact Heven.
    + lia.
    + cbn [List.length] in Hfuel. lia.
    + rewrite <- !app_assoc. exact Hl.
Qed.

(** X25: the walk that counts the items of a zipmap.  Started on the first
    item, it counts two items for each pair up to the end marker [255] and
    then puts the cursor back at offset 0 of the slab, which is the count
    byte and not the first item. *)
Theorem zipmap_count_rewinds (pairs : list (list byte * list byte * list byte))
  (behind rest : list byte) :
  Forall zipmap_pair_ok pairs ->
  let slab := behind ++ flat_map zipmap_pair_bytes pairs ++ xff :: rest in
  len slab < 2 ^ 31 ->
  countZipmapItems
    (cursor behind (flat_map zipmap_pair_bytes pairs ++ xff :: rest))
  = (Ok (2 * len pairs), {| data := slab; index := 0 |}).
Proof.
  intros Hok slab Hl.
  assert (H31 : 2 ^ 31 < 2 ^ 62) by (vm_compute; reflexivity).
  pose proof (len_nonneg pairs) as Hp0. pose proof (len_nonneg behind) as Hb0.
  pose proof (len_nonneg rest) as Hr0.
  pose proof (zipmap_pairs_length pairs) as Hlen.
  assert (Hsize : len slab
                  = len behind + len (flat_map zipmap_pair_bytes pairs)
                    + 1 + len rest)
    by (unfold slab; rewrite !len_app, len_cons; lia).
  pose proof (@countZipmapItems_total
                (cursor behind (flat_map zipmap_pair_bytes pairs ++ xff :: rest)))
    as Htot.
  cbn [cursor data index] in Htot. fold slab in Htot.
  specialize (Htot ltac:(lia)).
  rewrite zipmap_count_loop in Htot; try assumption; try lia.
  - injection Htot as <-. reflexivity.
  - reflexivity.
  - unfold len in *. lia.
Qed.

Lemma zipmap_count_rewinds_witness :
  let pairs := [([x61], [x62], [x00])] in
  let slab := [xff] ++ flat_map zipmap_pair_bytes pairs ++ xff :: [] in
  (Forall zipmap_pair_ok pairs /\ len slab < 2 ^ 31) /\
  countZipmapItems (cursor [xff] ([x01; x61; x01; x01; x62; x00] ++ xff :: []))
  = (Ok 2, {| data := [xff; x01; x61; x01; x01; x62; x00; xff]; index := 0 |}).
Proof.
  intros pairs slab.
  assert (Hok : Forall zipmap_pair_ok pairs).
  { apply Forall_cons; [|apply Forall_nil].
    refine (conj _ (conj _ _)); vm_compute; reflexivity. }
  assert (Hl : len slab < 2 ^ 31) by (vm_compute; reflexivity).
  split; [split; assumption|].
  exact (@zipmap_count_rewinds pairs [xff] [] Hok Hl).
Defined.

Section ZipmapHash.

Context {F : GoFloat} {L : Lzf}.

Lemma zipmap_pair_reads (p : list byte * list byte * list byte)
  (behind rest : list byte) :
  zipmap_pair_ok p ->
  len (behind ++ zipmap_pair_bytes p ++ rest) < 2 ^ 31 ->
  (field <- loadZipmapItem false ;;
   value <- loadZipmapItem true ;;
   ret [ArgBytes field; ArgBytes value])
    (cursor behind (zipmap_pair_bytes p ++ rest))
  = (Ok [ArgBytes (fst (fst p)); ArgBytes (snd (fst p))],
     cursor (behind ++ zipmap_pair_bytes p) rest).
Proof.
  intros Hp Hl. destruct (@zipmap_pair_items p Hp) as (Hk & Hv & Hbytes).
  rewrite Hbytes in *. rewrite <- !app_assoc in *. unfold bind.
  rewrite zipmap_item_reads by assumption.
  rewrite zipmap_item_reads by (try assumption; rewrite <- !app_assoc; exact Hl).
  rewrite <- !app_assoc. reflexivity.
Qed.

(** The walk over a zipmap whose first byte is the count of its pairs. *)
Lemma zipmap_walk (pairs : list (list byte * list byte * list byte))
  (tail : list byte) :
  Forall zipmap_pair_ok pairs -> len pairs <= 254 ->
  let slab := byte_of_Z (len pairs) :: flat_map zipmap_pair_bytes pairs ++ tail in
  len slab < 2 ^ 31 ->
  fst (zipmap_pairs (newInput slab))
  = Ok (len pairs,
        flat_map (fun p => [ArgBytes (fst (fst p)); ArgBytes (snd (fst p))]) pairs).
Proof.
  intros Hok Hn slab Hl. pose proof (len_nonneg pairs) as Hp0.
  assert (H63 : 2 ^ 31 < 2 ^ 63) by (vm_compute; reflexivity).
  unfold zipmap_pairs, newInput, slab in *.
  change {| data := ?d; index := 0 |} with (cursor [] d).
  unfold bind at 1. rewrite ReadByte_cursor by (cbn [app]; lia).
  rewrite u8_byte_of_Z_small by lia.
  destruct (Z.gtb_spec (len pairs) 254) as [Hgt|_]; [lia|].
  unfold bind at 1, ret at 1. rewrite to_nat_len. unfold bind at 1.
  rewrite (@slab_loop _ _ zipmap_pair_ok zipmap_pair_bytes
             (fun p => [ArgBytes (fst (fst p)); ArgBytes (snd (fst p))]) _
             zipmap_pair_reads pairs _ [] tail Hok)
    by (cbn [app]; exact Hl).
  reflexivity.
Qed.

(** X26: a hash stored as a zipmap whose first byte is the count of its
    pairs (up to 254).  [loadHashMapWithZipmap] reads that many pairs, the
    padding after each value skipped, sends one HSET with the key and each
    field followed by its value, and succeeds exactly when the destination
    answers the count; what follows the pairs in the slab (the end marker)
    is not looked at. *)
Theorem zipmap_hash_round_trip (key : list byte)
  (pairs : list (list byte * list byte * list byte)) (tail rest : list byte)
  (r : rdb) :
  Forall zipmap_pair_ok pairs -> len pairs <= 254 ->
  let slab := byte_of_Z (len pairs) :: flat_map zipmap_pair_bytes pairs ++ tail in
  len slab < 2 ^ 31 -> rdb_buf r = encode_string slab ++ rest ->
  let c := {| cmd_name := "HSET";
              cmd_args :=
                ArgBytes key
                :: flat_map (fun p => [ArgBytes (fst (fst p));
                                       ArgBytes (snd (fst p))]) pairs |} in
  let r' := advance (List.length (encode_string slab)) r in
  loadHashMapWithZipmap key r
  = expect_int "failed to HSET" (len pairs) (answer r c) (sending c r') /\
  (fst (loadHashMapWithZipmap key r) = Ok tt <-> answer r c = ReplyInt (len pairs)).
Proof.
  intros Hok Hn slab Hl Hbuf c r'.
  assert (Hload : loadHashMapWithZipmap key r
                  = expect_int "failed to HSET" (len pairs) (answer r c)
                      (sending c r')).
  { unfold loadHashMapWithZipmap, bind at 1.
    rewrite (@slab_reads _ _ slab rest r Hl Hbuf). fold r'.
    unfold bind at 1, with_input.
    pose proof (@zipmap_walk pairs tail Hok Hn Hl) as Hwalk.
    fold slab in Hwalk. rewrite Hwalk.
    unfold bind, Do. reflexivity. }
  split; [exact Hload|]. rewrite Hload. apply expect_int_ok.
Qed.

End ZipmapHash.

Lemma zipmap_hash_round_trip_witness :
  let key := [x6b] in
  let pairs := [([x61], [x62], [x00]); ([x63; x64], [], [])] in
  let slab := byte_of_Z (len pairs) :: flat_map zipmap_pair_bytes pairs ++ [xff] in
  let r := @mkRdb bits_float (encode_string slab ++ []) ok_conn 0 14 in
  let c := {| cmd_name := "HSET";
              cmd_args := [ArgBytes key; ArgBytes [x61]; ArgBytes [x62];
                           ArgBytes [x63; x64]; ArgBytes []] |} in
  (Forall zipmap_pair_ok pairs /\ len pairs <= 254 /\ len slab < 2 ^ 31) /\
  @loadHashMapWithZipmap bits_float stored_lzf key r
  = (Err (ErrWrap "failed to HSET" ErrReply),
     sending c (advance (List.length (encode_string slab)) r)).
Proof.
  intros key pairs slab r c.
  assert (Hok : Forall zipmap_pair_ok pairs).
  { repeat (apply Forall_cons;
            [refine (conj _ (conj _ _)); vm_compute; reflexivity|]).
    apply Forall_nil. }
  assert (Hn : len pairs <= 254) by (vm_compute; discriminate).
  assert (Hl : len slab < 2 ^ 31) by (vm_compute; reflexivity).
  split; [repeat split; assumption|].
  exact (proj1 (@zipmap_hash_round_trip bits_float stored_lzf key pairs [xff] [] r
                  Hok Hn Hl eq_refl)).
Defined.

(** ** Compressed strings and the remaining opcodes *)

Section Opcodes.

Context {F : GoFloat} {L : Lzf}.

(** [io.ReadFull], its error returned, then [r.i += n]. *)
Lemma ReadFull_then {A : Type} (r : rdb) (v rest : list byte)
  (k : list byte -> M rdb A) :
  rdb_buf r = v ++ rest ->
  ('(val, n, err) <- io_ReadFull (len v) ;;
   match err with
   | Some e => fail e
   | None => add_i n ;;; k val
   end) r
  = k v (advance (List.length v) r).
Proof.
  intros Hbuf. unfold bind, len.
  rewrite io_ReadFull_ok by (rewrite Hbuf, length_app; lia).
  rewrite Hbuf, firstn_app, Nat.sub_diag, firstn_all, app_nil_r.
  rewrite skipn_app, Nat.sub_diag, skipn_all.
  unfold add_i, set_buf, advance. cbn [rdb_buf rdb_conn rdb_i rdb_n].
  rewrite Hbuf, skipn_app, Nat.sub_diag, skipn_all. reflexivity.
Qed.

(** X27: a string stored compressed.  After the selector byte [0xC3]
    [loadString] reads the compressed and the uncompressed lengths, takes
    and counts as many bytes as the compressed length says, and returns
    what the decompressor makes of them; the reader has then advanced by
    the selector, the two length prefixes and the compressed bytes. *)
Theorem compressed_string (r : rdb) (compressed rest : list byte) (ulength : Z) :
  len compressed < 2 ^ 63 -> 0 <= ulength < 2 ^ 63 ->
  let prefix := xc3 :: encode_length (len compressed) ++ encode_length ulength in
  rdb_buf r = prefix ++ compressed ++ rest ->
  loadString r
  = (match lzfDecompress compressed (len compressed) ulength with
     | Some res => Ok res
     | None => Panic
     end,
     advance (List.length (prefix ++ compressed)) r).
Proof.
  intros Hc Hu prefix Hbuf. subst prefix.
  pose proof (len_nonneg compressed) as Hc0.
  assert (H64 : 2 ^ 63 < 2 ^ 64) by (vm_compute; reflexivity).
  cbn [app] in Hbuf. rewrite <- !app_assoc in Hbuf.
  set (k1 := List.length (encode_length (len compressed))).
  set (k2 := List.length (encode_length ulength)).
  assert (Hb1 : rdb_buf (advance 1 r)
                = encode_length (len compressed) ++ encode_length ulength
                  ++ compressed ++ rest).
  { apply (@rdb_buf_advance _ 1 r [xc3] _ Hbuf). reflexivity. }
  assert (Hb2 : rdb_buf (advance (1 + k1) r)
                = encode_length ulength ++ compressed ++ rest).
  { rewrite <- advance_advance.
    apply (@rdb_buf_advance _ _ _ (encode_length (len compressed)) _ Hb1).
    reflexivity. }
  assert (Hb3 : rdb_buf (advance (1 + k1 + k2) r) = compressed ++ rest).
  { rewrite <- advance_advance.
    apply (@rdb_buf_advance _ _ _ (encode_length ulength) _ Hb2).
    reflexivity. }
  unfold loadString, bind at 1.
  rewrite (loadLen_encoding r Hbuf) by (vm_compute; discriminate).
  change (u8 xc3 mod 64) with 3. cbn [Z.eqb Pos.eqb EncodeInt8 EncodeInt16
                                       EncodeInt32 EncodeLZF].
  unfold loadLZF, bind at 1.
  rewrite (@loadLen_encode_length _ (advance 1 r) (len compressed) _)
    by (lia || exact Hb1).
  rewrite advance_advance. fold k1. unfold bind at 1.
  rewrite (@loadLen_encode_length _ (advance (1 + k1) r) ulength _)
    by (lia || exact Hb2).
  rewrite advance_advance. fold k2.
  rewrite (@ReadFull_then _ (advance (1 + k1 + k2) r) compressed rest
             (fun val =>
                match lzfDecompress val (int64 (len compressed)) (int64 ulength) with
                | Some res => ret res
                | None => panic
                end) Hb3).
  rewrite advance_advance.
  unfold int64. rewrite !signed_id by (simpl; lia).
  replace (List.length ((xc3 :: encode_length (len compressed)
                         ++ encode_length ulength) ++ compressed))
    with (1 + k1 + k2 + List.length compressed)%nat
    by (cbn [app List.length]; rewrite !length_app; fold k1 k2; lia).
  destruct (lzfDecompress compressed (len compressed) ulength); reflexivity.
Qed.

(** X28: the SELECTDB opcode with the flag [false].  The turn takes and
    counts the opcode and the database number, sends SELECT with the
    number, and goes on to the next turn whatever the destination
    answers: the result of [selectDB] is dropped. *)
Theorem selectdb_turn (expire : Z) (r : rdb) (t : byte) (dbindex : Z)
  (rest : list byte) :
  u8 t = FlagOpcodeSelectDB -> 0 <= dbindex < 2 ^ 64 ->
  rdb_buf r = t :: encode_length dbindex ++ rest ->
  let c := {| cmd_name := "SELECT"; cmd_args := [ArgUint64 dbindex] |} in
  loadData_body expire false r
  = (Ok (Continue expire false),
     sending c (advance (1 + List.length (encode_length dbindex)) r)).
Proof.
  intros Ht Hd Hbuf c.
  assert (Hb1 : rdb_buf (advance 1 r) = encode_length dbindex ++ rest).
  { apply (@rdb_buf_advance _ 1 r [t] _ Hbuf). reflexivity. }
  unfold loadData_body, bind. rewrite (loadByte_cons r Hbuf). rewrite Ht.
  change (FlagOpcodeSelectDB =? FlagOpcodeIdle) with false.
  change (FlagOpcodeSelectDB =? FlagOpcodeFreq) with false.
  change (FlagOpcodeSelectDB =? FlagOpcodeAux) with false.
  change (FlagOpcodeSelectDB =? FlagOpcodeResizeDB) with false.
  change (FlagOpcodeSelectDB =? FlagOpcodeExpireTimeMs) with false.
  change (FlagOpcodeSelectDB =? FlagOpcodeExpireTime) with false.
  change (FlagOpcodeSelectDB =? FlagOpcodeSelectDB) with true.
  cbv beta iota. unfold wrapped.
  rewrite (@loadLen_encode_length _ (advance 1 r) dbindex rest Hd Hb1).
  rewrite advance_advance, discard_selectDB. reflexivity.
Qed.

(** X29: the opcodes that only carry metadata.  IDLE with its length,
    FREQ with its byte and RESIZEDB with its two lengths are taken and
    counted, nothing is sent to the destination, and the loop goes on with
    its variables unchanged. *)
Theorem metadata_turns (expire : Z) (hasSelectDb : bool) (r : rdb) (t : byte) :
  (forall idle rest,
     u8 t = FlagOpcodeIdle -> 0 <= idle < 2 ^ 64 ->
     rdb_buf r = t :: encode_length idle ++ rest ->
     loadData_body expire hasSelectDb r
     = (Ok (Continue expire hasSelectDb),
        advance (1 + List.length (encode_length idle)) r)) /\
  (forall freq rest,
     u8 t = FlagOpcodeFreq -> rdb_buf r = t :: freq :: rest ->
     loadData_body expire hasSelectDb r
     = (Ok (Continue expire hasSelectDb), advance 2 r)) /\
  (forall dbSize expiresSize rest,
     u8 t = FlagOpcodeResizeDB ->
     0 <= dbSize < 2 ^ 64 -> 0 <= expiresSize < 2 ^ 64 ->
     rdb_buf r = t :: encode_length dbSize ++ encode_length expiresSize ++ rest ->
     loadData_body expire hasSelectDb r
     = (Ok (Continue expire hasSelectDb),
        advance (1 + List.length (encode_length dbSize)
                 + List.length (encode_length expiresSize)) r)).
Proof.
  refine (conj _ (conj _ _)).
  - intros idle rest Ht Hi Hbuf.
    assert (Hb1 : rdb_buf (advance 1 r) = encode_length idle ++ rest).
    { apply (@rdb_buf_advance _ 1 r [t] _ Hbuf). reflexivity. }
    unfold loadData_body, bind. rewrite (loadByte_cons r Hbuf). rewrite Ht.
    change (FlagOpcodeIdle =? FlagOpcodeIdle) with true. cbv beta iota.
    rewrite (@loadLen_encode_length _ (advance 1 r) idle rest Hi Hb1).
    rewrite advance_advance. reflexivity.
  - intros freq rest Ht Hbuf.
    assert (Hb1 : rdb_buf (advance 1 r) = freq :: rest).
    { apply (@rdb_buf_advance _ 1 r [t] _ Hbuf). reflexivity. }
    unfold loadData_body, bind. rewrite (loadByte_cons r Hbuf). rewrite Ht.
    change (FlagOpcodeFreq =? FlagOpcodeIdle) with false.
    change (FlagOpcodeFreq =? FlagOpcodeFreq) with true. cbv beta iota.
    rewrite (loadByte_cons (advance 1 r) Hb1).
    rewrite advance_advance. reflexivity.
  - intros dbSize expiresSize rest Ht Hd He Hbuf.
    assert (Hb1 : rdb_buf (advance 1 r)
                  = encode_length dbSize ++ encode_length expiresSize ++ rest).
    { apply (@rdb_buf_advance _ 1 r [t] _ Hbuf). reflexivity. }
    assert (Hb2 : rdb_buf (advance (1 + List.length (encode_length dbSize)) r)
                  = encode_length expiresSize ++ rest).
    { rewrite <- advance_advance.
      apply (@rdb_buf_advance _ _ _ (encode_length dbSize) _ Hb1). reflexivity. }
    unfold loadData_body, bind. rewrite (loadByte_cons r Hbuf). rewrite Ht.
    change (FlagOpcodeResizeDB =? FlagOpcodeIdle) with false.
    change (FlagOpcodeResizeDB =? FlagOpcodeFreq) with false.
    change (FlagOpcodeResizeDB =? FlagOpcodeAux) with false.
    change (FlagOpcodeResizeDB =? FlagOpcodeResizeDB) with true.
    cbv beta iota. unfold wrapped.
    rewrite (@loadLen_encode_length _ (advance 1 r) dbSize _ Hd Hb1).
    rewrite advance_advance.
    rewrite (@loadLen_encode_length _ _ expiresSize rest He Hb2).
    rewrite advance_advance. reflexivity.
Qed.

End Opcodes.

Lemma compressed_string_witness :
  let compressed := [x61; x62] in
  let r := @mkRdb bits_float
             ((xc3 :: encode_length (len compressed) ++ encode_length 9)
              ++ compressed ++ [x2a]) ok_conn 0 6 in
  (len compressed < 2 ^ 63 /\ 0 <= 9 < 2 ^ 63) /\
  @loadString bits_float stored_lzf r = (Ok compressed, advance 5 r).
Proof.
  intros compressed r.
  assert (Hc : len compressed < 2 ^ 63) by (vm_compute; reflexivity).
  assert (Hu : 0 <= 9 < 2 ^ 63) by (vm_compute; split; [discriminate|reflexivity]).
  split; [split; assumption|].
  exact (@compressed_string bits_float stored_lzf r compressed [x2a] 9
           Hc Hu eq_refl).
Defined.

Lemma selectdb_turn_witness :
  let r := @mkRdb bits_float (xfe :: encode_length 300 ++ [x2a]) ok_conn 0 4 in
  let c := {| cmd_name := "SELECT";
              cmd_args := [ArgUint64 (F := bits_float) 300] |} in
  (u8 xfe = FlagOpcodeSelectDB /\ 0 <= 300 < 2 ^ 64) /\
  @loadData_body bits_float stored_lzf 0 false r
  = (Ok (Continue 0 false), sending c (advance 3 r)).
Proof.
  intros r c.
  assert (Hd : 0 <= 300 < 2 ^ 64) by (vm_compute; split; [discriminate|reflexivity]).
  split; [split; [reflexivity|exact Hd]|].
  exact (@selectdb_turn bits_float stored_lzf 0 r xfe 300 [x2a]
           eq_refl Hd eq_refl).
Defined.

Lemma metadata_turns_witness :
  let r := @mkRdb bits_float (xfb :: encode_length 2 ++ encode_length 70000 ++ [x2a])
             ok_conn 0 8 in
  (u8 xfb = FlagOpcodeResizeDB /\ 0 <= 2 < 2 ^ 64 /\ 0 <= 70000 < 2 ^ 64) /\
  @loadData_body bits_float stored_lzf 5 false r
  = (Ok (Continue 5 false), advance 7 r).
Proof.
  intros r.
  assert (Hd : 0 <= 2 < 2 ^ 64) by (vm_compute; split; [discriminate|reflexivity]).
  assert (He : 0 <= 70000 < 2 ^ 64) by (vm_compute; split; [discriminate|reflexivity]).
  split; [repeat split; try apply Hd; try apply He|].
  exact (proj2 (proj2 (@metadata_turns bits_float stored_lzf 5 false r xfb))
           2 70000 [x2a] eq_refl Hd He eq_refl).
Defined.

(** ** Quicklists *)

Section Quicklists.

Context {F : GoFloat} {L : Lzf}.

Lemma reader_after_advance (r : rdb) (k j : nat) (cmds : list command) :
  advance j (reader_after r k cmds) = reader_after r (k + j) cmds.
Proof.
  unfold advance, reader_after. cbn [rdb_buf rdb_conn rdb_i rdb_n].
  rewrite skipn_skipn, wrap64_add_l. f_equal.
  - f_equal. lia.
  - f_equal. lia.
Qed.

Lemma reader_after_sending (r : rdb) (k : nat) (cmds : list command)
  (c : command) :
  sending c (reader_after r k cmds) = reader_after r k (cmds ++ [c]).
Proof.
  unfold sending, reader_after. cbn [rdb_buf rdb_conn rdb_i rdb_n sent respond].
  rewrite <- app_assoc. reflexivity.
Qed.

Lemma reader_after_buf (r : rdb) (k : nat) (cmds : list command)
  (taken rest : list byte) :
  rdb_buf r = taken ++ rest -> List.length taken = k ->
  rdb_buf (reader_after r k cmds) = rest.
Proof.
  intros Hbuf Hk. unfold reader_after. cbn [rdb_buf].
  rewrite Hbuf, <- Hk, skipn_app, Nat.sub_diag, skipn_all. reflexivity.
Qed.

(** One node: the ziplist is read, its entries are sent, the answer is
    checked. *)
Lemma quicklist_node_turn (key : list byte) (n : quicklist_node) (r1 : rdb)
  (rest : list byte) :
  quicklist_node_ok n ->
  rdb_buf r1 = quicklist_node_bytes n ++ rest ->
  (listItems <- loadZipList ;;
   rp <- Do "RPUSH" (ArgBytes key :: map ArgBytes listItems) ;;
   expect_int "failed to RPUSH quickList" (len listItems) rp ;;;
   ret (@nil unit)) r1
  = (expect_int "failed to RPUSH quickList" (len (quicklist_node_entries n))
       (answer r1 (quicklist_node_cmd key n)) ;;;
     ret (@nil unit))
      (sending (quicklist_node_cmd key n)
         (advance (List.length (quicklist_node_bytes n)) r1)).
Proof.
  intros (Hs & Hn & Hok & Hl) Hbuf.
  unfold quicklist_node_bytes, quicklist_node_slab in *.
  unfold bind at 1.
  rewrite (@loadZipList_slab _ _ _ _ _ rest r1 Hs Hn Hok Hl Hbuf).
  unfold bind at 1, Do. unfold quicklist_node_cmd, answer, sending.
  rewrite map_map, length_map_len. reflexivity.
Qed.

Lemma advance_reader_after (r : rdb) (k : nat) :
  advance k r = reader_after r k [].
Proof.
  destruct r as [b [s a] i n]. unfold advance, reader_after.
  cbn [rdb_buf rdb_conn rdb_i rdb_n sent respond]. rewrite app_nil_r.
  reflexivity.
Qed.

Lemma expect_int_fails (msg : string) (expected : Z) (rp : reply) (r : rdb) :
  rp <> ReplyInt expected -> exists e, expect_int msg expected rp r = (Err e, r).
Proof.
  intros Hne. unfold expect_int. destruct rp as [s|z|e]; cbn [redigo_Int].
  - eexists. reflexivity.
  - destruct (Z.eqb_spec expected z) as [->|_]; [congruence|].
    eexists. reflexivity.
  - eexists. reflexivity.
Qed.

(** The loop over the nodes the destination answers as expected. *)
Lemma quicklist_loop (key : list byte) (nodes : list quicklist_node) :
  forall (r : rdb) (k : nat) (cmds : list command) (m : nat) (ent : list unit)
         (rest : list byte),
    Forall quicklist_node_ok nodes ->
    rdb_buf (reader_after r k cmds)
    = flat_map quicklist_node_bytes nodes ++ rest ->
    answers_counts (respond (rdb_conn r)) (sent (rdb_conn r) ++ cmds)
      (map (fun n => (quicklist_node_cmd key n, len (quicklist_node_entries n)))
         nodes) ->
    for_loop (List.length nodes + m)
      (listItems <- loadZipList ;;
       rp <- Do "RPUSH" (ArgBytes key :: map ArgBytes listItems) ;;
       expect_int "failed to RPUSH quickList" (len listItems) rp ;;;
       ret (@nil unit)) ent (reader_after r k cmds)
    = for_loop m
        (listItems <- loadZipList ;;
         rp <- Do "RPUSH" (ArgBytes key :: map ArgBytes listItems) ;;
         expect_int "failed to RPUSH quickList" (len listItems) rp ;;;
         ret (@nil unit)) ent
        (reader_after r (k + List.length (flat_map quicklist_node_bytes nodes))
           (cmds ++ map (quicklist_node_cmd key) nodes)).
Proof.
  induction nodes as [|n nodes IH]; intros r k cmds m ent rest Hok Hbuf Hans.
  - cbn. rewrite Nat.add_0_r, app_nil_r. reflexivity.
  - inversion Hok as [|n' nodes' Hn Hnodes]; subst.
    cbn [flat_map map answers_counts List.length Nat.add] in *.
    destruct Hans as [Ha Hans]. rewrite <- app_assoc in Hbuf.
    cbn [for_loop]. unfold bind at 1.
    rewrite (@quicklist_node_turn key n (reader_after r k cmds) _ Hn Hbuf).
    unfold bind at 1.
    change (answer (reader_after r k cmds) (quicklist_node_cmd key n))
      with (respond (rdb_conn r) (sent (rdb_conn r) ++ cmds)
              (quicklist_node_cmd key n)).
    rewrite Ha. unfold expect_int. cbn [redigo_Int]. rewrite Z.eqb_refl.
    unfold ret at 1 2. cbv beta iota.
    rewrite reader_after_advance, reader_after_sending, app_nil_r.
    rewrite (IH r _ (cmds ++ [quicklist_node_cmd key n]) m ent rest Hnodes).
    + rewrite length_app, <- !app_assoc, Nat.add_assoc. reflexivity.
    + apply (@reader_after_buf r _ _
               (firstn k (rdb_buf r) ++ quicklist_node_bytes n) _).
      * unfold reader_after in Hbuf. cbn [rdb_buf] in Hbuf.
        rewrite <- app_assoc, <- Hbuf. symmetry. apply firstn_skipn.
      * rewrite length_app, length_firstn.
        assert (Hk : (k <= List.length (rdb_buf r))%nat).
        { unfold reader_after in Hbuf. cbn [rdb_buf] in Hbuf.
          destruct (Nat.le_gt_cases k (List.length (rdb_buf r))) as [Hle|Hgt];
            [exact Hle|].
          rewrite skipn_all2 in Hbuf by lia.
          symmetry in Hbuf. apply app_eq_nil in Hbuf. destruct Hbuf as [Hb _].
          apply app_eq_nil in Hb. destruct Hb as [Hb _].
          unfold quicklist_node_bytes, encode_string, encode_length in Hb.
          destruct (_ <? 64); [discriminate Hb|].
          destruct (_ <? 16384); [discriminate Hb|].
          destruct (_ <? 2 ^ 32); discriminate Hb. }
        lia.
    + rewrite app_assoc. exact Hans.
Qed.

(** X30: a list stored as a quicklist.  The nodes are ziplists, read one
    after the other, and the entries of each node are sent in an RPUSH of
    their own before the next node is read.  When the destination answers
    each RPUSH with the count of its entries the load succeeds, with one
    command per node and exactly the bytes of the nodes taken and counted.
    At the first node whose RPUSH is answered otherwise the load fails:
    the entries of the nodes before it have been pushed, and the nodes
    after it are neither read nor sent. *)
Theorem quicklist_round_trip (key : list byte) (r : rdb) (rest : list byte) :
  let expected := fun n => (quicklist_node_cmd key n,
                            len (quicklist_node_entries n)) in
  (forall nodes,
     len nodes < 2 ^ 63 -> Forall quicklist_node_ok nodes ->
     rdb_buf r
     = encode_length (len nodes) ++ flat_map quicklist_node_bytes nodes ++ rest ->
     answers_counts (respond (rdb_conn r)) (sent (rdb_conn r))
       (map expected nodes) ->
     loadListWithQuickList key r
     = (Ok tt,
        reader_after r
          (List.length (encode_length (len nodes)
                        ++ flat_map quicklist_node_bytes nodes))
          (map (quicklist_node_cmd key) nodes))) /\
  (forall done bad later,
     len (done ++ bad :: later) < 2 ^ 63 ->
     Forall quicklist_node_ok done -> quicklist_node_ok bad ->
     rdb_buf r
     = encode_length (len (done ++ bad :: later))
       ++ flat_map quicklist_node_bytes (done ++ bad :: later) ++ rest ->
     answers_counts (respond (rdb_conn r)) (sent (rdb_conn r))
       (map expected done) ->
     respond (rdb_conn r)
       (sent (rdb_conn r) ++ map (quicklist_node_cmd key) done)
       (quicklist_node_cmd key bad)
     <> ReplyInt (len (quicklist_node_entries bad)) ->
     exists e,
       loadListWithQuickList key r
       = (Err e,
          reader_after r
            (List.length (encode_length (len (done ++ bad :: later))
                          ++ flat_map quicklist_node_bytes (done ++ [bad])))
            (map (quicklist_node_cmd key) (done ++ [bad])))).
Proof.
  intros expected.
  assert (H64 : 2 ^ 63 < 2 ^ 64) by (vm_compute; reflexivity).
  split.
  - intros nodes Hn Hok Hbuf Hans. pose proof (len_nonneg nodes) as Hn0.
    unfold loadListWithQuickList, bind at 1.
    rewrite (@loadLen_encode_length _ r (len nodes) _) by (lia || exact Hbuf).
    rewrite to_nat_len, advance_reader_after. unfold bind at 1.
    rewrite <- (Nat.add_0_r (List.length nodes)).
    rewrite (@quicklist_loop key nodes r _ [] 0%nat [] rest Hok).
    + cbn [for_loop app]. unfold ret. rewrite length_app. reflexivity.
    + apply (@reader_after_buf r _ _ (encode_length (len nodes)) _ Hbuf).
      reflexivity.
    + rewrite app_nil_r. exact Hans.
  - intros done bad later Hn Hdone Hbad Hbuf Hans Hne.
    pose proof (len_nonneg (done ++ bad :: later)) as Hn0.
    unfold loadListWithQuickList, bind at 1.
    rewrite (@loadLen_encode_length _ r (len (done ++ bad :: later)) _)
      by (lia || exact Hbuf).
    rewrite to_nat_len, advance_reader_after. unfold bind at 1.
    rewrite (length_app done (bad :: later)). cbn [List.length].
    rewrite flat_map_app in Hbuf. cbn [flat_map] in Hbuf.
    rewrite <- !app_assoc in Hbuf.
    rewrite (@quicklist_loop key done r
               (List.length (encode_length (len (done ++ bad :: later)))) []
               (S (List.length later)) []
               (quicklist_node_bytes bad
                ++ flat_map quicklist_node_bytes later ++ rest) Hdone).
    2:{ apply (@reader_after_buf r _ _
                 (encode_length (len (done ++ bad :: later))) _ Hbuf).
        reflexivity. }
    2:{ rewrite app_nil_r. exact Hans. }
    cbn [for_loop app]. unfold bind at 1.
    match goal with
    | |- context [reader_after r ?k ?cs] =>
        assert (Hb1 : rdb_buf (reader_after r k cs)
                      = quicklist_node_bytes bad
                        ++ flat_map quicklist_node_bytes later ++ rest)
    end.
    { apply (@reader_after_buf r _ _
               (encode_length (len (done ++ bad :: later))
                ++ flat_map quicklist_node_bytes done) _).
      - rewrite <- app_assoc. exact Hbuf.
      - rewrite length_app. reflexivity. }
    rewrite (@quicklist_node_turn key bad _ _ Hbad Hb1).
    unfold bind at 1.
    match goal with
    | |- context [expect_int ?msg ?n (answer ?r1 ?c) ?r2] =>
        destruct (@expect_int_fails msg n (answer r1 c) r2) as (e & ->)
    end.
    { exact Hne. }
    exists e. rewrite reader_after_advance, reader_after_sending.
    rewrite map_app, flat_map_app, !length_app. cbn [map flat_map app].
    rewrite app_nil_r, Nat.add_assoc. reflexivity.
Qed.

End Quicklists.

Lemma quicklist_round_trip_witness :
  let key := [x6b] in
  let sizes := [x00; x00; x00; x00; x00; x00; x00; x00] in
  let nodes : list quicklist_node :=
    [(sizes, [([x00], ZStr [x61]); ([x03], ZImm 7)], [xff]);
     (sizes, [([x00], ZInt 8 (-1))], [xff])] in
  let r := @mkRdb bits_float
             (encode_length (len nodes)
              ++ flat_map quicklist_node_bytes nodes ++ [x2a])
             counting_conn 0 34 in
  (len nodes < 2 ^ 63 /\ Forall quicklist_node_ok nodes /\
   answers_counts (respond (rdb_conn r)) (sent (rdb_conn r))
     (map (fun n => (quicklist_node_cmd key n, len (quicklist_node_entries n)))
        nodes)) /\
  @loadListWithQuickList bits_float stored_lzf key r
  = (Ok tt,
     reader_after r 33
       [ {| cmd_name := "RPUSH";
            cmd_args := [ArgBytes key; ArgBytes [x61]; ArgBytes (FormatInt 7)] |};
         {| cmd_name := "RPUSH";
            cmd_args := [ArgBytes key; ArgBytes (FormatInt (-1))] |} ]).
Proof.
  intros key sizes nodes r.
  assert (Hn : len nodes < 2 ^ 63) by (vm_compute; reflexivity).
  assert (Hok : Forall quicklist_node_ok nodes).
  { repeat apply Forall_cons; try apply Forall_nil;
      (refine (conj eq_refl (conj _ (conj _ _)));
       [vm_compute; reflexivity| |vm_compute; reflexivity]).
    - repeat apply Forall_cons; try apply Forall_nil; split;
        try (left; eexists; split; [reflexivity|vm_compute; discriminate]).
      + vm_compute. reflexivity.
      + vm_compute. split; discriminate.
    - repeat apply Forall_cons; try apply Forall_nil; split;
        try (left; eexists; split; [reflexivity|vm_compute; discriminate]).
      split; [left; reflexivity|]. vm_compute. split; [discriminate|reflexivity]. }
  assert (Hans : answers_counts (respond (rdb_conn r)) (sent (rdb_conn r))
                   (map (fun n => (quicklist_node_cmd key n,
                                   len (quicklist_node_entries n))) nodes)).
  { cbn. repeat split. }
  split; [repeat split; assumption|].
  exact (proj1 (@quicklist_round_trip bits_float stored_lzf key r [x2a])
           nodes Hn Hok eq_refl Hans).
Defined.
